(** * SudokuSolver: the BoardMap solving engine of sudoku_leetcode.cpp

    A shallow embedding of [BoardMap] (constructor, [reduceOptions],
    [solve] and their helpers) and the properties of the solving engine.

    Data model, as in the source:
    - the board is a [vector<vector<char>>], here [list (list ascii)];
    - [squares], [rows], [columns], [blocks] are arrays of [uint16_t],
      here lists of [Z] read with [nth] and written with [upd];
    - [unsolved] is a [std::set<uint8_t>], iterated in ascending order,
      here a strictly ascending list of indices;
    - the function-local [static set<uint8_t> solved] of [reduceOptions]
      outlives every call and every instance: it is threaded explicitly
      through [reduceOptions], the propagation loop and [solve]. *)

From Stdlib Require Import ZArith List Ascii Bool Arith Lia.
From Stdlib Require String.
Import ListNotations.

Local Open Scope nat_scope.

(** ** Arrays and the ordered set *)

Fixpoint upd {A : Type} (l : list A) (i : nat) (v : A) : list A :=
  match l, i with
  | [], _ => []
  | _ :: t, O => v :: t
  | h :: t, S j => h :: upd t j v
  end.

Module USet.
(** [std::set<uint8_t>]: elements are kept in ascending order, without
    duplicates; [insert] and [erase] as in the standard library. *)
Definition t := list nat.

Definition empty : t := [].

Fixpoint insert (x : nat) (s : t) : t :=
  match s with
  | [] => [x]
  | y :: s' =>
      if x <? y then x :: s
      else if x =? y then s
      else y :: insert x s'
  end.

Fixpoint erase (x : nat) (s : t) : t :=
  match s with
  | [] => []
  | y :: s' => if x =? y then s' else y :: erase x s'
  end.

Definition is_empty (s : t) : bool :=
  match s with [] => true | _ => false end.
End USet.

(** ** The board *)

Definition Board := list (list ascii).

Definition dot : ascii := "."%char.

(** [board[y][x]] *)
Definition getCell (b : Board) (y x : nat) : ascii :=
  nth x (nth y b []) dot.

(** [board[y][x] = c] *)
Definition setCell (b : Board) (y x : nat) (c : ascii) : Board :=
  upd b y (upd (nth y b []) x c).

(** ** BoardMap *)

Record BoardMap := mkBoardMap {
  board : Board;
  unsolved : USet.t;
  squares : list Z;
  rows : list Z;
  columns : list Z;
  blocks : list Z
}.

Definition rowIndex (squareIndex : nat) : nat := squareIndex / 9.

Definition columnIndex (squareIndex : nat) : nat := squareIndex mod 9.

Definition blockIndex (squareIndex : nat) : nat :=
  columnIndex squareIndex / 3 + 3 * (rowIndex squareIndex / 3).

(** The square of a board at a flat index, [board[rowIndex i][columnIndex i]]. *)
Definition cell (b : Board) (i : nat) : ascii :=
  getCell b (rowIndex i) (columnIndex i).

Definition set_board (bm : BoardMap) (b : Board) : BoardMap :=
  mkBoardMap b (unsolved bm) (squares bm) (rows bm) (columns bm) (blocks bm).

Definition set_unsolved (bm : BoardMap) (u : USet.t) : BoardMap :=
  mkBoardMap (board bm) u (squares bm) (rows bm) (columns bm) (blocks bm).

Definition set_square (bm : BoardMap) (i : nat) (v : Z) : BoardMap :=
  mkBoardMap (board bm) (unsolved bm) (upd (squares bm) i v)
             (rows bm) (columns bm) (blocks bm).

(** Storing an [int] into a [uint16_t]. *)
Definition u16 (x : Z) : Z := (x mod 65536)%Z.

(** [squares[index] &= (~flags)]: both operands are promoted to [int],
    the complement is negative, and the conjunction lies between 0 and
    the old value, so that storing it back does not truncate. *)
Definition removePossibilities (bm : BoardMap) (index : nat) (flags : Z)
  : BoardMap :=
  set_square bm index (Z.land (nth index (squares bm) 0%Z) (Z.lnot flags)).

Fixpoint numPossibilities_loop (fuel : nat) (val : Z) (found : nat) : nat :=
  match fuel with
  | O => found
  | S fuel' =>
      if (0 <? val)%Z then
        let '(found1, val1) :=
          if (val mod 2 =? 1)%Z then (S found, (val - 1)%Z)
          else (found, val) in
        numPossibilities_loop fuel' (Z.shiftr val1 1) found1
      else found
  end.

(** The number of set bits of a [uint16_t]: the loop halves [val], so
    sixteen rounds exhaust it. *)
Definition countBits (val : Z) : nat := numPossibilities_loop 16 val 0.

Definition numPossibilities (bm : BoardMap) (index : nat) : nat :=
  countBits (nth index (squares bm) 0%Z).

Definition updateGroups (bm : BoardMap) (index : nat) : BoardMap :=
  let s := nth index (squares bm) 0%Z in
  mkBoardMap (board bm) (unsolved bm) (squares bm)
    (upd (rows bm) (rowIndex index)
         (Z.lor (nth (rowIndex index) (rows bm) 0%Z) s))
    (upd (columns bm) (columnIndex index)
         (Z.lor (nth (columnIndex index) (columns bm) 0%Z) s))
    (upd (blocks bm) (blockIndex index)
         (Z.lor (nth (blockIndex index) (blocks bm) 0%Z) s)).

Fixpoint toChar_loop (n i : nat) (bitmap : Z) : ascii :=
  match n with
  | O => dot
  | S n' =>
      if (bitmap =? Z.shiftl 1 (Z.of_nat i))%Z
      then ascii_of_nat (nat_of_ascii "1"%char + i)
      else toChar_loop n' (S i) bitmap
  end.

Definition toChar (bitmap : Z) : ascii := toChar_loop 9 0 bitmap.

(** [1 << (square - '1')], stored into a [uint16_t]. *)
Definition charBit (square : ascii) : Z :=
  u16 (Z.shiftl 1 (Z.of_nat (nat_of_ascii square)
                   - Z.of_nat (nat_of_ascii "1"%char))).

(** *** Constructor *)

(** The state before the loops: the group masks are zeroed by [memset],
    [squares] is not initialised (every entry is written by the loop on a
    9x9 board). *)
Definition blankBoardMap (b : Board) : BoardMap :=
  mkBoardMap b USet.empty (repeat 0%Z 81)
             (repeat 0%Z 9) (repeat 0%Z 9) (repeat 0%Z 9).

(** Body of the inner loop, with the running counter [i]. *)
Definition initSquare (acc : BoardMap * nat) (square : ascii)
  : BoardMap * nat :=
  let (bm, i) := acc in
  if Ascii.eqb square dot then
    (set_square (set_unsolved bm (USet.insert i (unsolved bm))) i 511%Z,
     S i)
  else
    (updateGroups (set_square bm i (charBit square)) i, S i).

Definition newBoardMap (b : Board) : BoardMap :=
  fst (fold_left (fun acc row => fold_left initSquare row acc)
                 b (blankBoardMap b, 0)).

(** *** reduceOptions *)

(** State of one pass: the instance, the static set [solved] and the
    counter [reduced] (a [uint8_t]). *)
Record PassState := mkPass {
  p_bm : BoardMap;
  p_solved : USet.t;
  p_reduced : nat
}.

(** Body of the first loop of [reduceOptions] for one [index]. *)
Definition reduceCell (ps : PassState) (index : nat) : PassState :=
  let bm := p_bm ps in
  let options := nth index (squares bm) 0%Z in
  let y := rowIndex index in
  let x := columnIndex index in
  let bm1 := removePossibilities bm index (nth y (rows bm) 0%Z) in
  let bm2 := removePossibilities bm1 index (nth x (columns bm1) 0%Z) in
  let bm3 :=
    removePossibilities bm2 index (nth (blockIndex index) (blocks bm2) 0%Z) in
  if (options =? nth index (squares bm3) 0%Z)%Z
  then mkPass bm3 (p_solved ps) (p_reduced ps)
  else
    let reduced := (S (p_reduced ps)) mod 256 in
    let solution := toChar (nth index (squares bm3) 0%Z) in
    if Ascii.eqb solution dot then mkPass bm3 (p_solved ps) reduced
    else
      let bm4 :=
        set_board bm3
          (setCell (board bm3) (rowIndex index) (columnIndex index) solution) in
      mkPass (updateGroups bm4 index) (USet.insert index (p_solved ps)) reduced.

(** [reduceOptions]: given the static set on entry, returns the counter,
    the static set on exit and the instance. *)
Definition reduceOptions (solved : USet.t) (bm : BoardMap)
  : nat * USet.t * BoardMap :=
  let ps := fold_left reduceCell (unsolved bm) (mkPass bm solved 0) in
  let bm' :=
    set_unsolved (p_bm ps)
      (fold_left (fun u index => USet.erase index u)
                 (p_solved ps) (unsolved (p_bm ps))) in
  (p_reduced ps, USet.empty, bm').

(** The [do ... while (updated > 0)] loop of [solve]. *)
Fixpoint propagate (fuel : nat) (solved : USet.t) (bm : BoardMap)
  : option (USet.t * BoardMap) :=
  match fuel with
  | O => None
  | S fuel' =>
      let '(updated, solved', bm') := reduceOptions solved bm in
      if 0 <? updated then propagate fuel' solved' bm'
      else Some (solved', bm')
  end.

(** *** solve *)

(** The scan of [unsolved] for the square to guess: [None] is the
    [return false] of the scan. *)
Fixpoint scanUnsolved (bm : BoardMap) (l : list nat)
         (fewestPossibilities guessIndex : nat) : option (nat * nat) :=
  match l with
  | [] => Some (fewestPossibilities, guessIndex)
  | index :: l' =>
      let options := numPossibilities bm index in
      if options =? 0 then None
      else if options <? fewestPossibilities
           then scanUnsolved bm l' options index
           else scanUnsolved bm l' fewestPossibilities guessIndex
  end.

Definition selectGuess (bm : BoardMap) : option nat :=
  match scanUnsolved bm (unsolved bm) 9 0 with
  | None => None
  | Some (_, guessIndex) => Some guessIndex
  end.

(** [guess = 1; while (guess < 9) { if (bit set) break; guess++; }] *)
Fixpoint firstGuess_loop (fuel : nat) (sq : Z) (guess : nat) : nat :=
  match fuel with
  | O => guess
  | S fuel' =>
      if guess <? 9 then
        if (0 <? Z.land sq (Z.shiftl 1 (Z.of_nat (guess - 1))))%Z
        then guess
        else firstGuess_loop fuel' sq (S guess)
      else guess
  end.

Definition firstGuess (bm : BoardMap) (guessIndex : nat) : nat :=
  firstGuess_loop 9 (nth guessIndex (squares bm) 0%Z) 1.

(** ['0' + guess] *)
Definition guessChar (guess : nat) : ascii :=
  ascii_of_nat (nat_of_ascii "0"%char + guess).

(** [boardCopy = board; boardCopy[y][x] = '0' + guess] *)
Definition boardCopy (bm : BoardMap) (guessIndex guess : nat) : Board :=
  setCell (board bm) (rowIndex guessIndex) (columnIndex guessIndex)
          (guessChar guess).

(** [squares[guessIndex] &= ~(1 << (guess - 1))] *)
Definition retract (bm : BoardMap) (guessIndex guess : nat) : BoardMap :=
  set_square bm guessIndex
    (Z.land (nth guessIndex (squares bm) 0%Z)
            (Z.lnot (Z.shiftl 1 (Z.of_nat (guess - 1))))).

(** What a call of [solve] leaves behind: the returned boolean, the
    instance (whose [board] is the vector bound at construction), the
    static set, and the guesses made, in order, as pairs
    (guessIndex, guess); the last is an observation of the run, not a
    variable of the program. *)
Record Outcome := mkOutcome {
  result : bool;
  final : BoardMap;
  static_solved : USet.t;
  guesses : list (nat * nat)
}.

Definition logGuesses (g : list (nat * nat)) (o : option Outcome)
  : option Outcome :=
  match o with
  | None => None
  | Some r =>
      Some (mkOutcome (result r) (final r) (static_solved r) (g ++ guesses r))
  end.

(** The [while (!unsolved.empty())] loop; [attempt] is the recursive
    [BoardMap copy(boardCopy); copy.solve()]. *)
Fixpoint search (attempt : USet.t -> Board -> option Outcome)
         (fuel : nat) (solved : USet.t) (bm : BoardMap) : option Outcome :=
  match fuel with
  | O => None
  | S fuel' =>
      if USet.is_empty (unsolved bm) then Some (mkOutcome true bm solved [])
      else
        match selectGuess bm with
        | None => Some (mkOutcome false bm solved [])
        | Some guessIndex =>
            let guess := firstGuess bm guessIndex in
            match attempt solved (boardCopy bm guessIndex guess) with
            | None => None
            | Some sub =>
                if result sub then
                  Some (mkOutcome true (set_board bm (board (final sub)))
                                  (static_solved sub)
                                  ((guessIndex, guess) :: guesses sub))
                else
                  logGuesses ((guessIndex, guess) :: guesses sub)
                    (search attempt fuel' (static_solved sub)
                            (retract bm guessIndex guess))
            end
        end
  end.

(** [BoardMap::solve], on an instance [bm]; [fuel] bounds the recursion
    depth and the number of rounds of each loop. *)
Fixpoint solve (fuel : nat) (solved : USet.t) (bm : BoardMap)
  : option Outcome :=
  match fuel with
  | O => None
  | S fuel' =>
      match propagate fuel' solved bm with
      | None => None
      | Some (solved', bm') =>
          search (fun s b => solve fuel' s (newBoardMap b)) fuel' solved' bm'
      end
  end.

(** [BoardMap boardMap(board); boardMap.solve()] as in [solveSudoku]. *)
Definition solveBoard (fuel : nat) (b : Board) : option Outcome :=
  solve fuel USet.empty (newBoardMap b).

(** * Properties *)

(** ** Arrays *)

Lemma length_upd {A} (l : list A) i v : length (upd l i v) = length l.
Proof.
  revert i; induction l as [|h t IH]; intros [|i]; simpl; auto.
Qed.

Lemma nth_upd_eq {A} (l : list A) i v d :
  i < length l -> nth i (upd l i v) d = v.
Proof.
  revert i; induction l as [|h t IH]; intros [|i] H; simpl in *;
    try lia; auto.
  apply IH; lia.
Qed.

Lemma nth_upd_neq {A} (l : list A) i j v d :
  i <> j -> nth j (upd l i v) d = nth j l d.
Proof.
  revert i j; induction l as [|h t IH]; intros [|i] [|j] H; simpl;
    try congruence; auto.
Qed.

Lemma upd_nth_id {A} (l : list A) i d : upd l i (nth i l d) = l.
Proof.
  revert i; induction l as [|h t IH]; intros [|i]; simpl; auto.
  now rewrite IH.
Qed.

(** ** The ordered set *)

Module USetFacts.
Import USet.

Fixpoint ascending (s : t) : Prop :=
  match s with
  | [] => True
  | x :: s' => (forall y, In y s' -> x < y) /\ ascending s'
  end.

Lemma In_insert x y s : In y (insert x s) <-> y = x \/ In y s.
Proof.
  induction s as [|z s IH]; simpl.
  - intuition.
  - destruct (Nat.ltb_spec x z); [simpl; intuition|].
    destruct (Nat.eqb_spec x z); simpl; [subst; intuition|].
    rewrite IH; intuition.
Qed.

Lemma insert_ascending x s : ascending s -> ascending (insert x s).
Proof.
  induction s as [|z s IH]; simpl; intros H.
  - split; [intros ? []|exact I].
  - destruct H as [Hz Hs].
    destruct (Nat.ltb_spec x z).
    + simpl; repeat split; auto.
      intros y [->|Hy]; auto. specialize (Hz y Hy); lia.
    + destruct (Nat.eqb_spec x z); simpl; [now split|].
      split; [|now apply IH].
      intros y Hy. apply In_insert in Hy. destruct Hy as [->|Hy]; auto. lia.
Qed.

Lemma In_erase x y s :
  ascending s -> (In y (erase x s) <-> In y s /\ y <> x).
Proof.
  induction s as [|z s IH]; simpl; intros H.
  - intuition.
  - destruct H as [Hz Hs].
    destruct (Nat.eqb_spec x z).
    + subst z. split.
      * intros Hy. split; auto. specialize (Hz y Hy); lia.
      * intros [[->|Hy] Hne]; [congruence|auto].
    + simpl. rewrite IH by auto. intuition; subst; congruence.
Qed.

Lemma erase_ascending x s : ascending s -> ascending (erase x s).
Proof.
  induction s as [|z s IH]; simpl; intros H; auto.
  destruct H as [Hz Hs].
  destruct (Nat.eqb_spec x z); auto.
  simpl; split; [|auto].
  intros y Hy. apply In_erase in Hy; auto. apply Hz, Hy.
Qed.

Lemma erase_all_ascending l s :
  ascending s -> ascending (fold_left (fun u i => erase i u) l s).
Proof.
  revert s; induction l as [|x l IH]; simpl; intros s H; auto.
  apply IH, erase_ascending, H.
Qed.

Lemma In_erase_all l y s :
  ascending s ->
  (In y (fold_left (fun u i => erase i u) l s) <-> In y s /\ ~ In y l).
Proof.
  revert s; induction l as [|x l IH]; simpl; intros s H.
  - intuition.
  - rewrite IH by now apply erase_ascending.
    rewrite In_erase by auto. intuition.
Qed.

Lemma ascending_NoDup s : ascending s -> NoDup s.
Proof.
  induction s as [|x s IH]; simpl; intros H; constructor.
  - intros Hx. destruct H as [H _]. specialize (H x Hx). lia.
  - apply IH, H.
Qed.

Lemma erase_not_In x s : ~ In x s -> erase x s = s.
Proof.
  induction s as [|z s IH]; simpl; intros H; auto.
  destruct (Nat.eqb_spec x z); [subst; intuition|].
  f_equal. apply IH. intuition.
Qed.

Lemma ascending_app_inv l1 x l2 :
  ascending (l1 ++ x :: l2) ->
  (forall y, In y l1 -> y < x) /\ (forall y, In y l2 -> x < y).
Proof.
  induction l1 as [|z l1 IH]; simpl.
  - intros [H _]. split; [intros ? []|exact H].
  - intros [Hz Hs]. destruct (IH Hs) as [H1 H2]. split; auto.
    intros y [->|Hy]; auto. apply Hz. apply in_or_app. right. now left.
Qed.
End USetFacts.

(** ** Symbols and bitmasks *)

(** The symbol of bit [k]: ['1' + k]. *)
Definition symbol (k : nat) : ascii := ascii_of_nat (49 + k).

(** [1 << k] *)
Definition bit (k : nat) : Z := Z.shiftl 1 (Z.of_nat k).

(** Bit [k] of a mask. *)
Definition has (m : Z) (k : nat) : bool := Z.testbit m (Z.of_nat k).

(** A nine-bit mask. *)
Definition is_mask (m : Z) : Prop := (0 <= m < 512)%Z.

(** [a] has no bit that [b] lacks. *)
Definition shrinks (a b : Z) : Prop :=
  forall j : Z, Z.testbit a j = true -> Z.testbit b j = true.

Lemma nat_lt9_cases (P : nat -> Prop) :
  P 0 -> P 1 -> P 2 -> P 3 -> P 4 -> P 5 -> P 6 -> P 7 -> P 8 ->
  forall k, k < 9 -> P k.
Proof.
  intros. do 9 (destruct k as [|k]; [assumption|]). lia.
Qed.

Lemma symbol_neq_dot k : k < 9 -> symbol k <> dot.
Proof. revert k. apply nat_lt9_cases; discriminate. Qed.

Lemma symbol_inj k k' : k < 9 -> k' < 9 -> symbol k = symbol k' -> k = k'.
Proof.
  intros Hk Hk' H. unfold symbol in H.
  apply (f_equal nat_of_ascii) in H.
  rewrite !nat_ascii_embedding in H by lia. lia.
Qed.

Lemma charBit_symbol k : k < 9 -> charBit (symbol k) = bit k.
Proof. revert k. apply nat_lt9_cases; reflexivity. Qed.

Lemma guessChar_symbol g : guessChar (S g) = symbol g.
Proof. unfold guessChar, symbol; simpl; f_equal; lia. Qed.

Lemma bit_pow2 k : bit k = (2 ^ Z.of_nat k)%Z.
Proof. unfold bit. apply Z.shiftl_1_l. Qed.

Lemma has_bit k j : has (bit k) j = (k =? j).
Proof.
  unfold has. rewrite bit_pow2, Z.pow2_bits_eqb by lia.
  destruct (Nat.eqb_spec k j); [subst; apply Z.eqb_refl|].
  apply Z.eqb_neq. lia.
Qed.

Lemma is_mask_iff m : is_mask m <-> Z.land m 511 = m.
Proof.
  change 511%Z with (Z.ones 9). rewrite Z.land_ones by lia.
  change (2 ^ 9)%Z with 512%Z. unfold is_mask. split.
  - intros H. now apply Z.mod_small.
  - intros <-. apply Z.mod_pos_bound. lia.
Qed.

Lemma is_mask_land a x : is_mask a -> is_mask (Z.land a x).
Proof.
  rewrite !is_mask_iff. intros H.
  rewrite <- Z.land_assoc, (Z.land_comm x), Z.land_assoc. now rewrite H.
Qed.

Lemma is_mask_lor a b : is_mask a -> is_mask b -> is_mask (Z.lor a b).
Proof.
  rewrite !is_mask_iff. intros Ha Hb.
  rewrite Z.land_lor_distr_l. now rewrite Ha, Hb.
Qed.

Lemma is_mask_bit k : k < 9 -> is_mask (bit k).
Proof.
  revert k. apply nat_lt9_cases;
    (split; [apply Z.leb_le|apply Z.ltb_lt]; reflexivity).
Qed.

Lemma is_mask_511 : is_mask 511.
Proof. unfold is_mask; lia. Qed.

Lemma is_mask_0 : is_mask 0.
Proof. unfold is_mask; lia. Qed.

Lemma has_land a b k : has (Z.land a b) k = has a k && has b k.
Proof. apply Z.land_spec. Qed.

Lemma has_lor a b k : has (Z.lor a b) k = has a k || has b k.
Proof. apply Z.lor_spec. Qed.

Lemma has_lnot a k : has (Z.lnot a) k = negb (has a k).
Proof. unfold has. apply Z.lnot_spec. lia. Qed.

Lemma has_511 k : k < 9 -> has 511 k = true.
Proof. revert k. apply nat_lt9_cases; reflexivity. Qed.

Lemma has_0 k : has 0 k = false.
Proof. apply Z.bits_0. Qed.

Lemma mask_high_bits m j : is_mask m -> (9 <= j)%Z -> Z.testbit m j = false.
Proof.
  intros Hm Hj. apply is_mask_iff in Hm. rewrite <- Hm.
  rewrite Z.land_spec. change 511%Z with (Z.ones 9).
  rewrite Z.testbit_ones by lia.
  destruct (Z.ltb_spec j 9); [lia|].
  now rewrite !andb_false_r.
Qed.

Lemma mask_ext a b :
  is_mask a -> is_mask b -> (forall k, k < 9 -> has a k = has b k) -> a = b.
Proof.
  intros Ha Hb H. apply Z.bits_inj'. intros j Hj.
  destruct (Z.lt_ge_cases j 9) as [Hlt|Hge].
  - specialize (H (Z.to_nat j)). unfold has in H.
    rewrite Z2Nat.id in H by lia. apply H. lia.
  - now rewrite !mask_high_bits.
Qed.

Lemma shrinks_refl a : shrinks a a.
Proof. intros j H; exact H. Qed.

Lemma shrinks_trans a b c : shrinks a b -> shrinks b c -> shrinks a c.
Proof. intros H1 H2 j H. auto. Qed.

Lemma shrinks_land a x : shrinks (Z.land a x) a.
Proof.
  intros j H. rewrite Z.land_spec in H. now apply andb_true_iff in H.
Qed.

Lemma shrinks_land_eq a b : shrinks a b -> Z.land a b = a.
Proof.
  intros H. apply Z.bits_inj'. intros j _. rewrite Z.land_spec.
  destruct (Z.testbit a j) eqn:E; [|reflexivity].
  now rewrite (H j E).
Qed.

(** Checking a property of all nine-bit masks by enumeration. *)
Lemma mask_forall (P : Z -> bool) :
  forallb P (map Z.of_nat (seq 0 512)) = true ->
  forall m, is_mask m -> P m = true.
Proof.
  intros H m Hm. rewrite forallb_forall in H. apply H.
  apply in_map_iff. exists (Z.to_nat m). unfold is_mask in Hm. split.
  - apply Z2Nat.id; lia.
  - apply in_seq. lia.
Qed.

Lemma mask_forall2 (P : Z -> Z -> bool) :
  (let ms := map Z.of_nat (seq 0 512) in
   forallb (fun a => forallb (P a) ms) ms) = true ->
  forall a b, is_mask a -> is_mask b -> P a b = true.
Proof.
  intros H a b Ha Hb. cbv zeta in H.
  exact (mask_forall _
           (mask_forall (fun a => forallb (P a) (map Z.of_nat (seq 0 512)))
                        H a Ha) b Hb).
Qed.

Lemma countBits_le9 m : is_mask m -> countBits m <= 9.
Proof.
  intros H. apply Nat.leb_le.
  revert m H. apply mask_forall. vm_compute. reflexivity.
Qed.

Lemma countBits_0 m : is_mask m -> (countBits m = 0 <-> m = 0%Z).
Proof.
  intros H. rewrite <- Nat.eqb_eq, <- Z.eqb_eq.
  assert (E : Bool.eqb (countBits m =? 0) (m =? 0)%Z = true).
  { revert m H. apply mask_forall. vm_compute. reflexivity. }
  apply Bool.eqb_prop in E. now rewrite E.
Qed.

Lemma countBits_9 m : is_mask m -> countBits m = 9 -> m = 511%Z.
Proof.
  intros H. rewrite <- Nat.eqb_eq, <- Z.eqb_eq.
  assert (E : Bool.eqb (countBits m =? 9) (m =? 511)%Z = true).
  { revert m H. apply mask_forall. vm_compute. reflexivity. }
  apply Bool.eqb_prop in E. now rewrite E.
Qed.

Lemma countBits_1_toChar m :
  is_mask m -> (countBits m = 1 <-> toChar m <> dot).
Proof.
  intros H.
  assert (E : Bool.eqb (countBits m =? 1)
                       (negb (Ascii.eqb (toChar m) dot)) = true).
  { revert m H. apply mask_forall. vm_compute. reflexivity. }
  apply Bool.eqb_prop in E. rewrite <- Nat.eqb_eq, E.
  destruct (Ascii.eqb_spec (toChar m) dot); simpl; intuition congruence.
Qed.

Lemma countBits_shrinks a b :
  is_mask a -> is_mask b -> shrinks a b ->
  countBits a <= countBits b /\ (a <> b -> countBits a < countBits b).
Proof.
  intros Ha Hb Hs. apply shrinks_land_eq in Hs.
  assert (E : (if (Z.land a b =? a)%Z
               then (countBits a <=? countBits b)
                    && ((a =? b)%Z || (countBits a <? countBits b))
               else true) = true).
  { clear Hs. revert a b Ha Hb.
    apply mask_forall2. vm_compute. reflexivity. }
  rewrite Hs, Z.eqb_refl in E.
  apply andb_true_iff in E. destruct E as [E1 E2].
  apply Nat.leb_le in E1. split; auto.
  intros Hne. apply orb_true_iff in E2. destruct E2 as [E2|E2].
  - apply Z.eqb_eq in E2. congruence.
  - now apply Nat.ltb_lt.
Qed.

Lemma toChar_loop_spec n i m :
  toChar_loop n i m <> dot ->
  exists k, i <= k < i + n /\ m = bit k /\ toChar_loop n i m = symbol k.
Proof.
  revert i; induction n as [|n IH]; simpl; intros i H; [congruence|].
  destruct (Z.eqb_spec m (Z.shiftl 1 (Z.of_nat i))) as [E|E].
  - exists i. repeat split; auto; lia.
  - destruct (IH (S i) H) as (k & Hk & Hm & Hc).
    exists k. repeat split; auto; lia.
Qed.

Lemma toChar_spec m :
  toChar m <> dot -> exists k, k < 9 /\ m = bit k /\ toChar m = symbol k.
Proof.
  intros H. destruct (toChar_loop_spec 9 0 m H) as (k & Hk & Hm & Hc).
  exists k. repeat split; auto; lia.
Qed.

Lemma toChar_bit k : k < 9 -> toChar (bit k) = symbol k.
Proof. revert k. apply nat_lt9_cases; reflexivity. Qed.

Lemma countBits_bit k : k < 9 -> countBits (bit k) = 1.
Proof. revert k. apply nat_lt9_cases; reflexivity. Qed.

(** From here on [countBits] is used through the lemmas above only. *)
Opaque countBits.

(** The guess loop on a non-empty mask stops at its lowest set bit. *)
Lemma firstGuess_loop_spec m :
  is_mask m -> m <> 0%Z ->
  exists g, firstGuess_loop 9 m 1 = S g /\ g < 9 /\ has m g = true /\
            forall j, j < g -> has m j = false.
Proof.
  intros Hm Hne.
  assert (E : (if (m =? 0)%Z then true
               else let g := firstGuess_loop 9 m 1 - 1 in
                    (firstGuess_loop 9 m 1 =? S g) && (g <? 9) && has m g
                    && forallb (fun j => negb (has m j)) (seq 0 g)) = true).
  { revert m Hm Hne. intros m Hm _. revert m Hm.
    apply mask_forall. vm_compute. reflexivity. }
  destruct (Z.eqb_spec m 0); [congruence|].
  cbv zeta in E. set (g := firstGuess_loop 9 m 1 - 1) in *.
  repeat (apply andb_true_iff in E; destruct E as [E ?]).
  exists g. repeat split.
  - now apply Nat.eqb_eq.
  - now apply Nat.ltb_lt.
  - assumption.
  - intros j Hj. rewrite forallb_forall in H.
    apply negb_true_iff, H, in_seq. lia.
Qed.

(** ** Board geometry *)

Definition wf_board (b : Board) : Prop :=
  length b = 9 /\ forall y, y < 9 -> length (nth y b []) = 9.

(** A 9x9 board whose squares are ['1']-['9'] or ['.']. *)
Definition valid_board (b : Board) : Prop :=
  wf_board b /\
  forall i, i < 81 -> cell b i = dot \/ exists k, k < 9 /\ cell b i = symbol k.

Definition is_symbolb (c : ascii) : bool :=
  existsb (fun k => Ascii.eqb c (symbol k)) (seq 0 9).

Definition valid_boardb (b : Board) : bool :=
  (length b =? 9)
  && forallb (fun r => length r =? 9) b
  && forallb (forallb (fun c => Ascii.eqb c dot || is_symbolb c)) b.

Lemma rowIndex_lt i : i < 81 -> rowIndex i < 9.
Proof. intros H. unfold rowIndex. apply Nat.Div0.div_lt_upper_bound. lia. Qed.

Lemma columnIndex_lt i : columnIndex i < 9.
Proof. unfold columnIndex. apply Nat.mod_upper_bound. lia. Qed.

Lemma blockIndex_lt i : i < 81 -> blockIndex i < 9.
Proof.
  intros H. unfold blockIndex.
  pose proof (rowIndex_lt i H). pose proof (columnIndex_lt i).
  assert (columnIndex i / 3 < 3) by (apply Nat.Div0.div_lt_upper_bound; lia).
  assert (rowIndex i / 3 < 3) by (apply Nat.Div0.div_lt_upper_bound; lia).
  lia.
Qed.

Lemma index_inj i j :
  rowIndex i = rowIndex j -> columnIndex i = columnIndex j -> i = j.
Proof.
  unfold rowIndex, columnIndex. intros H1 H2.
  rewrite (Nat.div_mod_eq i 9), (Nat.div_mod_eq j 9). congruence.
Qed.

Lemma wf_setCell b y x c : wf_board b -> wf_board (setCell b y x c).
Proof.
  intros [H1 H2]. unfold setCell. split.
  - now rewrite length_upd.
  - intros y' Hy'. destruct (Nat.eq_dec y y') as [->|Hne].
    + rewrite nth_upd_eq by lia. rewrite length_upd. auto.
    + rewrite nth_upd_neq by auto. auto.
Qed.

Lemma cell_setCell_eq b i c :
  wf_board b -> i < 81 ->
  cell (setCell b (rowIndex i) (columnIndex i) c) i = c.
Proof.
  intros [H1 H2] Hi. unfold cell, getCell, setCell.
  pose proof (rowIndex_lt i Hi). pose proof (columnIndex_lt i).
  rewrite nth_upd_eq by lia. apply nth_upd_eq. rewrite H2; auto.
Qed.

Lemma cell_setCell_neq b i j c :
  wf_board b -> i < 81 -> i <> j ->
  cell (setCell b (rowIndex i) (columnIndex i) c) j = cell b j.
Proof.
  intros [H1 H2] Hi Hne. unfold cell, getCell, setCell.
  pose proof (rowIndex_lt i Hi).
  destruct (Nat.eq_dec (rowIndex i) (rowIndex j)) as [E|E].
  - rewrite <- E. rewrite nth_upd_eq by lia.
    apply nth_upd_neq. intros E'. apply Hne. now apply index_inj.
  - now rewrite nth_upd_neq.
Qed.

Lemma valid_boardb_spec b : valid_boardb b = true -> valid_board b.
Proof.
  unfold valid_boardb. intros H.
  apply andb_true_iff in H. destruct H as [H H3].
  apply andb_true_iff in H. destruct H as [H1 H2].
  apply Nat.eqb_eq in H1. rewrite forallb_forall in H2, H3.
  assert (Hwf : wf_board b).
  { split; auto. intros y Hy. apply Nat.eqb_eq, H2, nth_In. lia. }
  split; auto. intros i Hi. destruct Hwf as [_ Hlen].
  pose proof (rowIndex_lt i Hi) as Hr. pose proof (columnIndex_lt i) as Hc.
  assert (Hin : In (nth (rowIndex i) b []) b) by (apply nth_In; lia).
  specialize (H3 _ Hin). rewrite forallb_forall in H3.
  assert (Hin' : In (cell b i) (nth (rowIndex i) b [])).
  { unfold cell, getCell. apply nth_In. rewrite Hlen; auto. }
  specialize (H3 _ Hin'). apply orb_true_iff in H3. destruct H3 as [E|E].
  - left. now apply Ascii.eqb_eq.
  - right. unfold is_symbolb in E. apply existsb_exists in E.
    destruct E as (k & Hk & E). apply in_seq in Hk. apply Ascii.eqb_eq in E.
    exists k. split; [lia|auto].
Qed.

Lemma valid_setCell b i k :
  valid_board b -> i < 81 -> k < 9 ->
  valid_board (setCell b (rowIndex i) (columnIndex i) (symbol k)).
Proof.
  intros [Hwf Hv] Hi Hk. split; [now apply wf_setCell|].
  intros j Hj. destruct (Nat.eq_dec i j) as [<-|Hne].
  - rewrite cell_setCell_eq by auto. right. now exists k.
  - rewrite cell_setCell_neq by auto. auto.
Qed.

(** ** The bookkeeping invariant *)

Import USetFacts.

(** Symbol [k] occurs in group [g] (under the grouping [gidx]) among the
    first [n] squares of [f]. *)
Definition occurs (f : nat -> ascii) (n : nat) (gidx : nat -> nat)
           (g k : nat) : Prop :=
  exists i, i < n /\ gidx i = g /\ f i = symbol k.

(** A group mask array holds exactly the symbols placed in each group. *)
Definition group_spec (f : nat -> ascii) (n : nat) (gidx : nat -> nat)
           (masks : list Z) : Prop :=
  length masks = 9 /\
  forall g, g < 9 ->
    is_mask (nth g masks 0%Z) /\
    forall k, k < 9 ->
      (has (nth g masks 0%Z) k = true <-> occurs f n gidx g k).

(** The relation between the board and the tables of an instance, after
    the first [n] squares have been set up; [S] is the static set of
    squares solved during the current pass and not yet erased. *)
Record InvN (n : nat) (S : list nat) (bm : BoardMap) : Prop := mkInvN {
  inv_wf : wf_board (board bm);
  inv_len : length (squares bm) = 81;
  inv_asc : ascending (unsolved bm);
  inv_bound : forall i, In i (unsolved bm) -> i < n;
  inv_dot : forall i, i < n ->
      (cell (board bm) i = dot <-> In i (unsolved bm) /\ ~ In i S);
  inv_mask : forall i, i < n -> is_mask (nth i (squares bm) 0%Z);
  inv_sym : forall i, i < n -> cell (board bm) i <> dot ->
      exists k, k < 9 /\ cell (board bm) i = symbol k /\
                nth i (squares bm) 0%Z = bit k;
  inv_rows : group_spec (cell (board bm)) n rowIndex (rows bm);
  inv_columns : group_spec (cell (board bm)) n columnIndex (columns bm);
  inv_blocks : group_spec (cell (board bm)) n blockIndex (blocks bm)
}.

Definition Inv := InvN 81.

Lemma group_spec_same f f' n n' gidx masks :
  group_spec f n gidx masks ->
  (forall g k, k < 9 -> (occurs f' n' gidx g k <-> occurs f n gidx g k)) ->
  group_spec f' n' gidx masks.
Proof.
  intros [Hl H] Heq. split; auto. intros g Hg.
  destruct (H g Hg) as [Hm Hk]. split; auto.
  intros k Hk9. rewrite Heq by auto. auto.
Qed.

Lemma group_spec_add f f' n n' gidx masks g0 k0 :
  group_spec f n gidx masks -> g0 < 9 -> k0 < 9 ->
  (forall g k, k < 9 ->
     (occurs f' n' gidx g k <-> occurs f n gidx g k \/ (g = g0 /\ k = k0))) ->
  group_spec f' n' gidx
             (upd masks g0 (Z.lor (nth g0 masks 0%Z) (bit k0))).
Proof.
  intros [Hl H] Hg0 Hk0 Heq. split; [now rewrite length_upd|].
  intros g Hg. destruct (Nat.eq_dec g0 g) as [<-|Hne].
  - rewrite nth_upd_eq by lia. destruct (H g0 Hg) as [Hm Hk]. split.
    + apply is_mask_lor; auto. now apply is_mask_bit.
    + intros k Hk9. rewrite has_lor, has_bit, orb_true_iff, Heq by auto.
      rewrite (Hk k Hk9), Nat.eqb_eq. intuition congruence.
  - rewrite nth_upd_neq by auto. destruct (H g Hg) as [Hm Hk]. split; auto.
    intros k Hk9. rewrite Heq, (Hk k Hk9) by auto. intuition congruence.
Qed.

Lemma updateGroups_set bm n v :
  n < length (squares bm) ->
  updateGroups (set_square bm n v) n =
  mkBoardMap (board bm) (unsolved bm) (upd (squares bm) n v)
    (upd (rows bm) (rowIndex n)
         (Z.lor (nth (rowIndex n) (rows bm) 0%Z) v))
    (upd (columns bm) (columnIndex n)
         (Z.lor (nth (columnIndex n) (columns bm) 0%Z) v))
    (upd (blocks bm) (blockIndex n)
         (Z.lor (nth (blockIndex n) (blocks bm) 0%Z) v)).
Proof.
  intros H. unfold updateGroups, set_square. simpl.
  now rewrite nth_upd_eq.
Qed.

(** *** The constructor establishes the invariant *)

Lemma fold_left_concat {A B} (f : A -> B -> A) (ll : list (list B)) a :
  fold_left (fun acc l => fold_left f l acc) ll a =
  fold_left f (concat ll) a.
Proof.
  revert a; induction ll as [|l ll IH]; simpl; intros a; auto.
  now rewrite fold_left_app, IH.
Qed.

Lemma firstn_snoc {A} (l : list A) n d :
  n < length l -> firstn (S n) l = firstn n l ++ [nth n l d].
Proof.
  revert n; induction l as [|x l IH]; intros [|n] H; simpl in *;
    try lia; auto.
  f_equal. apply IH. lia.
Qed.

Lemma length_concat_9 (b : Board) :
  (forall r, In r b -> length r = 9) -> length (concat b) = 9 * length b.
Proof.
  induction b as [|r b IH]; simpl; intros H; auto.
  rewrite length_app, IH, (H r) by auto. lia.
Qed.

Lemma nth_concat_9 (b : Board) i :
  (forall r, In r b -> length r = 9) -> i < 9 * length b ->
  nth i (concat b) dot = nth (i mod 9) (nth (i / 9) b []) dot.
Proof.
  revert i; induction b as [|r b IH]; intros i H Hi; [simpl in Hi; lia|].
  assert (Hr : length r = 9) by (apply H; now left).
  cbn [concat]. cbn [length] in Hi.
  destruct (Nat.lt_ge_cases i 9) as [Hlt|Hge].
  - rewrite app_nth1 by lia.
    now rewrite Nat.div_small, Nat.mod_small by lia.
  - rewrite app_nth2 by lia. rewrite Hr.
    rewrite IH by (try (intros; apply H; now right); lia).
    assert (E1 : i mod 9 = (i - 9) mod 9).
    { replace i with ((i - 9) + 1 * 9) at 1 by lia.
      now rewrite Nat.Div0.mod_add. }
    assert (E2 : i / 9 = S ((i - 9) / 9)).
    { replace i with ((i - 9) + 1 * 9) at 1 by lia.
      rewrite Nat.div_add by lia. lia. }
    now rewrite E1, E2.
Qed.

Lemma wf_board_rows b : wf_board b -> forall r, In r b -> length r = 9.
Proof.
  intros [H1 H2] r Hr. destruct (In_nth _ _ [] Hr) as (y & Hy & <-).
  apply H2. lia.
Qed.

Lemma nth_concat_cell b i :
  wf_board b -> i < 81 -> nth i (concat b) dot = cell b i.
Proof.
  intros Hwf Hi. pose proof (wf_board_rows b Hwf) as Hr.
  destruct Hwf as [H1 H2]. rewrite nth_concat_9; auto. lia.
Qed.

(** The tables after the first [n] squares of the board were visited. *)
Definition initUpTo (b : Board) (n : nat) : BoardMap * nat :=
  fold_left initSquare (firstn n (concat b)) (blankBoardMap b, 0).

Lemma initUpTo_S b n :
  wf_board b -> n < 81 ->
  initUpTo b (S n) = initSquare (initUpTo b n) (cell b n).
Proof.
  intros Hwf Hn. unfold initUpTo.
  rewrite (firstn_snoc _ n dot).
  - rewrite fold_left_app. simpl. now rewrite nth_concat_cell.
  - rewrite length_concat_9 by now apply wf_board_rows.
    destruct Hwf as [-> _]. lia.
Qed.

Lemma initUpTo_all b : wf_board b -> newBoardMap b = fst (initUpTo b 81).
Proof.
  intros Hwf. unfold newBoardMap, initUpTo.
  rewrite fold_left_concat. rewrite firstn_all2; auto.
  rewrite length_concat_9 by now apply wf_board_rows.
  destruct Hwf as [-> _]. lia.
Qed.

Lemma occurs_add f f' n n' gidx i0 k0 :
  i0 < n' -> f' i0 = symbol k0 -> k0 < 9 ->
  (forall i, i < n' -> i <> i0 -> i < n /\ f' i = f i) ->
  (forall i, i < n -> i <> i0 -> i < n') ->
  (i0 < n -> forall k, k < 9 -> f i0 <> symbol k) ->
  forall g k, k < 9 ->
    (occurs f' n' gidx g k <->
     occurs f n gidx g k \/ (g = gidx i0 /\ k = k0)).
Proof.
  intros Hi0 Hf' Hk0 Hold Hnew Hfree g k Hk. split.
  - intros (i & Hi & Hg & Hs). destruct (Nat.eq_dec i i0) as [->|Hne].
    + right. split; auto. rewrite Hf' in Hs. now apply symbol_inj.
    + left. destruct (Hold i Hi Hne) as [Hin Heq].
      exists i. rewrite <- Heq. auto.
  - intros [(i & Hi & Hg & Hs)|[-> ->]].
    + assert (Hne : i <> i0).
      { intros ->. now apply (Hfree Hi k Hk). }
      destruct (Hold i (Hnew i Hi Hne) Hne) as [_ Heq].
      exists i. rewrite Heq. auto.
    + exists i0. auto.
Qed.

Lemma occurs_skip f n gidx :
  (forall k, k < 9 -> f n <> symbol k) ->
  forall g k, k < 9 -> (occurs f (S n) gidx g k <-> occurs f n gidx g k).
Proof.
  intros Hfree g k Hk. split; intros (i & Hi & Hg & Hs).
  - destruct (Nat.eq_dec i n) as [->|Hne].
    + now destruct (Hfree k Hk).
    + exists i. repeat split; auto. lia.
  - exists i. repeat split; auto.
Qed.

Lemma nth_repeat_0 g n : nth g (repeat 0%Z n) 0%Z = 0%Z.
Proof.
  revert g; induction n as [|n IH]; intros [|g]; simpl; auto.
Qed.

Lemma group_spec_blank f gidx : group_spec f 0 gidx (repeat 0%Z 9).
Proof.
  split; [reflexivity|]. intros g Hg. rewrite nth_repeat_0. split.
  - apply is_mask_0.
  - intros k Hk. rewrite has_0. split; [discriminate|].
    intros (i & Hi & _). lia.
Qed.

Lemma InvN_blank b : wf_board b -> InvN 0 [] (blankBoardMap b).
Proof.
  intros Hwf. constructor; simpl; auto; try (intros; lia);
    apply group_spec_blank.
Qed.

Lemma initSquare_inv b bm n :
  valid_board b -> n < 81 -> board bm = b -> InvN n [] bm ->
  (forall i, i < n -> cell b i = dot -> nth i (squares bm) 0%Z = 511%Z) ->
  let s := initSquare (bm, n) (cell b n) in
  snd s = S n /\ board (fst s) = b /\ InvN (S n) [] (fst s) /\
  (forall i, i < S n -> cell b i = dot ->
             nth i (squares (fst s)) 0%Z = 511%Z).
Proof.
  intros [Hwf Hval] Hn Hb HI H511. subst b.
  destruct HI as [Iwf Ilen Iasc Ibound Idot Imask Isym Irows Icols Iblocks].
  unfold initSquare. destruct (Ascii.eqb_spec (cell (board bm) n) dot) as [E|E].
  - (* an empty square *)
    assert (Hskip : forall gidx g k, k < 9 ->
              (occurs (cell (board bm)) (S n) gidx g k <->
               occurs (cell (board bm)) n gidx g k)).
    { intros gidx. apply occurs_skip. intros k' Hk'. rewrite E. intros H.
      symmetry in H. now apply symbol_neq_dot in H. }
    cbn [fst snd]. split; [reflexivity|]. split; [reflexivity|]. split.
    + constructor; cbn [board unsolved squares rows columns blocks
                        set_square set_unsolved]; auto.
      * now rewrite length_upd.
      * now apply insert_ascending.
      * intros i Hi. apply In_insert in Hi. destruct Hi as [->|Hi]; auto.
        specialize (Ibound i Hi). lia.
      * intros i Hi. rewrite In_insert. split.
        -- intros Hd. split; [|intros []].
           destruct (Nat.eq_dec i n); auto.
           right. apply Idot; auto. lia.
        -- intros [[->|Hi'] _]; auto. apply Idot; auto.
      * intros i Hi. destruct (Nat.eq_dec n i) as [<-|Hne].
        -- rewrite nth_upd_eq by lia. apply is_mask_511.
        -- rewrite nth_upd_neq by auto. apply Imask. lia.
      * intros i Hi Hd. destruct (Nat.eq_dec n i) as [<-|Hne]; [congruence|].
        rewrite nth_upd_neq by auto. apply Isym; auto. lia.
      * eapply group_spec_same; eauto.
      * eapply group_spec_same; eauto.
      * eapply group_spec_same; eauto.
    + cbn [board unsolved squares rows columns blocks
                        set_square set_unsolved].
      intros i Hi Hd. destruct (Nat.eq_dec n i) as [<-|Hne].
      * now rewrite nth_upd_eq by lia.
      * rewrite nth_upd_neq by auto. apply H511; auto. lia.
  - (* a given symbol *)
    destruct (Hval n Hn) as [Hd|(k0 & Hk0 & Hs)]; [congruence|].
    rewrite updateGroups_set by lia. rewrite Hs, charBit_symbol by auto.
    assert (Hadd : forall gidx g k, k < 9 ->
              (occurs (cell (board bm)) (S n) gidx g k <->
               occurs (cell (board bm)) n gidx g k
               \/ (g = gidx n /\ k = k0))).
    { intros gidx. apply occurs_add; auto; try lia.
      intros i Hi Hne. split; auto. lia. }
    cbn [fst snd]. split; [reflexivity|]. split; [reflexivity|]. split.
    + constructor; cbn [board unsolved squares rows columns blocks]; auto.
      * now rewrite length_upd.
      * intros i Hi. specialize (Ibound i Hi). lia.
      * intros i Hi. split.
        -- intros Hd. destruct (Nat.eq_dec i n) as [->|Hne]; [congruence|].
           apply Idot; auto. lia.
        -- intros [Hi' Hni]. apply Idot; auto.
      * intros i Hi. destruct (Nat.eq_dec n i) as [<-|Hne].
        -- rewrite nth_upd_eq by lia. now apply is_mask_bit.
        -- rewrite nth_upd_neq by auto. apply Imask. lia.
      * intros i Hi Hd. destruct (Nat.eq_dec n i) as [<-|Hne].
        -- exists k0. rewrite nth_upd_eq by lia. auto.
        -- rewrite nth_upd_neq by auto. apply Isym; auto. lia.
      * eapply group_spec_add; eauto. now apply rowIndex_lt.
      * eapply group_spec_add; eauto. apply columnIndex_lt.
      * eapply group_spec_add; eauto. now apply blockIndex_lt.
    + cbn [board unsolved squares rows columns blocks].
      intros i Hi Hd. destruct (Nat.eq_dec n i) as [<-|Hne]; [congruence|].
      rewrite nth_upd_neq by auto. apply H511; auto. lia.
Qed.

Lemma initUpTo_inv b n :
  valid_board b -> n <= 81 ->
  snd (initUpTo b n) = n /\ board (fst (initUpTo b n)) = b /\
  InvN n [] (fst (initUpTo b n)) /\
  (forall i, i < n -> cell b i = dot ->
             nth i (squares (fst (initUpTo b n))) 0%Z = 511%Z).
Proof.
  intros Hv. induction n as [|n IH]; intros Hn.
  - unfold initUpTo. simpl.
    split; [reflexivity|]. split; [reflexivity|].
    split; [apply InvN_blank, Hv|intros; lia].
  - destruct IH as (H1 & H2 & H3 & H4); [lia|].
    rewrite initUpTo_S by (try apply Hv; lia).
    destruct (initUpTo b n) as [bm m]. simpl in H1, H2, H3, H4. subst m.
    now apply initSquare_inv.
Qed.

Lemma newBoardMap_inv b : valid_board b -> Inv [] (newBoardMap b).
Proof.
  intros Hv. rewrite initUpTo_all by apply Hv.
  now apply initUpTo_inv.
Qed.

Lemma newBoardMap_board b : valid_board b -> board (newBoardMap b) = b.
Proof.
  intros Hv. rewrite initUpTo_all by apply Hv.
  now apply initUpTo_inv.
Qed.

Lemma newBoardMap_511 b i :
  valid_board b -> i < 81 -> cell b i = dot ->
  nth i (squares (newBoardMap b)) 0%Z = 511%Z.
Proof.
  intros Hv. rewrite initUpTo_all by apply Hv.
  now apply initUpTo_inv.
Qed.

(** ** One step of a reduceOptions pass *)

(** The mask of square [index] after the three [removePossibilities]. *)
Definition reducedMask (bm : BoardMap) (index : nat) : Z :=
  Z.land
    (Z.land
       (Z.land (nth index (squares bm) 0%Z)
               (Z.lnot (nth (rowIndex index) (rows bm) 0%Z)))
       (Z.lnot (nth (columnIndex index) (columns bm) 0%Z)))
    (Z.lnot (nth (blockIndex index) (blocks bm) 0%Z)).

(** The instance after square [index] was reduced to the single bit [k]
    and committed: symbol written, group masks updated. *)
Definition commit (bm : BoardMap) (index k : nat) : BoardMap :=
  mkBoardMap
    (setCell (board bm) (rowIndex index) (columnIndex index) (symbol k))
    (unsolved bm)
    (upd (squares bm) index (bit k))
    (upd (rows bm) (rowIndex index)
         (Z.lor (nth (rowIndex index) (rows bm) 0%Z) (bit k)))
    (upd (columns bm) (columnIndex index)
         (Z.lor (nth (columnIndex index) (columns bm) 0%Z) (bit k)))
    (upd (blocks bm) (blockIndex index)
         (Z.lor (nth (blockIndex index) (blocks bm) 0%Z) (bit k))).

Lemma upd_upd {A} (l : list A) i a b : upd (upd l i a) i b = upd l i b.
Proof.
  revert i; induction l as [|h t IH]; intros [|i]; simpl; auto.
  now rewrite IH.
Qed.

Lemma set_square_id bm i : set_square bm i (nth i (squares bm) 0%Z) = bm.
Proof. destruct bm. unfold set_square. simpl. now rewrite upd_nth_id. Qed.

Lemma has_reducedMask bm index k :
  has (reducedMask bm index) k =
  has (nth index (squares bm) 0%Z) k
  && negb (has (nth (rowIndex index) (rows bm) 0%Z) k)
  && negb (has (nth (columnIndex index) (columns bm) 0%Z) k)
  && negb (has (nth (blockIndex index) (blocks bm) 0%Z) k).
Proof. unfold reducedMask. now rewrite !has_land, !has_lnot. Qed.

Lemma reducedMask_shrinks bm index :
  shrinks (reducedMask bm index) (nth index (squares bm) 0%Z).
Proof.
  unfold reducedMask.
  eapply shrinks_trans; [apply shrinks_land|].
  eapply shrinks_trans; [apply shrinks_land|]. apply shrinks_land.
Qed.

Lemma reducedMask_is_mask bm index :
  is_mask (nth index (squares bm) 0%Z) -> is_mask (reducedMask bm index).
Proof. intros H. unfold reducedMask. now repeat apply is_mask_land. Qed.

(** The three outcomes of the loop body for one square. *)
Lemma reduceCell_cases ps index :
  index < length (squares (p_bm ps)) ->
  let bm := p_bm ps in
  let sq := nth index (squares bm) 0%Z in
  let sq' := reducedMask bm index in
  (sq' = sq /\ reduceCell ps index = ps) \/
  (sq' <> sq /\ toChar sq' = dot /\
   reduceCell ps index =
   mkPass (set_square bm index sq') (p_solved ps)
          (S (p_reduced ps) mod 256)) \/
  (sq' <> sq /\ exists k, k < 9 /\ sq' = bit k /\
   reduceCell ps index =
   mkPass (commit bm index k) (USet.insert index (p_solved ps))
          (S (p_reduced ps) mod 256)).
Proof.
  intros Hlen bm sq sq'.
  assert (E : reduceCell ps index =
    if (sq =? sq')%Z then mkPass (set_square bm index sq') (p_solved ps)
                                 (p_reduced ps)
    else if Ascii.eqb (toChar sq') dot
         then mkPass (set_square bm index sq') (p_solved ps)
                     (S (p_reduced ps) mod 256)
         else mkPass
                (updateGroups
                   (set_board (set_square bm index sq')
                      (setCell (board bm) (rowIndex index)
                               (columnIndex index) (toChar sq'))) index)
                (USet.insert index (p_solved ps))
                (S (p_reduced ps) mod 256)).
  { unfold reduceCell, removePossibilities, set_square, set_board.
    cbn [board unsolved squares rows columns blocks].
    rewrite !upd_upd, !nth_upd_eq by (rewrite ?length_upd; exact Hlen).
    reflexivity. }
  rewrite E. destruct (Z.eqb_spec sq sq') as [Heq|Hne].
  - left. split; auto. rewrite <- Heq. unfold sq.
    rewrite set_square_id. now destruct ps.
  - right. destruct (Ascii.eqb_spec (toChar sq') dot) as [Hd|Hd].
    + left. auto.
    + right. split; auto.
      destruct (toChar_spec sq' Hd) as (k & Hk & Hb & Hc).
      exists k. split; auto. split; auto. f_equal.
      rewrite Hc. unfold updateGroups, set_board, set_square, commit.
      cbn [board unsolved squares rows columns blocks].
      rewrite nth_upd_eq by exact Hlen. now rewrite Hb.
Qed.

(** Narrowing the mask of an unsolved square keeps the invariant. *)
Lemma Inv_narrow S bm index v :
  Inv S bm -> In index (unsolved bm) -> ~ In index S -> is_mask v ->
  Inv S (set_square bm index v).
Proof.
  intros [Iwf Ilen Iasc Ibound Idot Imask Isym Irows Icols Iblocks] Hin Hns Hv.
  assert (Hd : cell (board bm) index = dot) by (apply Idot; auto).
  constructor; cbn [board unsolved squares rows columns blocks set_square];
    auto.
  - now rewrite length_upd.
  - intros i Hi. destruct (Nat.eq_dec index i) as [<-|Hne].
    + now rewrite nth_upd_eq by lia.
    + rewrite nth_upd_neq by auto. auto.
  - intros i Hi Hnd. destruct (Nat.eq_dec index i) as [<-|Hne];
      [congruence|].
    rewrite nth_upd_neq by auto. auto.
Qed.

(** Committing an unsolved square keeps the invariant, the square
    joining the static set. *)
Lemma Inv_commit S bm index k :
  Inv S bm -> In index (unsolved bm) -> ~ In index S -> k < 9 ->
  Inv (USet.insert index S) (commit bm index k).
Proof.
  intros [Iwf Ilen Iasc Ibound Idot Imask Isym Irows Icols Iblocks] Hin Hns Hk.
  assert (Hi81 : index < 81) by auto.
  assert (Hd : cell (board bm) index = dot) by (apply Idot; auto).
  set (b' := setCell (board bm) (rowIndex index) (columnIndex index)
                     (symbol k)).
  assert (Hadd : forall gidx g k', k' < 9 ->
            (occurs (cell b') 81 gidx g k' <->
             occurs (cell (board bm)) 81 gidx g k'
             \/ (g = gidx index /\ k' = k))).
  { intros gidx. apply occurs_add; auto.
    - apply cell_setCell_eq; auto.
    - intros i Hi Hne. split; auto. apply cell_setCell_neq; auto.
    - intros _ k' Hk'. rewrite Hd. intros H. symmetry in H.
      now apply symbol_neq_dot in H. }
  constructor; cbn [board unsolved squares rows columns blocks commit];
    fold b'; auto.
  - now apply wf_setCell.
  - now rewrite length_upd.
  - intros i Hi. rewrite In_insert. destruct (Nat.eq_dec index i) as [<-|Hne].
    + unfold b'. rewrite cell_setCell_eq by auto. split.
      * intros H. now apply symbol_neq_dot in H.
      * intros [_ H]. destruct H. now left.
    + unfold b'. rewrite cell_setCell_neq by auto. rewrite Idot by auto.
      intuition.
  - intros i Hi. destruct (Nat.eq_dec index i) as [<-|Hne].
    + rewrite nth_upd_eq by lia. now apply is_mask_bit.
    + rewrite nth_upd_neq by auto. auto.
  - intros i Hi. destruct (Nat.eq_dec index i) as [<-|Hne].
    + intros _. exists k. unfold b'.
      rewrite cell_setCell_eq, nth_upd_eq by (auto; lia). auto.
    + unfold b'. rewrite cell_setCell_neq, nth_upd_neq by auto. auto.
  - eapply group_spec_add; eauto. now apply rowIndex_lt.
  - eapply group_spec_add; eauto. apply columnIndex_lt.
  - eapply group_spec_add; eauto. now apply blockIndex_lt.
Qed.

(** Every step keeps the invariant, leaves [unsolved] alone and adds at
    most the visited square to the static set. *)
Lemma reduceCell_Inv ps index :
  Inv (p_solved ps) (p_bm ps) ->
  In index (unsolved (p_bm ps)) -> ~ In index (p_solved ps) ->
  Inv (p_solved (reduceCell ps index)) (p_bm (reduceCell ps index)) /\
  unsolved (p_bm (reduceCell ps index)) = unsolved (p_bm ps) /\
  (forall i, In i (p_solved (reduceCell ps index)) ->
             i = index \/ In i (p_solved ps)).
Proof.
  intros HI Hin Hns.
  assert (Hlen : index < length (squares (p_bm ps))).
  { rewrite (inv_len _ _ _ HI). eapply inv_bound; eauto. }
  assert (Hm : is_mask (reducedMask (p_bm ps) index)).
  { apply reducedMask_is_mask. eapply inv_mask; eauto.
    eapply inv_bound; eauto. }
  destruct (reduceCell_cases ps index Hlen)
    as [[_ E]|[(_ & _ & E)|(_ & k & Hk & Hb & E)]]; rewrite E;
    cbn [p_bm p_solved p_reduced].
  - auto.
  - split; [now apply Inv_narrow|]. auto.
  - split; [now apply Inv_commit|]. split; [reflexivity|].
    intros i Hi. apply In_insert in Hi. exact Hi.
Qed.

(** ** A whole pass *)

(** Induction over the first loop of [reduceOptions]: [Q visited ps]
    relates the squares visited so far to the state of the pass. *)
Lemma pass_ind_gen (Q : list nat -> PassState -> Prop) (U : list nat) :
  (forall visited ps idx,
      Inv (p_solved ps) (p_bm ps) -> unsolved (p_bm ps) = U ->
      In idx U -> ~ In idx visited -> ~ In idx (p_solved ps) ->
      Q visited ps -> Q (visited ++ [idx]) (reduceCell ps idx)) ->
  forall l visited ps,
    visited ++ l = U -> NoDup U ->
    (forall i, In i (p_solved ps) -> In i visited) ->
    Inv (p_solved ps) (p_bm ps) -> unsolved (p_bm ps) = U ->
    Q visited ps ->
    Q U (fold_left reduceCell l ps) /\
    Inv (p_solved (fold_left reduceCell l ps))
        (p_bm (fold_left reduceCell l ps)) /\
    unsolved (p_bm (fold_left reduceCell l ps)) = U.
Proof.
  intros Hstep. induction l as [|idx l IH]; intros visited ps HU Hnd Hsub HI Hu HQ.
  - rewrite app_nil_r in HU. subst visited. simpl. auto.
  - simpl.
    assert (Hin : In idx U).
    { rewrite <- HU. apply in_or_app. right. now left. }
    assert (Hnv : ~ In idx visited).
    { rewrite <- HU in Hnd. apply NoDup_remove_2 in Hnd.
      intros H. apply Hnd. apply in_or_app. now left. }
    assert (Hns : ~ In idx (p_solved ps)) by (intros H; auto).
    rewrite <- Hu in Hin.
    destruct (reduceCell_Inv ps idx HI Hin Hns) as (HI' & Hu' & Hs').
    rewrite Hu in Hin.
    apply (IH (visited ++ [idx])).
    + now rewrite <- app_assoc.
    + assumption.
    + intros i Hi. apply in_or_app. destruct (Hs' i Hi) as [->|H].
      * right. now left.
      * left. auto.
    + assumption.
    + congruence.
    + now apply Hstep.
Qed.

Lemma pass_ind (Q : list nat -> PassState -> Prop) bm r :
  Inv [] bm ->
  (forall visited ps idx,
      Inv (p_solved ps) (p_bm ps) -> unsolved (p_bm ps) = unsolved bm ->
      In idx (unsolved bm) -> ~ In idx visited -> ~ In idx (p_solved ps) ->
      Q visited ps -> Q (visited ++ [idx]) (reduceCell ps idx)) ->
  Q [] (mkPass bm [] r) ->
  let ps' := fold_left reduceCell (unsolved bm) (mkPass bm [] r) in
  Q (unsolved bm) ps' /\ Inv (p_solved ps') (p_bm ps') /\
  unsolved (p_bm ps') = unsolved bm.
Proof.
  intros HI Hstep HQ.
  apply (pass_ind_gen Q (unsolved bm) Hstep (unsolved bm) []); auto.
  apply ascending_NoDup. eapply inv_asc; eauto.
Qed.

(** Erasing the static set from [unsolved] restores the invariant with
    an empty static set. *)
Lemma Inv_erase S bm :
  Inv S bm ->
  Inv [] (set_unsolved bm
            (fold_left (fun u index => USet.erase index u) S (unsolved bm))).
Proof.
  intros [Iwf Ilen Iasc Ibound Idot Imask Isym Irows Icols Iblocks].
  constructor; cbn [board unsolved squares rows columns blocks set_unsolved];
    auto.
  - now apply erase_all_ascending.
  - intros i Hi. apply In_erase_all in Hi; auto. apply Ibound, Hi.
  - intros i Hi. rewrite In_erase_all, Idot by auto. intuition.
Qed.

Lemma reduceOptions_eq solved bm :
  reduceOptions solved bm =
  let ps := fold_left reduceCell (unsolved bm) (mkPass bm solved 0) in
  (p_reduced ps, USet.empty,
   set_unsolved (p_bm ps)
     (fold_left (fun u index => USet.erase index u) (p_solved ps)
                (unsolved (p_bm ps)))).
Proof. reflexivity. Qed.

Lemma reduceOptions_Inv bm updated s bm' :
  Inv [] bm -> reduceOptions [] bm = (updated, s, bm') ->
  s = [] /\ Inv [] bm'.
Proof.
  intros HI E. rewrite reduceOptions_eq in E. cbv zeta in E.
  injection E as _ <- <-. split; [reflexivity|].
  apply Inv_erase.
  apply (pass_ind (fun _ _ => True) bm 0 HI); auto.
Qed.

Lemma Inv_valid S bm : Inv S bm -> valid_board (board bm).
Proof.
  intros HI. split; [eapply inv_wf; eauto|].
  intros i Hi. destruct (ascii_dec (cell (board bm) i) dot) as [E|E]; auto.
  right. destruct (inv_sym _ _ _ HI i Hi E) as (k & Hk & Hs & _). eauto.
Qed.

(** *** Bits are only ever cleared *)

Lemma nth_upd_cases {A} (l : list A) i j v d :
  nth j (upd l i v) d = v /\ i = j /\ j < length l \/
  nth j (upd l i v) d = nth j l d.
Proof.
  destruct (Nat.eq_dec i j) as [<-|Hne].
  - destruct (Nat.lt_ge_cases i (length l)).
    + left. now rewrite nth_upd_eq.
    + right. rewrite !nth_overflow; auto. now rewrite length_upd.
  - right. now apply nth_upd_neq.
Qed.

Lemma reduceCell_squares ps index :
  squares (p_bm (reduceCell ps index)) =
  upd (squares (p_bm ps)) index
      (Z.land
         (Z.land
            (Z.land (nth index (squares (p_bm ps)) 0%Z)
               (Z.lnot (nth (rowIndex index) (rows (p_bm ps)) 0%Z)))
            (Z.lnot (nth (columnIndex index) (columns (p_bm ps)) 0%Z)))
         (Z.lnot (nth (blockIndex index) (blocks (p_bm ps)) 0%Z))).
Proof.
  unfold reduceCell, removePossibilities, set_square, set_board, updateGroups.
  cbn [board unsolved squares rows columns blocks].
  rewrite !upd_upd.
  destruct (Nat.lt_ge_cases index (length (squares (p_bm ps)))) as [H|H].
  - rewrite !nth_upd_eq by (rewrite ?length_upd; exact H).
    repeat match goal with
           | |- context [if ?c then _ else _] => destruct c
           end; reflexivity.
  - rewrite !(nth_overflow (upd _ _ _)) by (rewrite ?length_upd; exact H).
    rewrite !(nth_overflow (squares (p_bm ps))) by exact H.
    repeat match goal with
           | |- context [if ?c then _ else _] => destruct c
           end; reflexivity.
Qed.

Lemma reduceCell_shrinks ps index i :
  shrinks (nth i (squares (p_bm (reduceCell ps index))) 0%Z)
          (nth i (squares (p_bm ps)) 0%Z).
Proof.
  rewrite reduceCell_squares.
  destruct (nth_upd_cases (squares (p_bm ps)) index i
              (Z.land
                 (Z.land
                    (Z.land (nth index (squares (p_bm ps)) 0%Z)
                       (Z.lnot (nth (rowIndex index) (rows (p_bm ps)) 0%Z)))
                    (Z.lnot (nth (columnIndex index) (columns (p_bm ps)) 0%Z)))
                 (Z.lnot (nth (blockIndex index) (blocks (p_bm ps)) 0%Z)))
              0%Z) as [(E & <- & _)|E]; rewrite E.
  - eapply shrinks_trans; [apply shrinks_land|].
    eapply shrinks_trans; [apply shrinks_land|]. apply shrinks_land.
  - apply shrinks_refl.
Qed.

Lemma fold_reduceCell_shrinks l ps i :
  shrinks (nth i (squares (p_bm (fold_left reduceCell l ps))) 0%Z)
          (nth i (squares (p_bm ps)) 0%Z).
Proof.
  revert ps; induction l as [|idx l IH]; simpl; intros ps.
  - apply shrinks_refl.
  - eapply shrinks_trans; [apply IH|apply reduceCell_shrinks].
Qed.

Lemma reduceOptions_shrinks solved bm updated s bm' i :
  reduceOptions solved bm = (updated, s, bm') ->
  shrinks (nth i (squares bm') 0%Z) (nth i (squares bm) 0%Z).
Proof.
  rewrite reduceOptions_eq. cbv zeta. intros E. injection E as _ _ <-.
  cbn [squares set_unsolved].
  apply (fold_reduceCell_shrinks (unsolved bm) (mkPass bm solved 0) i).
Qed.

Lemma propagate_shrinks n solved bm s bm' i :
  propagate n solved bm = Some (s, bm') ->
  shrinks (nth i (squares bm') 0%Z) (nth i (squares bm) 0%Z).
Proof.
  revert solved bm; induction n as [|n IH]; cbn [propagate];
    intros solved bm E; [discriminate|].
  destruct (reduceOptions solved bm) as [[u s1] bm1] eqn:Er.
  pose proof (reduceOptions_shrinks _ _ _ _ _ i Er) as H1.
  destruct (0 <? u).
  - eapply shrinks_trans; [eapply IH; eauto|exact H1].
  - injection E as <- <-. exact H1.
Qed.

(** *** The counter of a pass *)

(** Square [i] differs between two tables. *)
Definition changed (sq sq' : list Z) (i : nat) : bool :=
  negb (nth i sq 0 =? nth i sq' 0)%Z.

(** Every unsolved square's mask is disjoint from its three group masks:
    a pass would change nothing. *)
Definition Stable (bm : BoardMap) : Prop :=
  forall i, In i (unsolved bm) ->
    reducedMask bm i = nth i (squares bm) 0%Z.

Lemma Stable_has bm i k :
  Stable bm -> In i (unsolved bm) -> has (nth i (squares bm) 0%Z) k = true ->
  has (nth (rowIndex i) (rows bm) 0%Z) k = false /\
  has (nth (columnIndex i) (columns bm) 0%Z) k = false /\
  has (nth (blockIndex i) (blocks bm) 0%Z) k = false.
Proof.
  intros HS Hi Hk. specialize (HS i Hi).
  apply (f_equal (fun m => has m k)) in HS.
  rewrite has_reducedMask, Hk in HS.
  destruct (has (nth (rowIndex i) (rows bm) 0%Z) k),
           (has (nth (columnIndex i) (columns bm) 0%Z) k),
           (has (nth (blockIndex i) (blocks bm) 0%Z) k);
    simpl in HS; auto; discriminate.
Qed.

Lemma Inv_length_unsolved st bm : Inv st bm -> length (unsolved bm) <= 81.
Proof.
  intros HI. apply Nat.le_trans with (length (seq 0 81));
    [|rewrite length_seq; lia].
  apply NoDup_incl_length.
  - apply ascending_NoDup. eapply inv_asc; eauto.
  - intros i Hi. apply in_seq. pose proof (inv_bound _ _ _ HI i Hi). lia.
Qed.

Lemma reduceCell_reduced ps index :
  index < length (squares (p_bm ps)) ->
  p_reduced (reduceCell ps index) =
  if (nth index (squares (p_bm ps)) 0 =? reducedMask (p_bm ps) index)%Z
  then p_reduced ps else S (p_reduced ps) mod 256.
Proof.
  intros Hlen.
  destruct (reduceCell_cases ps index Hlen)
    as [[E1 E]|[(E1 & _ & E)|(E1 & k & Hk & Hb & E)]]; rewrite E;
    cbn [p_reduced].
  - rewrite E1. now rewrite Z.eqb_refl.
  - destruct (Z.eqb_spec (nth index (squares (p_bm ps)) 0%Z)
                         (reducedMask (p_bm ps) index)); congruence.
  - destruct (Z.eqb_spec (nth index (squares (p_bm ps)) 0%Z)
                         (reducedMask (p_bm ps) index)); congruence.
Qed.

Lemma reduceCell_squares' ps index :
  squares (p_bm (reduceCell ps index)) =
  upd (squares (p_bm ps)) index (reducedMask (p_bm ps) index).
Proof. apply reduceCell_squares. Qed.

Lemma count_changed_ext sq sq1 sq2 l :
  (forall i, In i l -> nth i sq1 0%Z = nth i sq2 0%Z) ->
  length (filter (changed sq sq1) l) = length (filter (changed sq sq2) l).
Proof.
  intros H. f_equal. apply filter_ext_in. intros i Hi. unfold changed.
  now rewrite H.
Qed.

(** What a pass over a state satisfying the invariant computes: the
    counter is the number of squares of [unsolved] whose mask changed,
    squares outside [unsolved] keep their mask, and a pass that counts
    nothing changes nothing. *)
Lemma pass_count bm :
  Inv [] bm ->
  let ps' := fold_left reduceCell (unsolved bm) (mkPass bm [] 0) in
  p_reduced ps' =
    length (filter (changed (squares bm) (squares (p_bm ps'))) (unsolved bm))
  /\ (forall i, ~ In i (unsolved bm) ->
        nth i (squares (p_bm ps')) 0%Z = nth i (squares bm) 0%Z)
  /\ (p_reduced ps' = 0 -> p_bm ps' = bm /\ p_solved ps' = [] /\ Stable bm).
Proof.
  intros HI.
  pose proof (Inv_length_unsolved _ _ HI) as HlenU.
  set (Q := fun (visited : list nat) (ps : PassState) =>
    NoDup visited /\ incl visited (unsolved bm) /\
    p_reduced ps =
      length (filter (changed (squares bm) (squares (p_bm ps))) visited) /\
    (forall i, ~ In i visited ->
       nth i (squares (p_bm ps)) 0%Z = nth i (squares bm) 0%Z) /\
    (p_reduced ps = 0 ->
       p_bm ps = bm /\ p_solved ps = [] /\
       forall i, In i visited -> reducedMask bm i = nth i (squares bm) 0%Z)).
  assert (HQ : Q (unsolved bm)
                 (fold_left reduceCell (unsolved bm) (mkPass bm [] 0))).
  { apply (pass_ind Q bm 0 HI).
    - intros visited ps idx HIps Hu Hin Hnv Hns (Hnd & Hincl & Hc & Hun & Hz).
      assert (Hlen : idx < length (squares (p_bm ps))).
      { rewrite (inv_len _ _ _ HIps). apply (inv_bound _ _ _ HIps).
        rewrite Hu. exact Hin. }
      assert (Hnd' : NoDup (visited ++ [idx])).
      { apply NoDup_app; auto.
        - repeat constructor. intros [].
        - intros x Hx [->|[]]. auto. }
      assert (Hincl' : incl (visited ++ [idx]) (unsolved bm)).
      { intros x Hx. apply in_app_or in Hx. destruct Hx as [Hx|[->|[]]]; auto. }
      pose proof (NoDup_incl_length Hnd' Hincl') as Hbound.
      rewrite length_app in Hbound. simpl in Hbound.
      assert (Hr : p_reduced ps <= length visited).
      { rewrite Hc. apply filter_length_le. }
      assert (Hsq : nth idx (squares (p_bm ps)) 0%Z = nth idx (squares bm) 0%Z)
        by auto.
      assert (Hcount : length (filter (changed (squares bm)
                                 (squares (p_bm (reduceCell ps idx)))) visited)
                       = p_reduced ps).
      { rewrite Hc. apply count_changed_ext. intros i Hi.
        rewrite reduceCell_squares'. apply nth_upd_neq. congruence. }
      unfold Q. split; [auto|]. split; [auto|].
      rewrite filter_app, length_app, Hcount. cbn [filter].
      unfold changed at 1. rewrite reduceCell_squares', nth_upd_eq by auto.
      rewrite reduceCell_reduced by auto. rewrite Hsq.
      destruct (Z.eqb_spec (nth idx (squares bm) 0%Z)
                           (reducedMask (p_bm ps) idx)) as [E|E].
      + cbn [negb length]. split; [lia|]. split.
        * intros i Hi. rewrite nth_upd_neq.
          -- apply Hun. intros H. apply Hi. apply in_or_app. now left.
          -- intros ->. apply Hi. apply in_or_app. right. now left.
        * intros H0. destruct (Hz H0) as (Hbm & Hsol & Hvis).
          destruct (reduceCell_cases ps idx Hlen)
            as [[E1 E2]|[(E1 & _)|(E1 & _)]];
            try (rewrite Hsq in E1; congruence).
          rewrite E2. split; [auto|]. split; [auto|].
          intros i Hi. apply in_app_or in Hi. destruct Hi as [Hi|[<-|[]]]; auto.
          rewrite <- Hbm at 1. congruence.
      + cbn [negb length]. rewrite Nat.mod_small by lia. split; [lia|]. split.
        * intros i Hi. rewrite nth_upd_neq.
          -- apply Hun. intros H. apply Hi. apply in_or_app. now left.
          -- intros ->. apply Hi. apply in_or_app. right. now left.
        * intros H0. lia.
    - unfold Q. cbn [p_bm p_solved p_reduced]. split; [constructor|].
      split; [intros x []|]. split; [reflexivity|]. split; [reflexivity|].
      intros _. split; [auto|]. split; [auto|]. intros i []. }
  unfold Q in HQ.
  destruct HQ as (_ & _ & Hc & Hun & Hz).
  split; [exact Hc|]. split; [exact Hun|].
  intros H0. destruct (Hz H0) as (H1 & H2 & H3).
  split; [exact H1|]. split; [exact H2|exact H3].
Qed.

Lemma reduceOptions_count bm updated s bm' :
  Inv [] bm -> reduceOptions [] bm = (updated, s, bm') ->
  updated = length (filter (changed (squares bm) (squares bm')) (unsolved bm))
  /\ (forall i, ~ In i (unsolved bm) ->
        nth i (squares bm') 0%Z = nth i (squares bm) 0%Z)
  /\ (updated = 0 -> bm' = bm /\ Stable bm).
Proof.
  intros HI E. rewrite reduceOptions_eq in E. cbv zeta in E.
  destruct (pass_count bm HI) as (H1 & H2 & H3). cbv zeta in H1, H2, H3.
  injection E as <- <- <-. cbn [squares set_unsolved].
  split; [exact H1|]. split; [exact H2|].
  intros H0. destruct (H3 H0) as (Hbm & Hs & Hst). split; [|exact Hst].
  rewrite Hs, Hbm. simpl. now destruct bm.
Qed.

(** ** Sudoku constraints *)

(** [b'] keeps every filled square of [b]. *)
Definition extends (b b' : Board) : Prop :=
  forall i, i < 81 -> cell b i <> dot -> cell b' i = cell b i.

(** No symbol is placed twice in a row, a column or a block. *)
Definition Consistent (b : Board) : Prop :=
  forall i j, i < 81 -> j < 81 -> i <> j ->
    cell b i <> dot -> cell b i = cell b j ->
    rowIndex i <> rowIndex j /\ columnIndex i <> columnIndex j /\
    blockIndex i <> blockIndex j.

(** A completely and consistently filled board. *)
Definition solution (s : Board) : Prop :=
  valid_board s /\ (forall i, i < 81 -> cell s i <> dot) /\ Consistent s.

(** The tables do not exclude the solution [s]: it agrees with the
    board, and its symbol at every unsolved square is still a candidate. *)
Definition Complete (st : list nat) (bm : BoardMap) (s : Board) : Prop :=
  extends (board bm) s /\
  forall i k, In i (unsolved bm) -> ~ In i st -> k < 9 ->
    cell s i = symbol k -> has (nth i (squares bm) 0%Z) k = true.

(** Empty squares are those whose mask does not have exactly one bit. *)
Definition DotTracks (bm : BoardMap) : Prop :=
  forall i, i < 81 ->
    cell (board bm) i = dot -> countBits (nth i (squares bm) 0%Z) <> 1.

Lemma extends_refl b : extends b b.
Proof. intros i _ _. reflexivity. Qed.

Lemma extends_trans a b c : extends a b -> extends b c -> extends a c.
Proof.
  intros H1 H2 i Hi Hd. rewrite H2; auto. rewrite H1; auto.
Qed.

Lemma extends_setCell b i c :
  wf_board b -> i < 81 -> cell b i = dot ->
  extends b (setCell b (rowIndex i) (columnIndex i) c).
Proof.
  intros Hwf Hi Hd j Hj Hnd. apply cell_setCell_neq; auto. congruence.
Qed.

Lemma solution_symbol s i :
  solution s -> i < 81 -> exists k, k < 9 /\ cell s i = symbol k.
Proof.
  intros ([_ Hv] & Hnd & _) Hi. destruct (Hv i Hi) as [H|H]; auto.
  now destruct (Hnd i Hi).
Qed.

(** Symbol [k] is absent from the three groups of [idx] when the group
    masks say so. *)
Lemma free_of_groups st bm idx k :
  Inv st bm -> idx < 81 -> k < 9 ->
  has (nth (rowIndex idx) (rows bm) 0%Z) k = false ->
  has (nth (columnIndex idx) (columns bm) 0%Z) k = false ->
  has (nth (blockIndex idx) (blocks bm) 0%Z) k = false ->
  forall j, j < 81 -> cell (board bm) j = symbol k ->
    rowIndex j <> rowIndex idx /\ columnIndex j <> columnIndex idx /\
    blockIndex j <> blockIndex idx.
Proof.
  intros HI Hidx Hk Hr Hc Hb j Hj Hs.
  destruct (inv_rows _ _ _ HI) as [_ Sr].
  destruct (inv_columns _ _ _ HI) as [_ Sc].
  destruct (inv_blocks _ _ _ HI) as [_ Sb].
  repeat split; intros E.
  - destruct (Sr _ (rowIndex_lt idx Hidx)) as [_ H].
    assert (X : has (nth (rowIndex idx) (rows bm) 0%Z) k = true)
      by (apply H; auto; exists j; auto).
    congruence.
  - destruct (Sc _ (columnIndex_lt idx)) as [_ H].
    assert (X : has (nth (columnIndex idx) (columns bm) 0%Z) k = true)
      by (apply H; auto; exists j; auto).
    congruence.
  - destruct (Sb _ (blockIndex_lt idx Hidx)) as [_ H].
    assert (X : has (nth (blockIndex idx) (blocks bm) 0%Z) k = true)
      by (apply H; auto; exists j; auto).
    congruence.
Qed.

(** Conversely, a symbol that a solution puts on an empty square is in
    none of the square's group masks. *)
Lemma groups_free st bm s idx k :
  Inv st bm -> solution s -> extends (board bm) s ->
  idx < 81 -> cell (board bm) idx = dot -> k < 9 -> cell s idx = symbol k ->
  has (nth (rowIndex idx) (rows bm) 0%Z) k = false /\
  has (nth (columnIndex idx) (columns bm) 0%Z) k = false /\
  has (nth (blockIndex idx) (blocks bm) 0%Z) k = false.
Proof.
  intros HI (Hv & Hnd & Hcons) Hext Hidx Hd Hk Hs.
  destruct (inv_rows _ _ _ HI) as [_ Sr].
  destruct (inv_columns _ _ _ HI) as [_ Sc].
  destruct (inv_blocks _ _ _ HI) as [_ Sb].
  assert (Hno : forall j, j < 81 -> cell (board bm) j = symbol k ->
                rowIndex j <> rowIndex idx /\
                columnIndex j <> columnIndex idx /\
                blockIndex j <> blockIndex idx).
  { intros j Hj Hsj.
    assert (Hne : j <> idx).
    { intros ->. rewrite Hd in Hsj. symmetry in Hsj.
      now apply symbol_neq_dot in Hsj. }
    assert (Hsj' : cell s j = symbol k).
    { rewrite Hext; auto. rewrite Hsj. now apply symbol_neq_dot. }
    apply Hcons; auto. congruence. }
  repeat split.
  - destruct (has (nth (rowIndex idx) (rows bm) 0%Z) k) eqn:E; auto.
    destruct (Sr _ (rowIndex_lt idx Hidx)) as [_ H].
    apply H in E; auto. destruct E as (j & Hj & Hg & Hsj).
    now destruct (Hno j Hj Hsj) as (X & _).
  - destruct (has (nth (columnIndex idx) (columns bm) 0%Z) k) eqn:E; auto.
    destruct (Sc _ (columnIndex_lt idx)) as [_ H].
    apply H in E; auto. destruct E as (j & Hj & Hg & Hsj).
    now destruct (Hno j Hj Hsj) as (_ & X & _).
  - destruct (has (nth (blockIndex idx) (blocks bm) 0%Z) k) eqn:E; auto.
    destruct (Sb _ (blockIndex_lt idx Hidx)) as [_ H].
    apply H in E; auto. destruct E as (j & Hj & Hg & Hsj).
    now destruct (Hno j Hj Hsj) as (_ & _ & X).
Qed.

Lemma Consistent_setCell b idx k :
  wf_board b -> Consistent b -> idx < 81 -> k < 9 ->
  (forall j, j < 81 -> j <> idx -> cell b j = symbol k ->
     rowIndex j <> rowIndex idx /\ columnIndex j <> columnIndex idx /\
     blockIndex j <> blockIndex idx) ->
  Consistent (setCell b (rowIndex idx) (columnIndex idx) (symbol k)).
Proof.
  intros Hwf Hc Hidx Hk Hfree i j Hi Hj Hne Hd He.
  destruct (Nat.eq_dec idx i) as [<-|Hi'];
    destruct (Nat.eq_dec idx j) as [<-|Hj']; try congruence.
  - rewrite cell_setCell_eq in He by auto.
    rewrite cell_setCell_neq in He by auto.
    destruct (Hfree j Hj (not_eq_sym Hj') (eq_sym He)) as (A & B & C).
    repeat split; congruence.
  - rewrite cell_setCell_eq in He by auto.
    rewrite cell_setCell_neq in He by auto.
    apply (Hfree i Hi (not_eq_sym Hi') He).
  - rewrite !cell_setCell_neq in He by auto.
    rewrite cell_setCell_neq in Hd by auto. now apply Hc.
Qed.

(** *** What one step keeps *)

Lemma reduceCell_keeps ps idx :
  Inv (p_solved ps) (p_bm ps) ->
  In idx (unsolved (p_bm ps)) -> ~ In idx (p_solved ps) ->
  let ps' := reduceCell ps idx in
  extends (board (p_bm ps)) (board (p_bm ps')) /\
  (Consistent (board (p_bm ps)) -> Consistent (board (p_bm ps'))) /\
  (forall s, solution s -> Complete (p_solved ps) (p_bm ps) s ->
             Complete (p_solved ps') (p_bm ps') s) /\
  (DotTracks (p_bm ps) -> DotTracks (p_bm ps')).
Proof.
  intros HI Hin Hns ps'.
  assert (Hidx : idx < 81) by (eapply inv_bound; eauto).
  assert (Hlen : idx < length (squares (p_bm ps))).
  { now rewrite (inv_len _ _ _ HI). }
  assert (Hd : cell (board (p_bm ps)) idx = dot).
  { apply (inv_dot _ _ _ HI); auto. }
  assert (Hm : is_mask (reducedMask (p_bm ps) idx)).
  { apply reducedMask_is_mask. eapply inv_mask; eauto. }
  assert (Hred : forall s k, solution s -> Complete (p_solved ps) (p_bm ps) s ->
            k < 9 -> cell s idx = symbol k ->
            has (reducedMask (p_bm ps) idx) k = true).
  { intros s k Hs [Hext Hc] Hk Hsk.
    destruct (groups_free _ _ s idx k HI Hs Hext Hidx Hd Hk Hsk)
      as (A & B & C).
    rewrite has_reducedMask, A, B, C, (Hc idx k) by auto. reflexivity. }
  unfold ps'.
  destruct (reduceCell_cases ps idx Hlen)
    as [[_ E]|[(Hne & Hdot & E)|(Hne & k & Hk & Hb & E)]]; rewrite E;
    cbn [p_bm p_solved p_reduced].
  - split; [apply extends_refl|]. auto.
  - cbn [board set_square]. split; [apply extends_refl|].
    split; [auto|]. split.
    + intros s Hs HC. destruct HC as [Hext Hc]. split; [exact Hext|].
      cbn [unsolved squares set_square]. intros i k Hi Hnsi Hk Hsk.
      destruct (Nat.eq_dec idx i) as [<-|Hne'].
      * rewrite nth_upd_eq by auto. apply (Hred s); auto. now split.
      * rewrite nth_upd_neq by auto. auto.
    + intros HT i Hi Hdi. cbn [squares set_square].
      destruct (Nat.eq_dec idx i) as [<-|Hne'].
      * rewrite nth_upd_eq by auto. rewrite countBits_1_toChar by auto.
        intros H. now apply H.
      * rewrite nth_upd_neq by auto. auto.
  - assert (Hwf : wf_board (board (p_bm ps))) by (eapply inv_wf; eauto).
    assert (Hbit : has (reducedMask (p_bm ps) idx) k = true).
    { rewrite Hb, has_bit. apply Nat.eqb_refl. }
    rewrite has_reducedMask in Hbit.
    repeat (apply andb_true_iff in Hbit; destruct Hbit as [Hbit ?]).
    cbn [board commit]. split; [now apply extends_setCell|]. split.
    + intros Hc. apply Consistent_setCell; auto.
      intros j Hj _ Hsj.
      apply (free_of_groups _ _ idx k HI); auto; now apply negb_true_iff.
    + split.
      * intros s Hs HC. pose proof HC as [Hext Hc].
        destruct (solution_symbol s idx Hs Hidx) as (k' & Hk' & Hsk').
        assert (k' = k).
        { pose proof (Hred s k' Hs HC Hk' Hsk') as X.
          rewrite Hb, has_bit in X. apply Nat.eqb_eq in X. auto. }
        subst k'. split.
        -- intros i Hi. cbn [board commit]. intros Hdi.
           destruct (Nat.eq_dec idx i) as [<-|Hne'].
           ++ now rewrite cell_setCell_eq.
           ++ rewrite cell_setCell_neq in * by auto. auto.
        -- cbn [unsolved squares commit]. intros i k2 Hi Hnsi Hk2 Hsk2.
           rewrite In_insert in Hnsi.
           rewrite nth_upd_neq by (intros ->; auto). apply Hc; auto.
      * intros HT i Hi. cbn [board squares commit].
        destruct (Nat.eq_dec idx i) as [<-|Hne'].
        -- rewrite cell_setCell_eq by auto. intros Hsd.
           now apply symbol_neq_dot in Hsd.
        -- rewrite cell_setCell_neq, nth_upd_neq by auto. auto.
Qed.

(** *** What a pass keeps *)

Lemma Complete_erase st bm s :
  Inv st bm -> Complete st bm s ->
  Complete [] (set_unsolved bm
                 (fold_left (fun u index => USet.erase index u) st
                            (unsolved bm))) s.
Proof.
  intros HI [Hext Hc]. split; [exact Hext|].
  cbn [unsolved squares set_unsolved]. intros i k Hi _ Hk Hs.
  apply In_erase_all in Hi; [|eapply inv_asc; eauto].
  destruct Hi. auto.
Qed.

Lemma reduceOptions_keeps bm updated st bm' :
  Inv [] bm -> reduceOptions [] bm = (updated, st, bm') ->
  extends (board bm) (board bm') /\
  (Consistent (board bm) -> Consistent (board bm')) /\
  (forall s, solution s -> Complete [] bm s -> Complete [] bm' s) /\
  (DotTracks bm -> DotTracks bm').
Proof.
  intros HI E. rewrite reduceOptions_eq in E. cbv zeta in E.
  set (Q := fun (_ : list nat) (ps : PassState) =>
    extends (board bm) (board (p_bm ps)) /\
    (Consistent (board bm) -> Consistent (board (p_bm ps))) /\
    (forall s, solution s -> Complete [] bm s ->
               Complete (p_solved ps) (p_bm ps) s) /\
    (DotTracks bm -> DotTracks (p_bm ps))).
  assert (HQ : Q (unsolved bm)
                 (fold_left reduceCell (unsolved bm) (mkPass bm [] 0))).
  { apply (pass_ind Q bm 0 HI).
    - intros visited ps idx HIps Hups Hin _ Hns (Q1 & Q2 & Q3 & Q4).
      rewrite <- Hups in Hin.
      destruct (reduceCell_keeps ps idx HIps Hin Hns) as (K1 & K2 & K3 & K4).
      unfold Q. split; [eapply extends_trans; eauto|].
      split; [intros Hc; apply K2, Q2, Hc|].
      split; [intros s Hs HC; apply K3; auto|].
      intros HT. apply K4, Q4, HT.
    - unfold Q. cbn [p_bm p_solved]. split; [apply extends_refl|].
      split; [auto|]. split; auto. }
  assert (HI' : Inv (p_solved (fold_left reduceCell (unsolved bm)
                                         (mkPass bm [] 0)))
                    (p_bm (fold_left reduceCell (unsolved bm)
                                     (mkPass bm [] 0)))).
  { apply (pass_ind (fun _ _ => True) bm 0 HI); auto. }
  unfold Q in HQ. destruct HQ as (Q1 & Q2 & Q3 & Q4).
  injection E as _ _ <-. cbn [board squares set_unsolved].
  split; [exact Q1|]. split; [exact Q2|]. split.
  - intros s Hs HC. apply Complete_erase; auto.
  - intros HT. apply (Q4 HT).
Qed.

(** ** Selecting the square and the symbol to guess *)

(** [gi] is the first square of [unsolved] with the fewest candidates. *)
Definition first_minimum (bm : BoardMap) (gi : nat) : Prop :=
  exists l1 l2,
    unsolved bm = l1 ++ gi :: l2 /\
    (forall i, In i l1 -> numPossibilities bm gi < numPossibilities bm i) /\
    (forall i, In i l2 -> numPossibilities bm gi <= numPossibilities bm i).

(** [g] is the lowest symbol whose bit is set in the mask of [gi]. *)
Definition lowest_candidate (bm : BoardMap) (gi g : nat) : Prop :=
  1 <= g <= 9 /\
  has (nth gi (squares bm) 0%Z) (g - 1) = true /\
  forall v, 1 <= v < g -> has (nth gi (squares bm) 0%Z) (v - 1) = false.

Lemma scanUnsolved_spec bm l f g f' g' :
  scanUnsolved bm l f g = Some (f', g') ->
  (forall i, In i l -> numPossibilities bm i <> 0) /\
  ((f' = f /\ g' = g /\ forall i, In i l -> f <= numPossibilities bm i) \/
   (f' < f /\ exists l1 l2,
       l = l1 ++ g' :: l2 /\ numPossibilities bm g' = f' /\
       (forall i, In i l1 -> f' < numPossibilities bm i) /\
       (forall i, In i l2 -> f' <= numPossibilities bm i))).
Proof.
  revert f g; induction l as [|x l IH]; simpl; intros f g E.
  - injection E as <- <-. split; [intros i []|]. left. split; auto.
    split; auto. intros i [].
  - destruct (Nat.eqb_spec (numPossibilities bm x) 0) as [E0|E0];
      [discriminate|].
    destruct (Nat.ltb_spec (numPossibilities bm x) f) as [Hlt|Hge].
    + destruct (IH _ _ E) as [Hnz [(-> & -> & Hall)|(Hlt' & l1 & l2 & Hl & Hc & H1 & H2)]].
      * split; [intros i [<-|Hi]; auto|]. right. split; auto.
        exists [], l. simpl. repeat split; auto. intros i [].
      * split; [intros i [<-|Hi]; auto|]. right. split; [lia|].
        exists (x :: l1), l2. simpl. rewrite Hl. repeat split; auto.
        intros i [<-|Hi]; auto.
    + destruct (IH _ _ E) as [Hnz [(-> & -> & Hall)|(Hlt' & l1 & l2 & Hl & Hc & H1 & H2)]].
      * split; [intros i [<-|Hi]; auto|]. left. repeat split; auto.
        intros i [<-|Hi]; auto.
      * split; [intros i [<-|Hi]; auto|]. right. split; [lia|].
        exists (x :: l1), l2. simpl. rewrite Hl. repeat split; auto.
        intros i [<-|Hi]; auto. lia.
Qed.

Lemma scanUnsolved_None bm l f g :
  scanUnsolved bm l f g = None <->
  exists i, In i l /\ numPossibilities bm i = 0.
Proof.
  revert f g; induction l as [|x l IH]; simpl; intros f g.
  - split; [discriminate|]. intros (i & [] & _).
  - destruct (Nat.eqb_spec (numPossibilities bm x) 0) as [E0|E0].
    + split; auto. intros _. exists x. auto.
    + destruct (numPossibilities bm x <? f); rewrite IH; split;
        intros (i & Hi & Hz); try (exists i; split; auto; fail);
        destruct Hi as [<-|Hi]; try congruence; exists i; auto.
Qed.

Lemma selectGuess_None bm :
  selectGuess bm = None <->
  exists i, In i (unsolved bm) /\ numPossibilities bm i = 0.
Proof.
  unfold selectGuess. rewrite <- (scanUnsolved_None bm (unsolved bm) 9 0).
  destruct (scanUnsolved bm (unsolved bm) 9 0) as [[f g]|];
    split; congruence.
Qed.

(** Square 0 is unsolved whenever all unsolved squares still have all
    nine candidates: the default of the scan is a square of [unsolved]. *)
Lemma zero_unsolved bm :
  Inv [] bm -> Stable bm -> unsolved bm <> [] ->
  (forall i, In i (unsolved bm) -> 9 <= numPossibilities bm i) ->
  In 0 (unsolved bm).
Proof.
  intros HI HS Hne Hall.
  destruct (in_dec Nat.eq_dec 0 (unsolved bm)) as [H0|H0]; auto.
  exfalso.
  assert (Hfull : forall i, In i (unsolved bm) ->
                   nth i (squares bm) 0%Z = 511%Z).
  { intros i Hi. apply countBits_9.
    - eapply inv_mask; eauto. eapply inv_bound; eauto.
    - pose proof (Hall i Hi) as H9. unfold numPossibilities in H9.
      assert (countBits (nth i (squares bm) 0%Z) <= 9).
      { apply countBits_le9. eapply inv_mask; eauto. eapply inv_bound; eauto. }
      lia. }
  assert (Hd0 : cell (board bm) 0 <> dot).
  { intros Hd. apply H0. apply (inv_dot _ _ _ HI) in Hd; [|lia]. apply Hd. }
  destruct (inv_sym _ _ _ HI 0 ltac:(lia) Hd0) as (k0 & Hk0 & Hs0 & _).
  destruct (unsolved bm) as [|i U] eqn:EU; [congruence|].
  assert (Hi : In i (unsolved bm)) by (rewrite EU; now left).
  assert (Hi81 : i < 81) by (eapply inv_bound; eauto).
  set (j := columnIndex i).
  assert (Hj9 : j < 9) by apply columnIndex_lt.
  assert (Hjr : rowIndex j = 0) by (unfold rowIndex; now apply Nat.div_small).
  assert (Hjc : columnIndex j = columnIndex i).
  { unfold columnIndex at 1. now apply Nat.mod_small. }
  rewrite <- EU in *.
  destruct (in_dec Nat.eq_dec j (unsolved bm)) as [Hj|Hj].
  - (* square j is unsolved with all nine bits, yet shares row 0 *)
    destruct (Stable_has bm j k0 HS Hj) as (A & _).
    { rewrite (Hfull j Hj). now apply has_511. }
    rewrite Hjr in A.
    destruct (inv_rows _ _ _ HI) as [_ Sr].
    destruct (Sr 0 ltac:(lia)) as [_ H].
    assert (X : has (nth 0 (rows bm) 0%Z) k0 = true).
    { apply H; auto. exists 0. repeat split; auto. lia. }
    congruence.
  - (* square j is filled, in the column of the unsolved square i *)
    assert (Hdj : cell (board bm) j <> dot).
    { intros Hd. apply Hj. apply (inv_dot _ _ _ HI) in Hd; [|lia]. apply Hd. }
    destruct (inv_sym _ _ _ HI j ltac:(lia) Hdj) as (k1 & Hk1 & Hs1 & _).
    destruct (Stable_has bm i k1 HS Hi) as (_ & B & _).
    { rewrite (Hfull i Hi). now apply has_511. }
    destruct (inv_columns _ _ _ HI) as [_ Sc].
    destruct (Sc (columnIndex i) (columnIndex_lt i)) as [_ H].
    assert (X : has (nth (columnIndex i) (columns bm) 0%Z) k1 = true).
    { apply H; auto. exists j. repeat split; auto. lia. }
    congruence.
Qed.

Lemma selectGuess_first_minimum bm gi :
  Inv [] bm -> Stable bm -> unsolved bm <> [] ->
  selectGuess bm = Some gi -> first_minimum bm gi.
Proof.
  intros HI HS Hne E. unfold selectGuess in E.
  destruct (scanUnsolved bm (unsolved bm) 9 0) as [[f g]|] eqn:Es;
    [|discriminate].
  injection E as ->.
  destruct (scanUnsolved_spec _ _ _ _ _ _ Es)
    as [Hnz [(-> & -> & Hall)|(Hlt & l1 & l2 & Hl & Hc & H1 & H2)]].
  - pose proof (zero_unsolved bm HI HS Hne Hall) as H0.
    destruct (in_split _ _ H0) as (l1 & l2 & Hl).
    assert (l1 = []).
    { pose proof (inv_asc _ _ _ HI) as Hasc. rewrite Hl in Hasc.
      destruct (ascending_app_inv _ _ _ Hasc) as [Hlow _].
      destruct l1 as [|y l1]; auto.
      specialize (Hlow y (or_introl eq_refl)). lia. }
    subst l1. exists [], l2. split; [exact Hl|]. split; [intros i []|].
    intros i Hi.
    assert (Hi' : In i (unsolved bm)).
    { rewrite Hl. right. exact Hi. }
    assert (numPossibilities bm 0 <= 9).
    { apply countBits_le9. eapply inv_mask; eauto. lia. }
    specialize (Hall i Hi'). lia.
  - exists l1, l2. rewrite Hc. auto.
Qed.

Lemma first_minimum_In bm gi : first_minimum bm gi -> In gi (unsolved bm).
Proof.
  intros (l1 & l2 & Hl & _). rewrite Hl. apply in_or_app. right. now left.
Qed.

Lemma selectGuess_nonzero bm gi :
  Inv [] bm -> Stable bm -> unsolved bm <> [] ->
  selectGuess bm = Some gi -> nth gi (squares bm) 0%Z <> 0%Z.
Proof.
  intros HI HS Hne E.
  pose proof (first_minimum_In _ _ (selectGuess_first_minimum _ _ HI HS Hne E))
    as Hin.
  intros Hz.
  assert (X : selectGuess bm = None).
  { apply selectGuess_None. exists gi. split; auto.
    unfold numPossibilities. rewrite Hz. reflexivity. }
  congruence.
Qed.

Lemma firstGuess_spec bm gi :
  Inv [] bm -> gi < 81 -> nth gi (squares bm) 0%Z <> 0%Z ->
  exists g, firstGuess bm gi = S g /\ g < 9 /\
            has (nth gi (squares bm) 0%Z) g = true /\
            forall j, j < g -> has (nth gi (squares bm) 0%Z) j = false.
Proof.
  intros HI Hgi Hnz. unfold firstGuess. apply firstGuess_loop_spec; auto.
  eapply inv_mask; eauto.
Qed.

Lemma firstGuess_lowest bm gi :
  Inv [] bm -> gi < 81 -> nth gi (squares bm) 0%Z <> 0%Z ->
  lowest_candidate bm gi (firstGuess bm gi).
Proof.
  intros HI Hgi Hnz.
  destruct (firstGuess_spec bm gi HI Hgi Hnz) as (g & -> & Hg & Hh & Hl).
  split; [lia|]. split.
  - now replace (S g - 1) with g by lia.
  - intros v Hv. apply Hl. lia.
Qed.

(** ** Retracting a failed guess *)

Lemma retract_board bm gi g : board (retract bm gi g) = board bm.
Proof. reflexivity. Qed.

Lemma retract_unsolved bm gi g : unsolved (retract bm gi g) = unsolved bm.
Proof. reflexivity. Qed.

Lemma retract_shrinks bm gi g i :
  shrinks (nth i (squares (retract bm gi g)) 0%Z) (nth i (squares bm) 0%Z).
Proof.
  unfold retract, set_square. cbn [squares].
  destruct (nth_upd_cases (squares bm) gi i
              (Z.land (nth gi (squares bm) 0%Z)
                      (Z.lnot (Z.shiftl 1 (Z.of_nat (g - 1))))) 0%Z)
    as [(E & <- & _)|E]; rewrite E.
  - apply shrinks_land.
  - apply shrinks_refl.
Qed.

Lemma retract_Inv bm gi g :
  Inv [] bm -> In gi (unsolved bm) -> Inv [] (retract bm gi g).
Proof.
  intros HI Hin. unfold retract. apply Inv_narrow; auto.
  apply is_mask_land. eapply inv_mask; eauto. eapply inv_bound; eauto.
Qed.

Lemma retract_Stable bm gi g :
  Inv [] bm -> Stable bm -> In gi (unsolved bm) -> Stable (retract bm gi g).
Proof.
  intros HI HS Hin i Hi. rewrite retract_unsolved in Hi.
  specialize (HS i Hi). unfold reducedMask in *. unfold retract, set_square.
  cbn [squares rows columns blocks].
  destruct (Nat.eq_dec gi i) as [<-|Hne].
  - rewrite nth_upd_eq
      by (rewrite (inv_len _ _ _ HI); eapply inv_bound; eauto).
    apply Z.bits_inj'. intros j _.
    apply (f_equal (fun m => Z.testbit m j)) in HS.
    rewrite !Z.land_spec in *. revert HS.
    repeat match goal with
           | |- context [Z.testbit ?a j] => destruct (Z.testbit a j)
           end; simpl; congruence.
  - rewrite nth_upd_neq by auto. exact HS.
Qed.

(** A failed guess strictly shrinks the mask of the guessed square. *)
Lemma retract_count bm gi g0 :
  Inv [] bm -> gi < 81 -> g0 < 9 ->
  has (nth gi (squares bm) 0%Z) g0 = true ->
  numPossibilities (retract bm gi (S g0)) gi < numPossibilities bm gi.
Proof.
  intros HI Hgi Hg0 Hh. unfold numPossibilities, retract, set_square.
  cbn [squares]. rewrite nth_upd_eq by now rewrite (inv_len _ _ _ HI).
  replace (S g0 - 1) with g0 by lia. fold (bit g0).
  assert (Hm : is_mask (nth gi (squares bm) 0%Z)) by (eapply inv_mask; eauto).
  apply countBits_shrinks; auto.
  - now apply is_mask_land.
  - apply shrinks_land.
  - intros E. apply (f_equal (fun m => has m g0)) in E.
    rewrite has_land, has_lnot, has_bit, Nat.eqb_refl, Hh in E. discriminate.
Qed.

Lemma boardCopy_valid bm gi g0 :
  Inv [] bm -> gi < 81 -> g0 < 9 -> valid_board (boardCopy bm gi (S g0)).
Proof.
  intros HI Hgi Hg0. unfold boardCopy. rewrite guessChar_symbol.
  apply valid_setCell; auto. eapply Inv_valid; eauto.
Qed.

(** ** The states a solving attempt goes through *)

(** States from which a pass is run: the freshly constructed instance,
    or the instance after a pass that changed some square. *)
Inductive propagating (b : Board) : BoardMap -> Prop :=
| pg_new : valid_board b -> propagating b (newBoardMap b)
| pg_pass bm updated st bm' :
    propagating b bm ->
    reduceOptions [] bm = (updated, st, bm') -> 0 < updated ->
    propagating b bm'.

(** States at the head of the search loop: after the pass that changed
    nothing, or after the retraction of a guess whose attempt failed. *)
Inductive searching (b : Board) : BoardMap -> Prop :=
| sr_enter bm st bm' :
    propagating b bm -> reduceOptions [] bm = (0, st, bm') ->
    searching b bm'
| sr_retract bm guessIndex n sub :
    searching b bm -> unsolved bm <> [] ->
    selectGuess bm = Some guessIndex ->
    solveBoard n (boardCopy bm guessIndex (firstGuess bm guessIndex))
      = Some sub ->
    result sub = false ->
    searching b (retract bm guessIndex (firstGuess bm guessIndex)).

Lemma newBoardMap_Complete b s :
  valid_board b -> solution s -> extends b s -> Complete [] (newBoardMap b) s.
Proof.
  intros Hv Hs Hext. pose proof (newBoardMap_inv b Hv) as HI.
  split.
  - now rewrite newBoardMap_board.
  - intros i k Hi _ Hk Hsk.
    assert (Hi81 : i < 81) by (eapply inv_bound; eauto).
    rewrite newBoardMap_511; auto.
    + now apply has_511.
    + rewrite <- (newBoardMap_board b Hv) at 1.
      apply (inv_dot _ _ _ HI); auto.
Qed.

Lemma newBoardMap_DotTracks b : valid_board b -> DotTracks (newBoardMap b).
Proof.
  intros Hv i Hi Hd. rewrite newBoardMap_board in Hd by auto.
  rewrite newBoardMap_511 by auto. discriminate.
Qed.

Lemma propagating_facts b bm :
  propagating b bm ->
  Inv [] bm /\ extends b (board bm) /\
  (Consistent b -> Consistent (board bm)) /\
  (forall s, solution s -> extends b s -> Complete [] bm s) /\
  DotTracks bm.
Proof.
  induction 1 as [Hv|bm updated st bm' Hp IH E Hpos].
  - split; [now apply newBoardMap_inv|].
    rewrite newBoardMap_board by auto.
    split; [apply extends_refl|]. split; [auto|].
    split; [intros; now apply newBoardMap_Complete|].
    now apply newBoardMap_DotTracks.
  - destruct IH as (HI & Hext & Hc & HC & HT).
    destruct (reduceOptions_Inv _ _ _ _ HI E) as [_ HI'].
    destruct (reduceOptions_keeps _ _ _ _ HI E) as (K1 & K2 & K3 & K4).
    split; [exact HI'|]. split; [eapply extends_trans; eauto|].
    split; [auto|]. split; [auto|]. auto.
Qed.

Lemma searching_enter_facts b bm st bm' :
  propagating b bm -> reduceOptions [] bm = (0, st, bm') ->
  bm' = bm /\ Stable bm'.
Proof.
  intros Hp E. destruct (propagating_facts _ _ Hp) as (HI & _).
  destruct (reduceOptions_count _ _ _ _ HI E) as (_ & _ & H0).
  destruct (H0 eq_refl) as [-> HS]. auto.
Qed.

Lemma searching_facts b bm :
  searching b bm ->
  Inv [] bm /\ Stable bm /\ extends b (board bm) /\
  (Consistent b -> Consistent (board bm)).
Proof.
  induction 1 as [bm st bm' Hp E|bm gi n sub Hs IH Hne Hsel Hsub Hres].
  - destruct (searching_enter_facts _ _ _ _ Hp E) as [-> HS].
    destruct (propagating_facts _ _ Hp) as (HI & Hext & Hc & _).
    auto.
  - destruct IH as (HI & HS & Hext & Hc).
    pose proof (first_minimum_In _ _
                  (selectGuess_first_minimum _ _ HI HS Hne Hsel)) as Hin.
    split; [now apply retract_Inv|]. split; [now apply retract_Stable|].
    rewrite retract_board. auto.
Qed.

(** The propagation loop runs passes from propagating states and stops
    after the first pass that changes nothing. *)
Lemma propagate_searching b n bm st bm' :
  propagating b bm -> propagate n [] bm = Some (st, bm') ->
  st = [] /\ searching b bm'.
Proof.
  revert bm; induction n as [|n IH]; cbn [propagate]; intros bm Hp E;
    [discriminate|].
  destruct (reduceOptions [] bm) as [[u s1] bm1] eqn:Er.
  destruct (propagating_facts _ _ Hp) as (HI & _).
  destruct (reduceOptions_Inv _ _ _ _ HI Er) as [-> _].
  destruct (Nat.ltb_spec 0 u) as [Hpos|Hz].
  - apply (IH bm1); auto. eapply pg_pass; eauto.
  - injection E as <- <-. split; auto.
    assert (u = 0) by lia. subst u. eapply sr_enter; eauto.
Qed.

(** ** The static set across a run *)

Lemma reduceOptions_static solved bm updated st bm' :
  reduceOptions solved bm = (updated, st, bm') -> st = [].
Proof.
  rewrite reduceOptions_eq. cbv zeta. intros E. now injection E as _ <- _.
Qed.

Lemma propagate_static n solved bm st bm' :
  propagate n solved bm = Some (st, bm') -> st = [].
Proof.
  revert solved bm; induction n as [|n IH]; cbn [propagate];
    intros solved bm E; [discriminate|].
  destruct (reduceOptions solved bm) as [[u s1] bm1] eqn:Er.
  destruct (0 <? u).
  - eapply IH; eauto.
  - injection E as <- _. eapply reduceOptions_static; eauto.
Qed.

Lemma search_static attempt :
  (forall s b sub, attempt s b = Some sub -> static_solved sub = []) ->
  forall n bm o, search attempt n [] bm = Some o -> static_solved o = [].
Proof.
  intros Hatt. induction n as [|n IH]; cbn [search]; intros bm o E;
    [discriminate|].
  destruct (USet.is_empty (unsolved bm)); [now injection E as <-|].
  destruct (selectGuess bm) as [gi|]; [|now injection E as <-].
  destruct (attempt [] (boardCopy bm gi (firstGuess bm gi)))
    as [sub|] eqn:Ea; [|discriminate].
  pose proof (Hatt _ _ _ Ea) as Hs.
  destruct (result sub).
  - injection E as <-. exact Hs.
  - rewrite Hs in E.
    destruct (search attempt n [] (retract bm gi (firstGuess bm gi)))
      as [o'|] eqn:Es; [|discriminate].
    cbn [logGuesses] in E. injection E as <-. cbn [static_solved].
    eapply IH; eauto.
Qed.

Lemma solve_static n solved bm o :
  solve n solved bm = Some o -> static_solved o = [].
Proof.
  revert solved bm o; induction n as [|n IH]; cbn [solve];
    intros solved bm o E; [discriminate|].
  destruct (propagate n solved bm) as [[s' bm']|] eqn:Ep; [|discriminate].
  rewrite (propagate_static _ _ _ _ _ Ep) in E.
  eapply search_static; [|exact E].
  intros s b sub. apply IH.
Qed.

(** ** Induction over a run of [solve]

    [Q] is proved of every run of the search loop from a state at its
    head, [P] of every run of [solve] on a valid board. *)
Section SolveInd.
Variable P : Board -> Outcome -> Prop.
Variable Q : Board -> BoardMap -> Outcome -> Prop.

Hypothesis H_done : forall b bm,
    searching b bm -> unsolved bm = [] ->
    Q b bm (mkOutcome true bm [] []).

Hypothesis H_dead : forall b bm,
    searching b bm -> unsolved bm <> [] -> selectGuess bm = None ->
    Q b bm (mkOutcome false bm [] []).

Hypothesis H_hit : forall b bm gi g0 sub,
    searching b bm -> unsolved bm <> [] ->
    selectGuess bm = Some gi -> firstGuess bm gi = S g0 -> g0 < 9 ->
    valid_board (boardCopy bm gi (S g0)) ->
    P (boardCopy bm gi (S g0)) sub -> result sub = true ->
    Q b bm (mkOutcome true (set_board bm (board (final sub))) []
                      ((gi, S g0) :: guesses sub)).

Hypothesis H_miss : forall b bm gi g0 sub o,
    searching b bm -> unsolved bm <> [] ->
    selectGuess bm = Some gi -> firstGuess bm gi = S g0 -> g0 < 9 ->
    valid_board (boardCopy bm gi (S g0)) ->
    P (boardCopy bm gi (S g0)) sub -> result sub = false ->
    searching b (retract bm gi (S g0)) ->
    Q b (retract bm gi (S g0)) o ->
    Q b bm (mkOutcome (result o) (final o) (static_solved o)
                      (((gi, S g0) :: guesses sub) ++ guesses o)).

Hypothesis H_solve : forall b n bm o,
    valid_board b ->
    propagate n [] (newBoardMap b) = Some ([], bm) ->
    searching b bm -> Q b bm o -> P b o.

Lemma search_ind_aux n b :
  (forall b' sub, valid_board b' -> solveBoard n b' = Some sub ->
                  P b' sub) ->
  forall m bm o,
    searching b bm ->
    search (fun s b' => solve n s (newBoardMap b')) m [] bm = Some o ->
    Q b bm o.
Proof.
  intros IHn. induction m as [|m IH]; cbn [search]; intros bm o Hs E;
    [discriminate|].
  destruct (searching_facts _ _ Hs) as (HI & HS & _).
  destruct (unsolved bm) as [|u0 U] eqn:EU.
  - cbn [USet.is_empty] in E. injection E as <-. now apply H_done.
  - cbn [USet.is_empty] in E.
    assert (Hne : unsolved bm <> []) by (rewrite EU; discriminate).
    destruct (selectGuess bm) as [gi|] eqn:Esel.
    + pose proof (selectGuess_first_minimum _ _ HI HS Hne Esel) as Hfm.
      pose proof (first_minimum_In _ _ Hfm) as Hin.
      assert (Hgi : gi < 81) by (eapply inv_bound; eauto).
      pose proof (selectGuess_nonzero _ _ HI HS Hne Esel) as Hnz.
      destruct (firstGuess_spec bm gi HI Hgi Hnz) as (g0 & Eg & Hg0 & _).
      pose proof (boardCopy_valid bm gi g0 HI Hgi Hg0) as Hv.
      destruct (solve n [] (newBoardMap (boardCopy bm gi (firstGuess bm gi))))
        as [sub|] eqn:Ea; [|discriminate].
      pose proof (solve_static _ _ _ _ Ea) as Hst.
      assert (Hsub : solveBoard n (boardCopy bm gi (firstGuess bm gi))
                     = Some sub) by exact Ea.
      destruct (result sub) eqn:Er.
      * injection E as <-. rewrite Hst, Eg. rewrite Eg in Hsub.
        apply H_hit; auto.
      * rewrite Hst in E.
        destruct (search (fun s b' => solve n s (newBoardMap b')) m []
                         (retract bm gi (firstGuess bm gi)))
          as [o'|] eqn:Es; [|discriminate].
        cbn [logGuesses] in E. injection E as <-.
        assert (Hs' : searching b (retract bm gi (firstGuess bm gi))).
        { eapply sr_retract; eauto. }
        pose proof (IH _ _ Hs' Es) as HQ.
        rewrite Eg in *. apply H_miss; auto.
    + injection E as <-. now apply H_dead.
Qed.

Theorem solve_ind n b o :
  valid_board b -> solveBoard n b = Some o -> P b o.
Proof.
  revert b o; induction n as [|n IH]; intros b o Hv E;
    [discriminate|].
  unfold solveBoard in E. cbn [solve] in E.
  destruct (propagate n USet.empty (newBoardMap b))
    as [[s' bm']|] eqn:Ep; [|discriminate].
  destruct (propagate_searching b n _ _ _ (pg_new b Hv) Ep) as [-> Hs].
  apply (H_solve b n bm' o Hv Ep Hs).
  eapply search_ind_aux; eauto.
Qed.
End SolveInd.

(** ** Solved boards *)

(** The squares of group [g] under the grouping [gidx], in index order. *)
Definition groupCells (gidx : nat -> nat) (g : nat) : list nat :=
  filter (fun i => gidx i =? g) (seq 0 81).

(** Each of the nine symbols occurs exactly once in the group. *)
Definition group_complete (b : Board) (gidx : nat -> nat) (g : nat) : Prop :=
  forall k, k < 9 ->
    count_occ ascii_dec (map (cell b) (groupCells gidx g)) (symbol k) = 1.

(** Every row, every column and every block holds each symbol exactly
    once, and no square is empty. *)
Definition solved_board (b : Board) : Prop :=
  (forall i, i < 81 -> cell b i <> dot) /\
  forall g, g < 9 ->
    group_complete b rowIndex g /\ group_complete b columnIndex g /\
    group_complete b blockIndex g.

(** [s] is a solved board that keeps the clues of [b]. *)
Definition completes (b s : Board) : Prop :=
  valid_board s /\ solved_board s /\ extends b s.

Lemma In_groupCells gidx g i :
  In i (groupCells gidx g) <-> i < 81 /\ gidx i = g.
Proof.
  unfold groupCells. rewrite filter_In, in_seq, Nat.eqb_eq. intuition lia.
Qed.

Lemma NoDup_groupCells gidx g : NoDup (groupCells gidx g).
Proof. apply NoDup_filter, seq_NoDup. Qed.

Lemma length_groupCells g :
  g < 9 ->
  length (groupCells rowIndex g) = 9 /\
  length (groupCells columnIndex g) = 9 /\
  length (groupCells blockIndex g) = 9.
Proof.
  revert g. apply nat_lt9_cases; vm_compute; auto.
Qed.

Opaque groupCells.

Lemma NoDup_map_in {A B} (f : A -> B) (l : list A) :
  NoDup l ->
  (forall x y, In x l -> In y l -> f x = f y -> x = y) ->
  NoDup (map f l).
Proof.
  induction 1 as [|x l Hx Hnd IH]; simpl; intros Hinj; constructor.
  - intros Hin. apply in_map_iff in Hin. destruct Hin as (y & Hy & Hyl).
    assert (y = x) by (apply Hinj; auto). subst. auto.
  - apply IH. intros; apply Hinj; auto.
Qed.

Lemma NoDup_map_inv_in {A B} (f : A -> B) (l : list A) x y :
  NoDup (map f l) -> In x l -> In y l -> f x = f y -> x = y.
Proof.
  induction l as [|z l IH]; simpl; intros Hnd Hx Hy E; [contradiction|].
  inversion Hnd as [|? ? Hz Hnd']; subst.
  destruct Hx as [->|Hx], Hy as [->|Hy]; auto.
  - exfalso. apply Hz. rewrite E. now apply in_map.
  - exfalso. apply Hz. rewrite <- E. now apply in_map.
Qed.

Definition symbols : list ascii := map symbol (seq 0 9).

Lemma In_symbols c : In c symbols <-> exists k, k < 9 /\ c = symbol k.
Proof.
  unfold symbols. rewrite in_map_iff. split.
  - intros (k & <- & Hk). apply in_seq in Hk. exists k. split; [lia|auto].
  - intros (k & Hk & ->). exists k. split; auto. apply in_seq. lia.
Qed.

Lemma group_complete_of_solution s gidx g :
  solution s -> length (groupCells gidx g) = 9 ->
  (forall i j, i < 81 -> j < 81 -> i <> j -> cell s i = cell s j ->
               gidx i <> gidx j) ->
  group_complete s gidx g.
Proof.
  intros Hs Hlen Hdiff k Hk.
  set (L := map (cell s) (groupCells gidx g)).
  assert (Hnd : NoDup L).
  { apply NoDup_map_in; [apply NoDup_groupCells|].
    intros x y Hx Hy E. apply In_groupCells in Hx, Hy.
    destruct Hx as [Hx Hgx], Hy as [Hy Hgy].
    destruct (Nat.eq_dec x y) as [|Hne]; auto.
    exfalso. apply (Hdiff x y); auto. congruence. }
  assert (Hincl : incl L symbols).
  { intros c Hc. apply in_map_iff in Hc. destruct Hc as (i & <- & Hi).
    apply In_groupCells in Hi. apply In_symbols.
    apply solution_symbol; auto. apply Hi. }
  assert (Hincl' : incl symbols L).
  { apply (NoDup_length_incl Hnd); [|exact Hincl].
    unfold L, symbols. rewrite !length_map, length_seq, Hlen. lia. }
  assert (Hin : In (symbol k) L).
  { apply Hincl'. apply In_symbols. eauto. }
  now apply NoDup_count_occ'.
Qed.

Lemma solution_solved s : solution s -> solved_board s.
Proof.
  intros Hs. pose proof Hs as (Hv & Hnd & Hc).
  split; [exact Hnd|]. intros g Hg.
  destruct (length_groupCells g Hg) as (L1 & L2 & L3).
  repeat split; apply group_complete_of_solution; auto;
    intros i j Hi Hj Hne E; apply (Hc i j Hi Hj Hne (Hnd i Hi) E).
Qed.

Lemma group_complete_distinct s gidx g i j :
  valid_board s -> (forall i, i < 81 -> cell s i <> dot) ->
  group_complete s gidx g ->
  i < 81 -> j < 81 -> gidx i = g -> gidx j = g ->
  cell s i = cell s j -> i = j.
Proof.
  intros [_ Hv] Hnd Hg Hi Hj Hgi Hgj E.
  apply (NoDup_map_inv_in (cell s) (groupCells gidx g));
    [|apply In_groupCells; split; assumption
     |apply In_groupCells; split; assumption|exact E].
  apply NoDup_count_occ with (decA := ascii_dec). intros c.
  destruct (in_dec ascii_dec c (map (cell s) (groupCells gidx g)))
    as [Hin|Hout].
  - apply in_map_iff in Hin. destruct Hin as (x & <- & Hx).
    apply In_groupCells in Hx. destruct Hx as [Hx _].
    destruct (Hv x Hx) as [Hd|(k & Hk & Hs)]; [now destruct (Hnd x Hx)|].
    rewrite Hs, (Hg k Hk). apply Nat.le_refl.
  - apply (count_occ_not_In ascii_dec) in Hout. rewrite Hout. apply Nat.le_0_l.
Qed.

Lemma solved_solution s : valid_board s -> solved_board s -> solution s.
Proof.
  intros Hv [Hnd Hg]. split; [exact Hv|]. split; [exact Hnd|].
  intros i j Hi Hj Hne _ E.
  destruct (Hg _ (rowIndex_lt i Hi)) as (G1 & _ & _).
  destruct (Hg _ (columnIndex_lt i)) as (_ & G2 & _).
  destruct (Hg _ (blockIndex_lt i Hi)) as (_ & _ & G3).
  repeat split; intros Eg; apply Hne.
  - now apply (group_complete_distinct s rowIndex (rowIndex i) i j Hv Hnd G1).
  - now apply (group_complete_distinct s columnIndex (columnIndex i) i j
                 Hv Hnd G2).
  - now apply (group_complete_distinct s blockIndex (blockIndex i) i j
                 Hv Hnd G3).
Qed.

Lemma completes_solution b s :
  completes b s <-> solution s /\ extends b s.
Proof.
  unfold completes. split.
  - intros (Hv & Hs & He). split; auto. now apply solved_solution.
  - intros (Hs & He). split; [apply Hs|]. split; auto.
    now apply solution_solved.
Qed.

(** ** Correctness of a run *)

Lemma propagate_propagating b n bm st bm' :
  propagating b bm -> propagate n [] bm = Some (st, bm') ->
  propagating b bm'.
Proof.
  revert bm; induction n as [|n IH]; cbn [propagate]; intros bm Hp E;
    [discriminate|].
  destruct (reduceOptions [] bm) as [[u s1] bm1] eqn:Er.
  destruct (propagating_facts _ _ Hp) as (HI & _).
  destruct (reduceOptions_Inv _ _ _ _ HI Er) as [-> _].
  destruct (Nat.ltb_spec 0 u) as [Hpos|Hz].
  - apply (IH bm1); auto. eapply pg_pass; eauto.
  - injection E as <- <-. assert (u = 0) by lia. subst u.
    destruct (searching_enter_facts _ _ _ _ Hp Er) as [-> _]. exact Hp.
Qed.

(** What is known of the guess made at the head of the search loop. *)
Lemma guess_facts b bm gi g0 :
  searching b bm -> unsolved bm <> [] ->
  selectGuess bm = Some gi -> firstGuess bm gi = S g0 ->
  In gi (unsolved bm) /\ gi < 81 /\ g0 < 9 /\
  cell (board bm) gi = dot /\
  has (nth gi (squares bm) 0%Z) g0 = true /\
  (forall j, j < g0 -> has (nth gi (squares bm) 0%Z) j = false) /\
  (forall j, j < 81 -> cell (board bm) j = symbol g0 ->
     rowIndex j <> rowIndex gi /\ columnIndex j <> columnIndex gi /\
     blockIndex j <> blockIndex gi).
Proof.
  intros Hs Hne Hsel Hg.
  destruct (searching_facts _ _ Hs) as (HI & HS & _).
  pose proof (first_minimum_In _ _
                (selectGuess_first_minimum _ _ HI HS Hne Hsel)) as Hin.
  assert (Hgi : gi < 81) by (eapply inv_bound; eauto).
  pose proof (selectGuess_nonzero _ _ HI HS Hne Hsel) as Hnz.
  destruct (firstGuess_spec bm gi HI Hgi Hnz) as (g & Eg & Hg0 & Hh & Hl).
  assert (g = g0) by congruence. subst g.
  split; [exact Hin|]. split; [exact Hgi|]. split; [exact Hg0|].
  split; [apply (inv_dot _ _ _ HI); auto|].
  split; [exact Hh|]. split; [exact Hl|].
  destruct (Stable_has bm gi g0 HS Hin Hh) as (A & B & C).
  now apply (free_of_groups _ _ gi g0 HI).
Qed.

Lemma boardCopy_extends b bm gi g0 :
  searching b bm -> unsolved bm <> [] ->
  selectGuess bm = Some gi -> firstGuess bm gi = S g0 ->
  extends (board bm) (boardCopy bm gi (S g0)).
Proof.
  intros Hs Hne Hsel Hg.
  destruct (guess_facts _ _ _ _ Hs Hne Hsel Hg) as (_ & Hgi & _ & Hd & _).
  destruct (searching_facts _ _ Hs) as (HI & _).
  unfold boardCopy. apply extends_setCell; auto. eapply inv_wf; eauto.
Qed.

Lemma boardCopy_Consistent b bm gi g0 :
  searching b bm -> unsolved bm <> [] ->
  selectGuess bm = Some gi -> firstGuess bm gi = S g0 ->
  Consistent (board bm) -> Consistent (boardCopy bm gi (S g0)).
Proof.
  intros Hs Hne Hsel Hg Hc.
  destruct (guess_facts _ _ _ _ Hs Hne Hsel Hg)
    as (_ & Hgi & Hg0 & _ & _ & _ & Hfree).
  destruct (searching_facts _ _ Hs) as (HI & _).
  unfold boardCopy. rewrite guessChar_symbol.
  apply Consistent_setCell; auto. eapply inv_wf; eauto.
Qed.

(** A solution of the board either takes the guess, and completes the
    copy, or survives the retraction of the guess. *)
Lemma Complete_guess b bm gi g0 s :
  searching b bm -> unsolved bm <> [] ->
  selectGuess bm = Some gi -> firstGuess bm gi = S g0 ->
  solution s -> Complete [] bm s ->
  extends (boardCopy bm gi (S g0)) s \/
  Complete [] (retract bm gi (S g0)) s.
Proof.
  intros Hs Hne Hsel Hg Hsol [Hext Hc].
  destruct (guess_facts _ _ _ _ Hs Hne Hsel Hg)
    as (Hin & Hgi & Hg0 & Hd & _).
  destruct (searching_facts _ _ Hs) as (HI & _).
  assert (Hwf : wf_board (board bm)) by (eapply inv_wf; eauto).
  destruct (solution_symbol s gi Hsol Hgi) as (k & Hk & Hsk).
  destruct (Nat.eq_dec k g0) as [->|Hkne].
  - left. unfold boardCopy. rewrite guessChar_symbol. intros i Hi.
    destruct (Nat.eq_dec gi i) as [<-|Hne'].
    + now rewrite cell_setCell_eq.
    + rewrite cell_setCell_neq by auto. auto.
  - right. split; [exact Hext|].
    rewrite retract_unsolved. intros i k' Hi Hns Hk' Hsk'.
    unfold retract, set_square. cbn [squares].
    destruct (Nat.eq_dec gi i) as [<-|Hne'].
    + rewrite nth_upd_eq by now rewrite (inv_len _ _ _ HI).
      replace (S g0 - 1) with g0 by lia. fold (bit g0).
      rewrite has_land, has_lnot, has_bit, (Hc gi k') by auto.
      assert (k' = k).
      { apply symbol_inj; auto. congruence. }
      subst k'. destruct (Nat.eqb_spec g0 k); [congruence|reflexivity].
    + rewrite nth_upd_neq by auto. auto.
Qed.

Definition nodots (b : Board) : Prop := forall i, i < 81 -> cell b i <> dot.

(** The outcome of a run on a valid board. *)
Theorem solve_correct n b o :
  valid_board b -> solveBoard n b = Some o ->
  valid_board (board (final o)) /\
  extends b (board (final o)) /\
  (result o = true ->
     nodots (board (final o)) /\
     (Consistent b -> Consistent (board (final o)))) /\
  (result o = false -> forall s, solution s -> extends b s -> False).
Proof.
  apply (solve_ind
    (fun b o =>
       valid_board (board (final o)) /\
       extends b (board (final o)) /\
       (result o = true ->
          nodots (board (final o)) /\
          (Consistent b -> Consistent (board (final o)))) /\
       (result o = false -> forall s, solution s -> extends b s -> False))
    (fun b bm o =>
       valid_board (board (final o)) /\
       extends (board bm) (board (final o)) /\
       (result o = true ->
          nodots (board (final o)) /\
          (Consistent (board bm) -> Consistent (board (final o)))) /\
       (result o = false ->
          forall s, solution s -> Complete [] bm s -> False))).
  - (* nothing left to solve *)
    intros b0 bm Hs HU. destruct (searching_facts _ _ Hs) as (HI & _).
    cbn [result final]. split; [eapply Inv_valid; eauto|].
    split; [apply extends_refl|]. split; [|discriminate].
    intros _. split; [|auto].
    intros i Hi Hd. apply (inv_dot _ _ _ HI) in Hd; auto.
    rewrite HU in Hd. now destruct Hd as [[] _].
  - (* a square without candidates *)
    intros b0 bm Hs Hne Hsel. destruct (searching_facts _ _ Hs) as (HI & _).
    cbn [result final]. split; [eapply Inv_valid; eauto|].
    split; [apply extends_refl|]. split; [discriminate|].
    intros _ s Hsol [Hext Hc].
    apply selectGuess_None in Hsel. destruct Hsel as (i & Hi & Hz).
    assert (Hi81 : i < 81) by (eapply inv_bound; eauto).
    unfold numPossibilities in Hz.
    apply countBits_0 in Hz; [|eapply inv_mask; eauto].
    destruct (solution_symbol s i Hsol Hi81) as (k & Hk & Hsk).
    specialize (Hc i k Hi (fun x => x) Hk Hsk).
    rewrite Hz, has_0 in Hc. discriminate.
  - (* the guess succeeded *)
    intros b0 bm gi g0 sub Hs Hne Hsel Hg Hg0 Hv (P1 & P2 & P3 & _) Hres.
    cbn [result final board set_board].
    pose proof (boardCopy_extends _ _ _ _ Hs Hne Hsel Hg) as Hext.
    split; [exact P1|]. split; [eapply extends_trans; eauto|].
    split; [|discriminate]. intros _. destruct (P3 Hres) as [N C].
    split; [exact N|]. intros Hc. apply C.
    eapply boardCopy_Consistent; eauto.
  - (* the guess failed and was retracted *)
    intros b0 bm gi g0 sub o' Hs Hne Hsel Hg Hg0 Hv (_ & _ & _ & P4) Hres
           Hs' (Q1 & Q2 & Q3 & Q4).
    cbn [result final]. rewrite retract_board in Q2, Q3.
    split; [exact Q1|]. split; [exact Q2|]. split; [exact Q3|].
    intros Hr s Hsol HC.
    destruct (Complete_guess _ _ _ _ s Hs Hne Hsel Hg Hsol HC) as [H|H].
    + exact (P4 Hres s Hsol H).
    + exact (Q4 Hr s Hsol H).
  - (* the whole call *)
    intros b0 m bm o' Hv Hp Hs (Q1 & Q2 & Q3 & Q4).
    destruct (searching_facts _ _ Hs) as (_ & _ & Hext & Hc).
    pose proof (propagate_propagating b0 m _ _ _ (pg_new b0 Hv) Hp) as Hpg.
    destruct (propagating_facts _ _ Hpg) as (_ & _ & _ & HC & _).
    split; [exact Q1|]. split; [eapply extends_trans; eauto|]. split.
    + intros Hr. destruct (Q3 Hr) as [N C]. split; [exact N|]. auto.
    + intros Hr s Hsol He. exact (Q4 Hr s Hsol (HC s Hsol He)).
Qed.

(** ** More fuel does not change a run *)

Lemma propagate_mono n m solved bm r :
  propagate n solved bm = Some r -> n <= m -> propagate m solved bm = Some r.
Proof.
  revert m solved bm; induction n as [|n IH]; cbn [propagate];
    intros m solved bm E Hle; [discriminate|].
  destruct m as [|m]; [lia|]. cbn [propagate].
  destruct (reduceOptions solved bm) as [[u s1] bm1].
  destruct (0 <? u); auto. apply IH; auto. lia.
Qed.

Lemma search_mono att att' :
  (forall s b r, att s b = Some r -> att' s b = Some r) ->
  forall n m solved bm r,
    search att n solved bm = Some r -> n <= m ->
    search att' m solved bm = Some r.
Proof.
  intros Hatt. induction n as [|n IH]; cbn [search];
    intros m solved bm r E Hle; [discriminate|].
  destruct m as [|m]; [lia|]. cbn [search].
  destruct (USet.is_empty (unsolved bm)); auto.
  destruct (selectGuess bm) as [gi|]; auto.
  destruct (att solved (boardCopy bm gi (firstGuess bm gi))) as [sub|] eqn:Ea;
    [|discriminate].
  rewrite (Hatt _ _ _ Ea).
  destruct (result sub); auto.
  destruct (search att n (static_solved sub)
                   (retract bm gi (firstGuess bm gi))) as [o'|] eqn:Es;
    [|discriminate].
  rewrite (IH m _ _ _ Es) by lia. exact E.
Qed.

Lemma solve_mono n m solved bm r :
  solve n solved bm = Some r -> n <= m -> solve m solved bm = Some r.
Proof.
  revert m solved bm r; induction n as [|n IH]; cbn [solve];
    intros m solved bm r E Hle; [discriminate|].
  destruct m as [|m]; [lia|]. cbn [solve].
  destruct (propagate n solved bm) as [[s' bm']|] eqn:Ep; [|discriminate].
  rewrite (propagate_mono n m _ _ _ Ep) by lia.
  eapply search_mono; [|exact E|lia].
  intros s b r' Hr. apply (IH m); auto. lia.
Qed.

(** ** Termination *)

(** Candidates left over all squares, and empty squares of a board. *)
Definition totalBits (bm : BoardMap) : nat :=
  list_sum (map (fun i => countBits (nth i (squares bm) 0%Z)) (seq 0 81)).

Definition empties (b : Board) : nat :=
  list_sum (map (fun i => if Ascii.eqb (cell b i) dot then 1 else 0)
                (seq 0 81)).

Lemma list_sum_le (f g : nat -> nat) l :
  (forall i, In i l -> f i <= g i) ->
  list_sum (map f l) <= list_sum (map g l).
Proof.
  induction l as [|x l IH]; simpl; intros H; auto.
  pose proof (H x (or_introl eq_refl)). 
  assert (list_sum (map f l) <= list_sum (map g l)) by (apply IH; auto).
  lia.
Qed.

Lemma list_sum_lt (f g : nat -> nat) l x :
  (forall i, In i l -> f i <= g i) -> In x l -> f x < g x ->
  list_sum (map f l) < list_sum (map g l).
Proof.
  induction l as [|y l IH]; simpl; intros H Hx Hlt; [contradiction|].
  pose proof (H y (or_introl eq_refl)).
  assert (Hle : list_sum (map f l) <= list_sum (map g l))
    by (apply list_sum_le; auto).
  destruct Hx as [->|Hx]; [lia|].
  assert (list_sum (map f l) < list_sum (map g l)) by (apply IH; auto).
  lia.
Qed.

Lemma list_sum_const c l : list_sum (map (fun _ : nat => c) l) = c * length l.
Proof. induction l as [|x l IH]; simpl; lia. Qed.

Lemma totalBits_bound st bm : Inv st bm -> totalBits bm <= 729.
Proof.
  intros HI. unfold totalBits.
  apply Nat.le_trans with (list_sum (map (fun _ => 9) (seq 0 81))).
  - apply list_sum_le. intros i Hi. apply in_seq in Hi.
    apply countBits_le9. eapply inv_mask; eauto. lia.
  - rewrite list_sum_const, length_seq. lia.
Qed.

Lemma empties_bound b : empties b <= 81.
Proof.
  unfold empties.
  apply Nat.le_trans with (list_sum (map (fun _ => 1) (seq 0 81))).
  - apply list_sum_le. intros i _. destruct (Ascii.eqb (cell b i) dot); lia.
  - rewrite list_sum_const, length_seq. lia.
Qed.

Lemma empties_extends b b' : extends b b' -> empties b' <= empties b.
Proof.
  intros He. apply list_sum_le. intros i Hi. apply in_seq in Hi.
  destruct (Ascii.eqb_spec (cell b i) dot) as [E|E].
  - destruct (Ascii.eqb (cell b' i) dot); lia.
  - rewrite He by (auto; lia).
    destruct (Ascii.eqb_spec (cell b i) dot); [congruence|lia].
Qed.

Lemma empties_setCell b i k :
  wf_board b -> i < 81 -> k < 9 -> cell b i = dot ->
  empties (setCell b (rowIndex i) (columnIndex i) (symbol k)) < empties b.
Proof.
  intros Hwf Hi Hk Hd. apply list_sum_lt with (x := i).
  - intros j Hj. destruct (Nat.eq_dec i j) as [<-|Hne].
    + rewrite Hd, Ascii.eqb_refl.
      destruct (Ascii.eqb (cell (setCell b (rowIndex i) (columnIndex i)
                                         (symbol k)) i) dot); lia.
    + rewrite cell_setCell_neq by auto. lia.
  - apply in_seq. lia.
  - rewrite cell_setCell_eq, Hd, Ascii.eqb_refl by auto.
    destruct (Ascii.eqb_spec (symbol k) dot) as [E|E]; [|lia].
    now apply symbol_neq_dot in E.
Qed.

Lemma totalBits_shrinks bm bm' :
  Inv [] bm -> Inv [] bm' ->
  (forall i, shrinks (nth i (squares bm') 0%Z) (nth i (squares bm) 0%Z)) ->
  totalBits bm' <= totalBits bm /\
  forall x, x < 81 -> nth x (squares bm') 0%Z <> nth x (squares bm) 0%Z ->
            totalBits bm' < totalBits bm.
Proof.
  intros HI HI' Hsh.
  assert (Hle : forall i, In i (seq 0 81) ->
            countBits (nth i (squares bm') 0%Z)
            <= countBits (nth i (squares bm) 0%Z)).
  { intros i Hi. apply in_seq in Hi.
    apply countBits_shrinks; auto; eapply inv_mask; eauto; lia. }
  split.
  - now apply list_sum_le.
  - intros x Hx Hne. apply list_sum_lt with (x := x); auto.
    + apply in_seq. lia.
    + apply countBits_shrinks; auto; eapply inv_mask; eauto.
Qed.

(** A pass that counts a change removes a candidate. *)
Lemma reduceOptions_decreases bm updated st bm' :
  Inv [] bm -> reduceOptions [] bm = (updated, st, bm') -> 0 < updated ->
  totalBits bm' < totalBits bm.
Proof.
  intros HI E Hpos.
  destruct (reduceOptions_Inv _ _ _ _ HI E) as [_ HI'].
  destruct (reduceOptions_count _ _ _ _ HI E) as (Hc & _ & _).
  destruct (filter (changed (squares bm) (squares bm')) (unsolved bm))
    as [|x l] eqn:Ef; [simpl in Hc; lia|].
  assert (Hx : In x (filter (changed (squares bm) (squares bm'))
                            (unsolved bm))) by (rewrite Ef; now left).
  apply filter_In in Hx. destruct Hx as [Hx Hch].
  unfold changed in Hch. apply negb_true_iff, Z.eqb_neq in Hch.
  assert (Hsh : forall i, shrinks (nth i (squares bm') 0%Z)
                                 (nth i (squares bm) 0%Z)).
  { intros i. eapply reduceOptions_shrinks; eauto. }
  destruct (totalBits_shrinks bm bm' HI HI' Hsh) as [_ H].
  apply (H x); [|congruence]. exact (inv_bound _ _ _ HI x Hx).
Qed.

Lemma propagate_terminates n bm :
  Inv [] bm -> totalBits bm < n ->
  exists bm', propagate n [] bm = Some ([], bm').
Proof.
  revert bm; induction n as [|n IH]; intros bm HI Hlt; [lia|].
  cbn [propagate].
  destruct (reduceOptions [] bm) as [[u s1] bm1] eqn:Er.
  destruct (reduceOptions_Inv _ _ _ _ HI Er) as [-> HI'].
  destruct (Nat.ltb_spec 0 u) as [Hpos|Hz].
  - apply IH; auto.
    pose proof (reduceOptions_decreases _ _ _ _ HI Er Hpos). lia.
  - eauto.
Qed.

Lemma retract_decreases b bm gi g0 :
  searching b bm -> unsolved bm <> [] ->
  selectGuess bm = Some gi -> firstGuess bm gi = S g0 ->
  totalBits (retract bm gi (S g0)) < totalBits bm.
Proof.
  intros Hs Hne Hsel Hg.
  destruct (guess_facts _ _ _ _ Hs Hne Hsel Hg)
    as (Hin & Hgi & Hg0 & _ & Hh & _).
  destruct (searching_facts _ _ Hs) as (HI & _).
  destruct (totalBits_shrinks bm (retract bm gi (S g0)) HI) as [_ H].
  - now apply retract_Inv.
  - intros i. apply retract_shrinks.
  - apply (H gi Hgi).
    intros E. pose proof (retract_count bm gi g0 HI Hgi Hg0 Hh) as Hlt.
    unfold numPossibilities in Hlt. rewrite E in Hlt. lia.
Qed.

Lemma boardCopy_empties b bm gi g0 :
  searching b bm -> unsolved bm <> [] ->
  selectGuess bm = Some gi -> firstGuess bm gi = S g0 ->
  empties (boardCopy bm gi (S g0)) < empties (board bm).
Proof.
  intros Hs Hne Hsel Hg.
  destruct (guess_facts _ _ _ _ Hs Hne Hsel Hg)
    as (Hin & Hgi & Hg0 & Hd & _).
  destruct (searching_facts _ _ Hs) as (HI & _).
  unfold boardCopy. rewrite guessChar_symbol.
  apply empties_setCell; auto. eapply inv_wf; eauto.
Qed.

Lemma search_terminates f b k :
  (forall b', valid_board b' -> empties b' < k ->
              exists sub, solveBoard f b' = Some sub) ->
  forall m bm,
    searching b bm -> empties (board bm) <= k -> totalBits bm < m ->
    exists o, search (fun s b' => solve f s (newBoardMap b')) m [] bm
              = Some o.
Proof.
  intros Hatt. induction m as [|m IH]; intros bm Hs Hk Hlt; [lia|].
  cbn [search].
  destruct (searching_facts _ _ Hs) as (HI & HS & _).
  destruct (unsolved bm) as [|u0 U] eqn:EU; cbn [USet.is_empty]; [eauto|].
  assert (Hne : unsolved bm <> []) by (rewrite EU; discriminate).
  destruct (selectGuess bm) as [gi|] eqn:Esel; [|eauto].
  pose proof (first_minimum_In _ _
                (selectGuess_first_minimum _ _ HI HS Hne Esel)) as Hin.
  assert (Hgi : gi < 81) by (eapply inv_bound; eauto).
  pose proof (selectGuess_nonzero _ _ HI HS Hne Esel) as Hnz.
  destruct (firstGuess_spec bm gi HI Hgi Hnz) as (g0 & Eg & Hg0 & _).
  pose proof (boardCopy_valid bm gi g0 HI Hgi Hg0) as Hv.
  pose proof (boardCopy_empties _ _ _ _ Hs Hne Esel Eg) as He.
  rewrite Eg.
  destruct (Hatt _ Hv ltac:(lia)) as [sub Hsub].
  unfold solveBoard in Hsub. cbn [USet.empty] in Hsub.
  change USet.empty with (@nil nat) in Hsub. rewrite Hsub.
  rewrite (solve_static _ _ _ _ Hsub).
  destruct (result sub) eqn:Er; [eauto|].
  assert (Hs' : searching b (retract bm gi (S g0))).
  { rewrite <- Eg. eapply sr_retract; eauto.
    - rewrite Eg. exact Hsub.  }
  pose proof (retract_decreases _ _ _ _ Hs Hne Esel Eg) as Hdec.
  destruct (IH _ Hs') as [o' Ho'].
  - now rewrite retract_board.
  - lia.
  - rewrite Ho'. cbn [logGuesses]. eauto.
Qed.

Lemma solve_terminates_aux k :
  forall b n, valid_board b -> empties b < k -> 730 + k <= n ->
              exists o, solveBoard n b = Some o.
Proof.
  induction k as [|k IH]; intros b n Hv Hk Hn; [lia|].
  destruct n as [|f]; [lia|].
  unfold solveBoard. cbn [solve].
  pose proof (newBoardMap_inv b Hv) as HI.
  destruct (propagate_terminates f (newBoardMap b) HI) as [bm Hp].
  { pose proof (totalBits_bound _ _ HI). lia. }
  change USet.empty with (@nil nat). rewrite Hp.
  destruct (propagate_searching b f _ _ _ (pg_new b Hv) Hp) as [_ Hs].
  destruct (searching_facts _ _ Hs) as (HI' & _ & Hext & _).
  apply (search_terminates f b k).
  - intros b' Hv' He'. apply IH; auto. lia.
  - exact Hs.
  - pose proof (empties_extends _ _ Hext). lia.
  - pose proof (totalBits_bound _ _ HI'). lia.
Qed.

(** [solve] returns on every valid board, within a fixed amount of fuel. *)
Theorem solve_terminates b n :
  valid_board b -> 812 <= n -> exists o, solveBoard n b = Some o.
Proof.
  intros Hv Hn. apply (solve_terminates_aux 82); auto.
  pose proof (empties_bound b). lia.
Qed.

(** ** Further facts about runs *)

(** No call of [solve] ever sets a bit of [squares]. *)
Lemma search_shrinks att n solved bm o i :
  search att n solved bm = Some o ->
  shrinks (nth i (squares (final o)) 0%Z) (nth i (squares bm) 0%Z).
Proof.
  revert solved bm o; induction n as [|n IH]; cbn [search];
    intros solved bm o E; [discriminate|].
  destruct (USet.is_empty (unsolved bm));
    [injection E as <-; apply shrinks_refl|].
  destruct (selectGuess bm) as [gi|];
    [|injection E as <-; apply shrinks_refl].
  destruct (att solved (boardCopy bm gi (firstGuess bm gi))) as [sub|];
    [|discriminate].
  destruct (result sub).
  - injection E as <-. apply shrinks_refl.
  - destruct (search att n (static_solved sub)
                     (retract bm gi (firstGuess bm gi))) as [o'|] eqn:Es;
      [|discriminate].
    cbn [logGuesses] in E. injection E as <-. cbn [final].
    eapply shrinks_trans; [eapply IH; eauto|apply retract_shrinks].
Qed.

Lemma solve_shrinks n solved bm o i :
  solve n solved bm = Some o ->
  shrinks (nth i (squares (final o)) 0%Z) (nth i (squares bm) 0%Z).
Proof.
  destruct n as [|n]; cbn [solve]; intros E; [discriminate|].
  destruct (propagate n solved bm) as [[s' bm']|] eqn:Ep; [|discriminate].
  eapply shrinks_trans;
    [eapply search_shrinks; eauto|eapply propagate_shrinks; eauto].
Qed.

(** ** The guesses of a run *)

(** The guesses the selection rule prescribes, read off the states of a
    run and not off its log. [guess_log b r l]: a call of [solve] on
    the instance built from [b] propagates to the state [bm'] in which
    a pass changes nothing, and its search loop, started there, answers
    [r] after the guesses [l]. [loop_log bm r l]: the search loop at
    state [bm] answers [r] after the guesses [l]; every guess is made at
    the first square of [unsolved] with the fewest candidates, with the
    lowest symbol that is still a candidate of it, is followed by the
    guesses of the attempt on the copy and, when that attempt fails, by
    those of the loop resumed on the retracted state. *)
Inductive guess_log : Board -> bool -> list (nat * nat) -> Prop :=
| gl_solve b bm st bm' r l :
    propagating b bm -> reduceOptions [] bm = (0, st, bm') ->
    loop_log bm' r l -> guess_log b r l
with loop_log : BoardMap -> bool -> list (nat * nat) -> Prop :=
| ll_done bm : unsolved bm = [] -> loop_log bm true []
| ll_dead bm i :
    In i (unsolved bm) -> numPossibilities bm i = 0 ->
    loop_log bm false []
| ll_hit bm gi g l :
    first_minimum bm gi -> lowest_candidate bm gi g ->
    guess_log (boardCopy bm gi g) true l ->
    loop_log bm true ((gi, g) :: l)
| ll_miss bm gi g l r l' :
    first_minimum bm gi -> lowest_candidate bm gi g ->
    guess_log (boardCopy bm gi g) false l ->
    loop_log (retract bm gi g) r l' ->
    loop_log bm r ((gi, g) :: l ++ l').

Scheme guess_log_min := Minimality for guess_log Sort Prop
with loop_log_min := Minimality for loop_log Sort Prop.

Combined Scheme guess_loop_ind from guess_log_min, loop_log_min.

(** The boards [solve] is called on in the course of a run on [b]: [b]
    itself, and the copy made for the guess selected at the head of the
    search loop of a call on such a board. *)
Inductive attempted (b : Board) : Board -> Prop :=
| at_root : attempted b b
| at_guess b' bm gi :
    attempted b b' -> searching b' bm -> unsolved bm <> [] ->
    selectGuess bm = Some gi ->
    attempted b (boardCopy bm gi (firstGuess bm gi)).

Lemma attempted_trans b b1 b2 :
  attempted b b1 -> attempted b1 b2 -> attempted b b2.
Proof.
  intros H1 H2. induction H2 as [|b' bm gi H2 IH Hs Hne Hsel]; auto.
  eapply at_guess; eauto.
Qed.

Lemma propagating_valid b bm : propagating b bm -> valid_board b.
Proof. induction 1; auto. Qed.

Lemma propagating_run b bm :
  propagating b bm ->
  forall k r, propagate k [] bm = Some r ->
    exists k', propagate k' [] (newBoardMap b) = Some r.
Proof.
  induction 1 as [Hv|bm u st bm' Hp IH E Hpos]; intros k r Hk.
  - now exists k.
  - apply (IH (S k)). cbn [propagate]. rewrite E.
    pose proof (reduceOptions_static _ _ _ _ _ E) as ->.
    destruct (Nat.ltb_spec 0 u) as [_|Hz]; [exact Hk|lia].
Qed.

Lemma entered_run b bm st bm' :
  propagating b bm -> reduceOptions [] bm = (0, st, bm') ->
  exists k, propagate k [] (newBoardMap b) = Some ([], bm').
Proof.
  intros Hp E. apply (propagating_run b bm Hp 1).
  cbn [propagate]. rewrite E.
  pose proof (reduceOptions_static _ _ _ _ _ E) as ->. reflexivity.
Qed.

Lemma propagate_entered b n bm st bm' :
  propagating b bm -> propagate n [] bm = Some (st, bm') ->
  exists bm0 st0, propagating b bm0 /\
                  reduceOptions [] bm0 = (0, st0, bm').
Proof.
  revert bm; induction n as [|n IH]; cbn [propagate]; intros bm Hp E;
    [discriminate|].
  destruct (reduceOptions [] bm) as [[u s1] bm1] eqn:Er.
  pose proof (reduceOptions_static _ _ _ _ _ Er) as ->.
  destruct (Nat.ltb_spec 0 u) as [Hpos|Hz].
  - apply (IH bm1); auto. eapply pg_pass; eauto.
  - injection E as <- <-. assert (u = 0) by lia. subst u.
    exists bm, []. auto.
Qed.

Lemma first_minimum_unique bm i j :
  first_minimum bm i -> first_minimum bm j -> i = j.
Proof.
  intros (l1 & l2 & E1 & A1 & B1) (l1' & l2' & E2 & A2 & B2).
  rewrite E1 in E2. clear E1.
  revert l1' A1 E2 A2; induction l1 as [|x l1 IH];
    intros [|y l1'] A1 E2 A2; cbn [app] in E2.
  - now injection E2.
  - injection E2 as -> ->.
    assert (numPossibilities bm j < numPossibilities bm y)
      by (apply A2; now left).
    assert (numPossibilities bm y <= numPossibilities bm j).
    { apply B1. apply in_or_app. right. now left. }
    lia.
  - injection E2 as -> <-.
    assert (numPossibilities bm i < numPossibilities bm j)
      by (apply A1; now left).
    assert (numPossibilities bm j <= numPossibilities bm i).
    { apply B2. apply in_or_app. right. now left. }
    lia.
  - injection E2 as -> E2. apply (IH l1'); auto.
    + intros k Hk. apply A1. now right.
    + intros k Hk. apply A2. now right.
Qed.

Lemma first_minimum_le bm gi i :
  first_minimum bm gi -> In i (unsolved bm) ->
  numPossibilities bm gi <= numPossibilities bm i.
Proof.
  intros (l1 & l2 & E & A & B) Hi. rewrite E in Hi.
  apply in_app_or in Hi. destruct Hi as [Hi|[<-|Hi]]; auto.
  apply Nat.lt_le_incl. auto.
Qed.

Lemma lowest_candidate_unique bm gi g g' :
  lowest_candidate bm gi g -> lowest_candidate bm gi g' -> g = g'.
Proof.
  intros (R1 & H1 & L1) (R2 & H2 & L2).
  destruct (Nat.lt_trichotomy g g') as [H|[H|H]]; auto.
  - assert (1 <= g < g') by lia. specialize (L2 g H0). congruence.
  - assert (1 <= g' < g) by lia. specialize (L1 g' H0). congruence.
Qed.

Lemma lowest_candidate_nonzero bm gi g :
  lowest_candidate bm gi g -> nth gi (squares bm) 0%Z <> 0%Z.
Proof.
  intros (_ & H & _) Hz. rewrite Hz in H. unfold has in H.
  rewrite Z.bits_0 in H. discriminate.
Qed.

(** The rule leaves no choice: the scan and the guess loop of the code
    return the square and the symbol it names. *)
Lemma rule_selects bm gi g :
  Inv [] bm -> Stable bm ->
  first_minimum bm gi -> lowest_candidate bm gi g ->
  unsolved bm <> [] /\ selectGuess bm = Some gi /\ firstGuess bm gi = g.
Proof.
  intros HI HS Hfm Hlc.
  pose proof (first_minimum_In _ _ Hfm) as Hin.
  assert (Hne : unsolved bm <> []).
  { intros E. rewrite E in Hin. destruct Hin. }
  assert (Hgi : gi < 81) by (eapply inv_bound; eauto).
  pose proof (lowest_candidate_nonzero _ _ _ Hlc) as Hnz.
  split; [exact Hne|].
  destruct (selectGuess bm) as [gi'|] eqn:Esel.
  - pose proof (selectGuess_first_minimum _ _ HI HS Hne Esel) as Hfm'.
    pose proof (first_minimum_unique _ _ _ Hfm' Hfm) as ->.
    split; [reflexivity|].
    apply (lowest_candidate_unique bm gi); auto.
    now apply firstGuess_lowest.
  - exfalso. apply selectGuess_None in Esel.
    destruct Esel as (i & Hi & Hz).
    pose proof (first_minimum_le _ _ _ Hfm Hi) as Hle.
    assert (Hz' : numPossibilities bm gi = 0) by lia.
    unfold numPossibilities in Hz'.
    apply countBits_0 in Hz'; [contradiction|].
    eapply inv_mask; eauto.
Qed.

(** The log of a run obeys the rule. *)
Lemma solve_guess_log n b o :
  valid_board b -> solveBoard n b = Some o ->
  guess_log b (result o) (guesses o).
Proof.
  apply (solve_ind
    (fun b o => guess_log b (result o) (guesses o))
    (fun _ bm o => loop_log bm (result o) (guesses o))).
  - intros b0 bm _ Hu. cbn [result guesses]. now apply ll_done.
  - intros b0 bm _ Hne Hsel. apply selectGuess_None in Hsel.
    destruct Hsel as (i & Hi & Hz). cbn [result guesses].
    now apply (ll_dead bm i).
  - intros b0 bm gi g0 sub Hs Hne Hsel Hg Hg0 Hv HP Hres.
    cbn [result guesses]. rewrite Hres in HP.
    destruct (searching_facts _ _ Hs) as (HI & HS & _).
    destruct (guess_facts _ _ _ _ Hs Hne Hsel Hg) as (_ & Hgi & _).
    apply ll_hit; [| |exact HP].
    + now apply (selectGuess_first_minimum _ _ HI HS Hne).
    + rewrite <- Hg. apply firstGuess_lowest; auto.
      now apply (selectGuess_nonzero _ _ HI HS Hne).
  - intros b0 bm gi g0 sub o' Hs Hne Hsel Hg Hg0 Hv HP Hres Hs' HQ.
    cbn [result guesses]. rewrite Hres in HP.
    destruct (searching_facts _ _ Hs) as (HI & HS & _).
    destruct (guess_facts _ _ _ _ Hs Hne Hsel Hg) as (_ & Hgi & _).
    rewrite <- app_comm_cons.
    apply ll_miss; [| |exact HP|exact HQ].
    + now apply (selectGuess_first_minimum _ _ HI HS Hne).
    + rewrite <- Hg. apply firstGuess_lowest; auto.
      now apply (selectGuess_nonzero _ _ HI HS Hne).
  - intros b0 m bm o' Hv Hp _ HQ.
    destruct (propagate_entered b0 m _ _ _ (pg_new b0 Hv) Hp)
      as (bm0 & st0 & Hp0 & E0).
    exact (gl_solve b0 bm0 st0 bm _ _ Hp0 E0 HQ).
Qed.

(** The rule determines the run: whatever answer and guesses it admits
    for a board are those of every run on that board. *)
Lemma guess_log_determines :
  (forall b r l, guess_log b r l ->
     forall n o, solveBoard n b = Some o ->
       result o = r /\ guesses o = l) /\
  (forall bm r l, loop_log bm r l ->
     forall b, searching b bm ->
     forall n m o,
       search (fun s b' => solve n s (newBoardMap b')) m [] bm = Some o ->
       result o = r /\ guesses o = l).
Proof.
  apply guess_loop_ind.
  - intros b bm st bm' r l Hp E _ IH n o Ho.
    pose proof (propagating_valid _ _ Hp) as Hv.
    destruct n as [|n]; [discriminate|].
    unfold solveBoard in Ho. cbn [solve] in Ho.
    destruct (propagate n USet.empty (newBoardMap b))
      as [[s' bmx]|] eqn:Ep; [|discriminate].
    destruct (propagate_searching b n _ _ _ (pg_new b Hv) Ep) as [-> Hs].
    destruct (entered_run _ _ _ _ Hp E) as [k Hk].
    assert (bmx = bm').
    { change (propagate n [] (newBoardMap b) = Some ([], bmx)) in Ep.
      pose proof (propagate_mono _ (Nat.max n k) _ _ _ Ep
                                 (Nat.le_max_l _ _)) as H1.
      pose proof (propagate_mono _ (Nat.max n k) _ _ _ Hk
                                 (Nat.le_max_r _ _)) as H2.
      congruence. }
    subst bmx. exact (IH b Hs n n o Ho).
  - intros bm Hu b Hs n m o E. destruct m as [|m]; [discriminate|].
    cbn [search] in E. rewrite Hu in E. cbn [USet.is_empty] in E.
    injection E as <-. auto.
  - intros bm i Hi Hz b Hs n m o E. destruct m as [|m]; [discriminate|].
    cbn [search] in E.
    assert (Eemp : USet.is_empty (unsolved bm) = false).
    { destruct (unsolved bm); [destruct Hi|reflexivity]. }
    assert (Esel : selectGuess bm = None).
    { apply selectGuess_None. now exists i. }
    rewrite Eemp, Esel in E. injection E as <-. auto.
  - intros bm gi g l Hfm Hlc _ IH b Hs n m o E.
    destruct (searching_facts _ _ Hs) as (HI & HS & _).
    destruct (rule_selects bm gi g HI HS Hfm Hlc) as (Hne & Hsel & Hg).
    destruct m as [|m]; [discriminate|]. cbn [search] in E.
    assert (Eemp : USet.is_empty (unsolved bm) = false).
    { destruct (unsolved bm); [congruence|reflexivity]. }
    rewrite Eemp, Hsel, Hg in E.
    destruct (solve n [] (newBoardMap (boardCopy bm gi g)))
      as [sub|] eqn:Ea; [|discriminate].
    destruct (IH n sub Ea) as [Hr Hl].
    rewrite Hr in E. injection E as <-. cbn [result guesses].
    now rewrite Hl.
  - intros bm gi g l r l' Hfm Hlc _ IH _ IH' b Hs n m o E.
    destruct (searching_facts _ _ Hs) as (HI & HS & _).
    destruct (rule_selects bm gi g HI HS Hfm Hlc) as (Hne & Hsel & Hg).
    destruct m as [|m]; [discriminate|]. cbn [search] in E.
    assert (Eemp : USet.is_empty (unsolved bm) = false).
    { destruct (unsolved bm); [congruence|reflexivity]. }
    rewrite Eemp, Hsel, Hg in E.
    destruct (solve n [] (newBoardMap (boardCopy bm gi g)))
      as [sub|] eqn:Ea; [|discriminate].
    destruct (IH n sub Ea) as [Hr Hl].
    pose proof (solve_static _ _ _ _ Ea) as Hst.
    rewrite Hr, Hst in E.
    destruct (search (fun s b' => solve n s (newBoardMap b')) m []
                     (retract bm gi g)) as [o'|] eqn:Es; [|discriminate].
    cbn [logGuesses] in E. injection E as <-. cbn [result guesses].
    assert (Hs' : searching b (retract bm gi g)).
    { rewrite <- Hg. apply (sr_retract b bm gi n sub); auto.
      rewrite Hg. exact Ea. }
    destruct (IH' b Hs' n m o' Es) as [Hr' Hl'].
    rewrite Hr', Hl, Hl'. auto.
Qed.

(** Every guess of a run is the selection the code makes at the head of
    the search loop of a call of that run. *)
Lemma solve_guesses_made n b o :
  valid_board b -> solveBoard n b = Some o ->
  forall gi g, In (gi, g) (guesses o) ->
    exists b' bm, attempted b b' /\ searching b' bm /\
                  unsolved bm <> [] /\
                  selectGuess bm = Some gi /\ firstGuess bm gi = g.
Proof.
  apply (solve_ind
    (fun b o => forall gi g, In (gi, g) (guesses o) ->
       exists b' bm, attempted b b' /\ searching b' bm /\
                     unsolved bm <> [] /\
                     selectGuess bm = Some gi /\ firstGuess bm gi = g)
    (fun b _ o => forall gi g, In (gi, g) (guesses o) ->
       exists b' bm, attempted b b' /\ searching b' bm /\
                     unsolved bm <> [] /\
                     selectGuess bm = Some gi /\ firstGuess bm gi = g)).
  - intros b0 bm _ _ gi g [].
  - intros b0 bm _ _ _ gi g [].
  - intros b0 bm gi g0 sub Hs Hne Hsel Hg Hg0 Hv HP Hres gi' g' Hin.
    cbn [guesses] in Hin. destruct Hin as [E|Hin].
    + injection E as <- <-. exists b0, bm.
      split; [apply at_root|]. auto.
    + destruct (HP _ _ Hin) as (b' & bm' & Ha & Hrest).
      exists b', bm'. split; [|exact Hrest].
      apply (attempted_trans _ (boardCopy bm gi (S g0))); auto.
      rewrite <- Hg. apply (at_guess b0 b0 bm gi); auto. apply at_root.
  - intros b0 bm gi g0 sub o' Hs Hne Hsel Hg Hg0 Hv HP Hres Hs' HQ gi' g' Hin.
    cbn [guesses] in Hin. apply in_app_or in Hin.
    destruct Hin as [[E|Hin]|Hin]; [| |now apply HQ].
    + injection E as <- <-. exists b0, bm.
      split; [apply at_root|]. auto.
    + destruct (HP _ _ Hin) as (b' & bm' & Ha & Hrest).
      exists b', bm'. split; [|exact Hrest].
      apply (attempted_trans _ (boardCopy bm gi (S g0))); auto.
      rewrite <- Hg. apply (at_guess b0 b0 bm gi); auto. apply at_root.
  - intros b0 m bm o' _ _ _ HQ. exact HQ.
Qed.

(** A failed run leaves the board as propagation left it. *)
Lemma solve_false_board n b o :
  valid_board b -> solveBoard n b = Some o -> result o = false ->
  exists m bm, propagate m [] (newBoardMap b) = Some ([], bm) /\
               board (final o) = board bm.
Proof.
  intros Hv E. revert Hv E.
  apply (solve_ind
    (fun b o => result o = false ->
       exists m bm, propagate m [] (newBoardMap b) = Some ([], bm) /\
                    board (final o) = board bm)
    (fun _ bm o => result o = false -> board (final o) = board bm)).
  - discriminate.
  - reflexivity.
  - discriminate.
  - intros b0 bm gi g0 sub o' _ _ _ _ _ _ _ _ _ HQ Hr.
    cbn [result final] in *. now rewrite HQ.
  - intros b0 m bm o' _ Hp _ HQ Hr. exists m, bm. auto.
Qed.

(** Two runs with enough fuel agree. *)
Lemma solve_fuel_irrelevant n m solved bm o1 o2 :
  solve n solved bm = Some o1 -> solve m solved bm = Some o2 -> o1 = o2.
Proof.
  intros E1 E2.
  pose proof (solve_mono n (Nat.max n m) _ _ _ E1 (Nat.le_max_l _ _)) as H1.
  pose proof (solve_mono m (Nat.max n m) _ _ _ E2 (Nat.le_max_r _ _)) as H2.
  congruence.
Qed.

(** ** Decidable checks for concrete boards *)

Definition consistentb (b : Board) : bool :=
  forallb (fun i =>
    forallb (fun j =>
      (i =? j) || Ascii.eqb (cell b i) dot
      || negb (Ascii.eqb (cell b i) (cell b j))
      || (negb (rowIndex i =? rowIndex j)
          && negb (columnIndex i =? columnIndex j)
          && negb (blockIndex i =? blockIndex j)))
      (seq 0 81)) (seq 0 81).

Lemma consistentb_spec b : consistentb b = true -> Consistent b.
Proof.
  unfold consistentb. rewrite forallb_forall. intros H i j Hi Hj Hne Hd E.
  specialize (H i). rewrite forallb_forall in H.
  assert (Hi' : In i (seq 0 81)) by (apply in_seq; lia).
  assert (Hj' : In j (seq 0 81)) by (apply in_seq; lia).
  specialize (H Hi' j Hj').
  destruct (Nat.eqb_spec i j); [congruence|].
  destruct (Ascii.eqb_spec (cell b i) dot); [congruence|].
  destruct (Ascii.eqb_spec (cell b i) (cell b j)); [|congruence].
  cbn [orb negb] in H.
  destruct (Nat.eqb_spec (rowIndex i) (rowIndex j)); [discriminate|].
  destruct (Nat.eqb_spec (columnIndex i) (columnIndex j)); [discriminate|].
  destruct (Nat.eqb_spec (blockIndex i) (blockIndex j)); [discriminate|].
  auto.
Qed.

(** ** The puzzle loader of main.cpp

    [main] reads a game as nine rows of nine characters with
    [gameFile >> c]: formatted extraction skips white space, and leaves
    [c] (initialised to ['.']) alone once the input is exhausted. *)

Definition isspace (c : ascii) : bool :=
  let n := nat_of_ascii c in (n =? 32) || ((9 <=? n) && (n <=? 13)).

Fixpoint skipws (input : list ascii) : list ascii :=
  match input with
  | [] => []
  | c :: rest => if isspace c then skipws rest else input
  end.

(** [char c = '.'; gameFile >> c;] *)
Definition readChar (input : list ascii) : ascii * list ascii :=
  match skipws input with
  | [] => (dot, [])
  | c :: rest => (c, rest)
  end.

(** The inner loop: [y] from its start to 9. *)
Fixpoint readRow (n : nat) (input : list ascii) : list ascii * list ascii :=
  match n with
  | O => ([], input)
  | S n' =>
      let (c, rest) := readChar input in
      let (row, rest') := readRow n' rest in
      (c :: row, rest')
  end.

(** The outer loop: [x] from its start to 9. *)
Fixpoint readGame (n : nat) (input : list ascii) : Board * list ascii :=
  match n with
  | O => ([], input)
  | S n' =>
      let (row, rest) := readRow 9 input in
      let (game, rest') := readGame n' rest in
      (row :: game, rest')
  end.

Definition loadGame (input : list ascii) : Board := fst (readGame 9 input).

(** ** Concrete boards *)

Module Fixtures.
Import String.

Definition game (s : string) : Board := loadGame (list_ascii_of_string s).

(** The empty board. *)
Definition emptyBoard : Board :=
  game ".................................................................................".

(** A puzzle that propagation alone solves. *)
Definition easyPuzzle : Board :=
  game "53..7....6..195....98....6.8...6...34..8.3..17...2...6.6....28....419..5....8..79".

(** A puzzle whose first guess (square 0, symbol 3) fails. *)
Definition hardPuzzle : Board :=
  game "..46..9.26..19...819...2....5.7...234.68....17.......6961.3.2....7419......2.6.7.".

(** Full boards that break the Sudoku constraints. *)
Definition allOnes : Board := repeat (repeat "1"%char 9) 9.

Definition duplicateBoard : Board :=
  game "534678912672195348198342567859761423426853791713924856961537284287419635345286171".

(** One empty square, and clues that clash elsewhere. *)
Definition clashBoard : Board :=
  game "534678912672195348198342567859761423426853791713924856961537284287419635545286.79".

(** Square 8 has one candidate, square 40 none. *)
Definition deadBoard : Board :=
  game "12345678.....6........7........8....2143.........9...............................".

(** The outcome of a run, and the state after propagation, as values. *)
Definition outcomeOf (n : nat) (b : Board) : Outcome :=
  match solveBoard n b with
  | Some o => o
  | None => mkOutcome false (newBoardMap b) [] []
  end.

Definition propagated (n : nat) (b : Board) : BoardMap :=
  match propagate n [] (newBoardMap b) with
  | Some (_, bm) => bm
  | None => newBoardMap b
  end.

End Fixtures.

(** * The claims *)

Import Fixtures.

Ltac by_computation := vm_compute; reflexivity.

Lemma valid_by_check b : valid_boardb b = true -> valid_board b.
Proof. apply valid_boardb_spec. Qed.

(** C1, as amended: for every 9x9 board of symbols and dots whose given
    clues put no symbol twice in a row, a column or a block, if [solve]
    returns true then every row, every column and every block of the
    bound board holds each of the nine symbols exactly once, and no
    square is empty. *)
Theorem C1_solve_true_solved n b o :
  valid_board b -> Consistent b ->
  solveBoard n b = Some o -> result o = true ->
  solved_board (board (final o)).
Proof.
  intros Hv Hc E Hr.
  destruct (solve_correct n b o Hv E) as (Hvf & _ & Ht & _).
  destruct (Ht Hr) as [Hnd Hcf].
  apply solution_solved. split; [exact Hvf|]. split; [exact Hnd|auto].
Qed.

Lemma C1_witness :
  valid_board hardPuzzle /\ Consistent hardPuzzle /\
  solveBoard 20 hardPuzzle = Some (outcomeOf 20 hardPuzzle) /\
  result (outcomeOf 20 hardPuzzle) = true /\
  solved_board (board (final (outcomeOf 20 hardPuzzle))).
Proof.
  assert (Hv : valid_board hardPuzzle) by (apply valid_by_check; by_computation).
  assert (Hc : Consistent hardPuzzle) by (apply consistentb_spec; by_computation).
  assert (E : solveBoard 20 hardPuzzle = Some (outcomeOf 20 hardPuzzle))
    by by_computation.
  assert (Hr : result (outcomeOf 20 hardPuzzle) = true) by by_computation.
  split; [exact Hv|]. split; [exact Hc|]. split; [exact E|].
  split; [exact Hr|].
  exact (C1_solve_true_solved 20 hardPuzzle _ Hv Hc E Hr).
Defined.

(** C1 as stated fails: on the full board of ones [solve] returns true
    and the board is not solved. *)
Lemma C1_counterexample :
  valid_board allOnes /\
  exists o, solveBoard 3 allOnes = Some o /\ result o = true /\
            ~ solved_board (board (final o)).
Proof.
  split; [apply valid_by_check; by_computation|].
  eexists. split; [by_computation|]. split; [reflexivity|].
  intros [_ H]. destruct (H 0 ltac:(lia)) as (Hr & _).
  specialize (Hr 1 ltac:(lia)). vm_compute in Hr. discriminate.
Qed.

(** C2, as amended: for every valid 9x9 board whose given clues put no
    symbol twice in a row, a column or a block, [solve] returns, and it
    returns true if and only if the board has a completion; the bound
    board then holds one. (It returns false on no board that has a
    completion.) *)
Theorem C2_solve_iff_completion n b :
  valid_board b -> Consistent b -> 812 <= n ->
  exists o, solveBoard n b = Some o /\
            (result o = true <-> exists s, completes b s) /\
            (result o = true -> completes b (board (final o))) /\
            (result o = false -> ~ exists s, completes b s).
Proof.
  intros Hv Hc Hn. destruct (solve_terminates b n Hv Hn) as [o E].
  exists o. split; [exact E|].
  destruct (solve_correct n b o Hv E) as (Hvf & Hext & Ht & Hf).
  assert (Hcomp : result o = true -> completes b (board (final o))).
  { intros Hr. destruct (Ht Hr) as [Hnd Hcf]. apply completes_solution.
    split; [|exact Hext]. split; [exact Hvf|]. split; [exact Hnd|auto]. }
  assert (Hno : result o = false -> ~ exists s, completes b s).
  { intros Hr [s Hs]. apply completes_solution in Hs.
    destruct Hs as [Hs He]. exact (Hf Hr s Hs He). }
  split; [|split; [exact Hcomp|exact Hno]].
  split.
  - intros Hr. exists (board (final o)). auto.
  - intros Hex. destruct (result o); [reflexivity|].
    exfalso. now apply Hno.
Qed.

Lemma C2_witness :
  valid_board easyPuzzle /\ Consistent easyPuzzle /\ 812 <= 812 /\
  exists o, solveBoard 812 easyPuzzle = Some o /\
            (result o = true <-> exists s, completes easyPuzzle s) /\
            (result o = true -> completes easyPuzzle (board (final o))) /\
            (result o = false -> ~ exists s, completes easyPuzzle s).
Proof.
  assert (Hv : valid_board easyPuzzle) by (apply valid_by_check; by_computation).
  assert (Hc : Consistent easyPuzzle) by (apply consistentb_spec; by_computation).
  split; [exact Hv|]. split; [exact Hc|]. split; [apply Nat.le_refl|].
  exact (C2_solve_iff_completion 812 easyPuzzle Hv Hc (Nat.le_refl 812)).
Defined.

(** C2 as stated fails: a full board with a symbol twice in its last
    row has no completion, yet [solve] returns true on it. *)
Lemma C2_counterexample :
  valid_board duplicateBoard /\
  (~ exists s, completes duplicateBoard s) /\
  exists o, solveBoard 3 duplicateBoard = Some o /\ result o = true.
Proof.
  split; [apply valid_by_check; by_computation|]. split.
  - intros [s Hs]. apply completes_solution in Hs.
    destruct Hs as [(_ & Hnd & Hc) He].
    assert (E78 : cell s 78 = cell duplicateBoard 78).
    { apply He; [lia|]. vm_compute. discriminate. }
    assert (E80 : cell s 80 = cell duplicateBoard 80).
    { apply He; [lia|]. vm_compute. discriminate. }
    destruct (Hc 78 80) as (Hrow & _); try lia.
    + apply Hnd. lia.
    + rewrite E78, E80. by_computation.
    + apply Hrow. by_computation.
  - eexists. split; [by_computation|reflexivity].
Qed.

(** C3: [solve] is deterministic. A run leaves the static set empty, so
    that a second run on the same board starts as the first did; two
    runs return the same boolean, leave the same board and make the
    same guesses in the same order. On a valid board the answer and the
    sequence of guesses are the ones [guess_log] prescribes for that
    board: starting from the state propagation reaches on it, every
    guess is made, at the state the search loop is then in, at the
    first square of [unsolved] with the fewest candidates and with the
    lowest symbol that is still a candidate of it, and is followed by
    the guesses of the attempt on the copy and, when that attempt
    fails, by those of the loop resumed after the retraction. No other
    answer and no other sequence meets that rule. *)
Theorem C3_solve_deterministic n b o1 :
  solveBoard n b = Some o1 ->
  static_solved o1 = USet.empty /\
  (forall m o2,
      solve m (static_solved o1) (newBoardMap b) = Some o2 ->
      result o2 = result o1 /\ board (final o2) = board (final o1) /\
      guesses o2 = guesses o1) /\
  (valid_board b ->
   guess_log b (result o1) (guesses o1) /\
   forall r l, guess_log b r l -> r = result o1 /\ l = guesses o1).
Proof.
  intros E. pose proof (solve_static _ _ _ _ E) as Hst.
  split; [exact Hst|]. split.
  - intros m o2 E2. rewrite Hst in E2.
    rewrite (solve_fuel_irrelevant _ _ _ _ _ _ E2 E). auto.
  - intros Hv. split; [exact (solve_guess_log n b o1 Hv E)|].
    intros r l Hl.
    destruct (proj1 guess_log_determines b r l Hl n o1 E) as [<- <-].
    auto.
Qed.

Lemma C3_witness :
  solveBoard 20 hardPuzzle = Some (outcomeOf 20 hardPuzzle) /\
  static_solved (outcomeOf 20 hardPuzzle) = USet.empty /\
  guess_log hardPuzzle true [(0, 3); (0, 5)].
Proof.
  assert (E : solveBoard 20 hardPuzzle = Some (outcomeOf 20 hardPuzzle))
    by by_computation.
  assert (Hv : valid_board hardPuzzle)
    by (apply valid_by_check; by_computation).
  assert (Er : result (outcomeOf 20 hardPuzzle) = true) by by_computation.
  assert (Eg : guesses (outcomeOf 20 hardPuzzle) = [(0, 3); (0, 5)])
    by by_computation.
  destruct (C3_solve_deterministic 20 hardPuzzle _ E) as (H1 & _ & H3).
  split; [exact E|]. split; [exact H1|].
  destruct (H3 Hv) as [Hlog _]. rewrite Er, Eg in Hlog. exact Hlog.
Defined.



(** C5: [solve] returns on every valid 9x9 board, within a fixed amount
    of fuel, and in particular on the empty board, where it returns
    true. Along the way a failed guess strictly shrinks the mask of the
    guessed square, each attempt starts from a board with strictly
    fewer empty squares, and an unsolved square without candidates
    makes the scan fail. *)
Theorem C5_solve_terminates n b :
  valid_board b -> 812 <= n ->
  (exists o, solveBoard n b = Some o) /\
  (exists o, solveBoard n emptyBoard = Some o /\ result o = true) /\
  (forall bm gi g0,
      searching b bm -> unsolved bm <> [] ->
      selectGuess bm = Some gi -> firstGuess bm gi = S g0 ->
      numPossibilities (retract bm gi (S g0)) gi < numPossibilities bm gi /\
      empties (boardCopy bm gi (S g0)) < empties (board bm) /\
      empties (board bm) <= empties b) /\
  (forall bm,
      (exists i, In i (unsolved bm) /\ numPossibilities bm i = 0) ->
      selectGuess bm = None).
Proof.
  intros Hv Hn. split; [now apply solve_terminates|]. split; [|split].
  - exists (outcomeOf 60 emptyBoard). split; [|by_computation].
    apply (solve_mono 60 n); [by_computation|lia].
  - intros bm gi g0 Hs Hne Hsel Hg.
    destruct (guess_facts _ _ _ _ Hs Hne Hsel Hg)
      as (_ & Hgi & Hg0 & _ & Hh & _).
    destruct (searching_facts _ _ Hs) as (HI & _ & Hext & _).
    split; [now apply retract_count|].
    split; [eapply boardCopy_empties; eauto|now apply empties_extends].
  - intros bm. apply selectGuess_None.
Qed.

Lemma C5_witness :
  valid_board hardPuzzle /\ 812 <= 812 /\
  exists o, solveBoard 812 hardPuzzle = Some o.
Proof.
  assert (Hv : valid_board hardPuzzle) by (apply valid_by_check; by_computation).
  split; [exact Hv|]. split; [apply Nat.le_refl|].
  exact (proj1 (C5_solve_terminates 812 hardPuzzle Hv (Nat.le_refl 812))).
Defined.

Lemma removePossibilities_shrinks bm index flags i :
  shrinks (nth i (squares (removePossibilities bm index flags)) 0%Z)
          (nth i (squares bm) 0%Z).
Proof.
  unfold removePossibilities, set_square. cbn [squares].
  destruct (nth_upd_cases (squares bm) index i
              (Z.land (nth index (squares bm) 0%Z) (Z.lnot flags)) 0%Z)
    as [(E & <- & _)|E]; rewrite E.
  - apply shrinks_land.
  - apply shrinks_refl.
Qed.

(** [unsolved] holds exactly the squares whose mask does not have
    exactly one bit. *)
Definition tracks (bm : BoardMap) : Prop :=
  forall i, In i (unsolved bm) <-> i < 81 /\ numPossibilities bm i <> 1.

Lemma Inv_solved_one bm i :
  Inv [] bm -> i < 81 -> ~ In i (unsolved bm) -> numPossibilities bm i = 1.
Proof.
  intros HI Hi Hn.
  assert (Hd : cell (board bm) i <> dot).
  { intros Hd. apply Hn. apply (inv_dot _ _ _ HI) in Hd; auto. apply Hd. }
  destruct (inv_sym _ _ _ HI i Hi Hd) as (k & Hk & _ & Hb).
  unfold numPossibilities. rewrite Hb. now apply countBits_bit.
Qed.

Lemma Inv_tracks bm : Inv [] bm -> DotTracks bm -> tracks bm.
Proof.
  intros HI HT i. split.
  - intros Hi. assert (Hi81 : i < 81) by (eapply inv_bound; eauto).
    split; [exact Hi81|]. apply HT; auto. apply (inv_dot _ _ _ HI); auto.
  - intros [Hi Hc].
    destruct (in_dec Nat.eq_dec i (unsolved bm)) as [Hin|Hout]; auto.
    now destruct (Hc (Inv_solved_one bm i HI Hi Hout)).
Qed.

Lemma not_tracks bm i :
  In i (unsolved bm) -> numPossibilities bm i = 1 -> ~ tracks bm.
Proof.
  intros Hin Hone HT. destruct (HT i) as [H _].
  destruct (H Hin) as [_ Hc]. exact (Hc Hone).
Qed.

(** C6: one call of [reduceOptions] from a state of the propagation
    loop visits the squares of [unsolved] in ascending order; a visited
    square whose mask is reduced to one bit has its symbol written and
    its group masks updated at once, in the state the next square is
    visited in, while [unsolved] itself changes only after the pass;
    the value returned is the number of squares whose mask changed; and
    the propagation loop runs another pass exactly when that value is
    not zero. *)
Theorem C6_reduceOptions_pass b bm updated st bm' :
  propagating b bm -> reduceOptions [] bm = (updated, st, bm') ->
  ascending (unsolved bm) /\
  (let ps := fold_left reduceCell (unsolved bm) (mkPass bm [] 0) in
   updated = p_reduced ps /\ st = [] /\
   unsolved (p_bm ps) = unsolved bm /\
   bm' = set_unsolved (p_bm ps)
           (fold_left (fun u index => USet.erase index u)
                      (p_solved ps) (unsolved bm))) /\
  (forall ps index l,
     fold_left reduceCell (index :: l) ps =
     fold_left reduceCell l (reduceCell ps index)) /\
  (forall ps index k,
     index < length (squares (p_bm ps)) -> k < 9 ->
     reducedMask (p_bm ps) index = bit k ->
     nth index (squares (p_bm ps)) 0%Z <> bit k ->
     reduceCell ps index =
     mkPass (commit (p_bm ps) index k)
            (USet.insert index (p_solved ps))
            (S (p_reduced ps) mod 256)) /\
  updated =
    length (filter (changed (squares bm) (squares bm')) (unsolved bm)) /\
  (forall i, In i (unsolved bm') <->
             In i (unsolved bm) /\ cell (board bm') i = dot) /\
  (forall n, propagate (S n) [] bm =
             if 0 <? updated then propagate n [] bm' else Some ([], bm')).
Proof.
  intros Hp E. destruct (propagating_facts _ _ Hp) as (HI & _).
  destruct (reduceOptions_Inv _ _ _ _ HI E) as [Hst HI'].
  destruct (reduceOptions_count _ _ _ _ HI E) as (Hc & _ & _).
  assert (Hu : unsolved (p_bm (fold_left reduceCell (unsolved bm)
                                         (mkPass bm [] 0))) = unsolved bm).
  { apply (pass_ind (fun _ _ => True) bm 0 HI); auto. }
  pose proof E as E'. rewrite reduceOptions_eq in E'. cbv zeta in E'.
  rewrite Hu in E'. injection E' as E1 E2 E3.
  split; [eapply inv_asc; eauto|]. split.
  { cbv zeta. split; [auto|]. split; [auto|]. split; [exact Hu|auto]. }
  split; [reflexivity|]. split.
  { intros ps index k Hlen Hk Hb Hne.
    destruct (reduceCell_cases ps index Hlen)
      as [[E0 _]|[(_ & Hd & _)|(_ & k' & Hk' & Hb' & Er)]].
    - congruence.
    - rewrite Hb, toChar_bit in Hd by auto. now apply symbol_neq_dot in Hd.
    - assert (k' = k).
      { rewrite Hb in Hb'. apply (f_equal (fun m => has m k)) in Hb'.
        rewrite !has_bit, Nat.eqb_refl in Hb'. symmetry in Hb'.
        now apply Nat.eqb_eq in Hb'. }
      subst k'. exact Er. }
  split; [exact Hc|]. split.
  { intros i. split.
    - intros Hi. assert (Hi81 : i < 81) by exact (inv_bound _ _ _ HI' i Hi).
      split.
      + rewrite <- E3 in Hi. cbn [unsolved set_unsolved] in Hi.
        apply In_erase_all in Hi; [apply Hi|eapply inv_asc; eauto].
      + apply (inv_dot _ _ _ HI'); auto.
    - intros [Hi Hd]. assert (Hi81 : i < 81) by exact (inv_bound _ _ _ HI i Hi).
      apply (inv_dot _ _ _ HI') in Hd; auto. apply Hd. }
  intros n. cbn [propagate]. rewrite E, Hst. reflexivity.
Qed.

Lemma C6_witness :
  propagating easyPuzzle (newBoardMap easyPuzzle) /\
  reduceOptions [] (newBoardMap easyPuzzle) =
    (fst (fst (reduceOptions [] (newBoardMap easyPuzzle))),
     snd (fst (reduceOptions [] (newBoardMap easyPuzzle))),
     snd (reduceOptions [] (newBoardMap easyPuzzle))) /\
  ascending (unsolved (newBoardMap easyPuzzle)).
Proof.
  assert (Hv : valid_board easyPuzzle) by (apply valid_by_check; by_computation).
  assert (Hp : propagating easyPuzzle (newBoardMap easyPuzzle))
    by now apply pg_new.
  assert (E : reduceOptions [] (newBoardMap easyPuzzle) =
    (fst (fst (reduceOptions [] (newBoardMap easyPuzzle))),
     snd (fst (reduceOptions [] (newBoardMap easyPuzzle))),
     snd (reduceOptions [] (newBoardMap easyPuzzle)))).
  { destruct (reduceOptions [] (newBoardMap easyPuzzle)) as [[u s] m].
    reflexivity. }
  split; [exact Hp|]. split; [exact E|].
  exact (proj1 (C6_reduceOptions_pass easyPuzzle _ _ _ _ Hp E)).
Defined.

(** C7, as amended: on a valid board, when [solve] returns true the
    bound board has no empty square and keeps the given clues, and it is
    a solved board when the given clues put no symbol twice in a row, a
    column or a block; when [solve] returns false the bound board is
    the board as propagation left it: every square committed before the
    contradiction is still written, nothing is rolled back, and the
    board can differ from the one given (as on [deadBoard]). *)
Theorem C7_board_after_solve n b o :
  valid_board b -> solveBoard n b = Some o ->
  (result o = true ->
     nodots (board (final o)) /\ extends b (board (final o)) /\
     (Consistent b -> solved_board (board (final o)))) /\
  (result o = false ->
     exists m bm, propagate m [] (newBoardMap b) = Some ([], bm) /\
                  board (final o) = board bm /\ extends b (board bm)) /\
  (exists o', solveBoard 5 deadBoard = Some o' /\ result o' = false /\
              cell deadBoard 8 = dot /\
              cell (board (final o')) 8 = "9"%char).
Proof.
  intros Hv E.
  destruct (solve_correct n b o Hv E) as (Hvf & Hext & Ht & _).
  split; [|split].
  - intros Hr. destruct (Ht Hr) as [Hnd Hcf].
    split; [exact Hnd|]. split; [exact Hext|].
    intros Hc. apply solution_solved.
    split; [exact Hvf|]. split; [exact Hnd|auto].
  - intros Hr.
    destruct (solve_false_board n b o Hv E Hr) as (m & bm & Hp & Hb).
    exists m, bm. split; [exact Hp|]. split; [exact Hb|].
    pose proof (propagate_propagating b m _ _ _ (pg_new b Hv) Hp) as Hpg.
    now destruct (propagating_facts _ _ Hpg) as (_ & He & _).
  - exists (outcomeOf 5 deadBoard). split; [by_computation|].
    split; [by_computation|]. split; by_computation.
Qed.

Lemma C7_witness :
  valid_board deadBoard /\
  solveBoard 5 deadBoard = Some (outcomeOf 5 deadBoard) /\
  (result (outcomeOf 5 deadBoard) = false ->
   exists m bm,
     propagate m [] (newBoardMap deadBoard) = Some ([], bm) /\
     board (final (outcomeOf 5 deadBoard)) = board bm /\
     extends deadBoard (board bm)).
Proof.
  assert (Hv : valid_board deadBoard) by (apply valid_by_check; by_computation).
  assert (E : solveBoard 5 deadBoard = Some (outcomeOf 5 deadBoard))
    by by_computation.
  split; [exact Hv|]. split; [exact E|].
  exact (proj1 (proj2 (C7_board_after_solve 5 deadBoard _ Hv E))).
Defined.

(** C7 as stated fails: on a board with one empty square and a symbol
    twice in its last row [solve] returns true, and the bound board is
    not a solved board. *)
Lemma C7_counterexample :
  valid_board clashBoard /\
  exists o, solveBoard 5 clashBoard = Some o /\ result o = true /\
            ~ solved_board (board (final o)).
Proof.
  split; [apply valid_by_check; by_computation|].
  eexists. split; [by_computation|]. split; [reflexivity|].
  intros [_ H]. destruct (H 8 ltac:(lia)) as (Hr & _).
  specialize (Hr 4 ltac:(lia)). vm_compute in Hr. discriminate.
Qed.

(** C8: within one instance no bit of [squares] is ever set after
    construction: whatever a call of [solve] does (propagation with
    [removePossibilities], retraction of failed guesses), a bit set in
    a mask at the end was set in it at the start; so for each
    [removePossibilities] and each retraction. *)
Theorem C8_masks_only_shrink n solved bm o :
  solve n solved bm = Some o ->
  (forall i j, Z.testbit (nth i (squares (final o)) 0%Z) j = true ->
               Z.testbit (nth i (squares bm) 0%Z) j = true) /\
  (forall bm0 index flags i j,
      Z.testbit (nth i (squares (removePossibilities bm0 index flags)) 0%Z) j
      = true ->
      Z.testbit (nth i (squares bm0) 0%Z) j = true) /\
  (forall bm0 gi g i j,
      Z.testbit (nth i (squares (retract bm0 gi g)) 0%Z) j = true ->
      Z.testbit (nth i (squares bm0) 0%Z) j = true).
Proof.
  intros E. split; [|split].
  - intros i. exact (solve_shrinks n solved bm o i E).
  - intros bm0 index flags i. apply removePossibilities_shrinks.
  - intros bm0 gi g i. apply retract_shrinks.
Qed.

Lemma C8_witness :
  solve 20 [] (newBoardMap hardPuzzle) = Some (outcomeOf 20 hardPuzzle) /\
  forall i j,
    Z.testbit (nth i (squares (final (outcomeOf 20 hardPuzzle))) 0%Z) j
    = true ->
    Z.testbit (nth i (squares (newBoardMap hardPuzzle)) 0%Z) j = true.
Proof.
  assert (E : solve 20 [] (newBoardMap hardPuzzle)
              = Some (outcomeOf 20 hardPuzzle)) by by_computation.
  split; [exact E|].
  exact (proj1 (C8_masks_only_shrink 20 [] _ _ E)).
Defined.

(** C9, as amended: after construction and after each pass of
    [reduceOptions], [unsolved] is exactly the set of squares whose mask
    does not have exactly one bit; a retraction leaves [unsolved] as it
    is, so that at the head of the search loop every square outside
    [unsolved] has exactly one bit, while a square of [unsolved] may
    have one bit too. *)
Theorem C9_unsolved_tracking b bm :
  propagating b bm ->
  tracks bm /\
  (forall updated st bm',
      reduceOptions [] bm = (updated, st, bm') -> tracks bm') /\
  (forall bm', searching b bm' ->
      (forall i, i < 81 -> ~ In i (unsolved bm') ->
                 numPossibilities bm' i = 1) /\
      (forall gi g, unsolved (retract bm' gi g) = unsolved bm')).
Proof.
  intros Hp. destruct (propagating_facts _ _ Hp) as (HI & _ & _ & _ & HT).
  split; [now apply Inv_tracks|]. split.
  - intros updated st bm' E.
    destruct (reduceOptions_Inv _ _ _ _ HI E) as [_ HI'].
    destruct (reduceOptions_keeps _ _ _ _ HI E) as (_ & _ & _ & K).
    apply Inv_tracks; auto.
  - intros bm' Hs. destruct (searching_facts _ _ Hs) as (HI' & _).
    split; [|reflexivity]. intros i Hi Hn. now apply Inv_solved_one.
Qed.

Lemma C9_witness :
  propagating hardPuzzle (newBoardMap hardPuzzle) /\
  tracks (newBoardMap hardPuzzle).
Proof.
  assert (Hv : valid_board hardPuzzle) by (apply valid_by_check; by_computation).
  assert (Hp : propagating hardPuzzle (newBoardMap hardPuzzle))
    by now apply pg_new.
  split; [exact Hp|].
  exact (proj1 (C9_unsolved_tracking hardPuzzle _ Hp)).
Defined.

(** C9 as stated fails after a retraction: on [hardPuzzle] the guess of
    symbol 3 at square 0, which has two candidates, fails; after the
    retraction square 0 has exactly one bit and is still in
    [unsolved]. *)
Lemma C9_counterexample :
  exists bm,
    searching hardPuzzle bm /\ selectGuess bm = Some 0 /\
    firstGuess bm 0 = 3 /\
    searching hardPuzzle (retract bm 0 (firstGuess bm 0)) /\
    In 0 (unsolved (retract bm 0 (firstGuess bm 0))) /\
    numPossibilities (retract bm 0 (firstGuess bm 0)) 0 = 1 /\
    ~ tracks (retract bm 0 (firstGuess bm 0)).
Proof.
  assert (Hv : valid_board hardPuzzle) by (apply valid_by_check; by_computation).
  assert (Hs : searching hardPuzzle (propagated 20 hardPuzzle)).
  { apply (propagate_searching hardPuzzle 20 (newBoardMap hardPuzzle) []).
    - now apply pg_new.
    - by_computation. }
  exists (propagated 20 hardPuzzle).
  assert (Hin : In 0 (unsolved (retract (propagated 20 hardPuzzle) 0
                         (firstGuess (propagated 20 hardPuzzle) 0)))).
  { vm_compute. now left. }
  assert (Hone : numPossibilities
                   (retract (propagated 20 hardPuzzle) 0
                      (firstGuess (propagated 20 hardPuzzle) 0)) 0 = 1)
    by by_computation.
  split; [exact Hs|]. split; [by_computation|]. split; [by_computation|].
  split; [|split; [exact Hin|split; [exact Hone|]]].
  - eapply (sr_retract hardPuzzle _ 0 20 _ Hs).
    + vm_compute. discriminate.
    + by_computation.
    + by_computation.
    + reflexivity.
  - exact (not_tracks _ 0 Hin Hone).
Qed.

(** C10: on a valid board [solve] never changes a given clue: whether
    it returns true or false, every square that was filled at
    construction holds its original symbol in the bound board. *)
Theorem C10_clues_preserved n b o i :
  valid_board b -> solveBoard n b = Some o ->
  i < 81 -> cell b i <> dot ->
  cell (board (final o)) i = cell b i.
Proof.
  intros Hv E Hi Hd.
  destruct (solve_correct n b o Hv E) as (_ & Hext & _).
  now apply Hext.
Qed.

Lemma C10_witness :
  valid_board deadBoard /\
  solveBoard 5 deadBoard = Some (outcomeOf 5 deadBoard) /\
  0 < 81 /\ cell deadBoard 0 <> dot /\
  cell (board (final (outcomeOf 5 deadBoard))) 0 = cell deadBoard 0.
Proof.
  assert (Hv : valid_board deadBoard) by (apply valid_by_check; by_computation).
  assert (E : solveBoard 5 deadBoard = Some (outcomeOf 5 deadBoard))
    by by_computation.
  assert (Hi : 0 < 81) by lia.
  assert (Hd : cell deadBoard 0 <> dot) by (vm_compute; discriminate).
  split; [exact Hv|]. split; [exact E|]. split; [exact Hi|].
  split; [exact Hd|].
  exact (C10_clues_preserved 5 deadBoard _ 0 Hv E Hi Hd).
Defined.

(** * Further properties of the code *)

(** ** Helpers *)

(** Consecutive integers, for checks by enumeration. *)
Fixpoint zrange (n : nat) (z : Z) : list Z :=
  match n with
  | O => []
  | S n' => z :: zrange n' (Z.succ z)
  end.

Lemma In_zrange n z m :
  In m (zrange n z) <-> (z <= m < z + Z.of_nat n)%Z.
Proof.
  revert z; induction n as [|n IH]; intros z.
  - simpl. lia.
  - cbn [zrange In]. rewrite IH. lia.
Qed.

(** The number of set bits among bits 0 to 15. *)
Definition popcount16 (v : Z) : nat :=
  length (filter (fun k => Z.testbit v (Z.of_nat k)) (seq 0 16)).

Lemma countBits_popcount16 v :
  (0 <= v < 65536)%Z -> countBits v = popcount16 v.
Proof.
  intros Hv.
  assert (E : forallb (fun v => countBits v =? popcount16 v)
                      (zrange (256 * 256) 0) = true) by by_computation.
  rewrite forallb_forall in E. apply Nat.eqb_eq, E, In_zrange. lia.
Qed.

Lemma completes_Consistent b s : completes b s -> Consistent b.
Proof.
  intros Hs. apply completes_solution in Hs.
  destruct Hs as [(_ & _ & Hc) He]. intros i j Hi Hj Hne Hd E.
  assert (Hdj : cell b j <> dot) by congruence.
  apply Hc; auto.
  - rewrite He; auto.
  - rewrite !He; auto.
Qed.

Lemma solve_true_completes n b o :
  valid_board b -> Consistent b -> solveBoard n b = Some o ->
  result o = true -> completes b (board (final o)).
Proof.
  intros Hv Hc E Hr.
  destruct (solve_correct n b o Hv E) as (Hvf & Hext & Ht & _).
  destruct (Ht Hr) as [Hnd Hcf]. apply completes_solution.
  split; [|exact Hext]. split; [exact Hvf|]. split; [exact Hnd|auto].
Qed.

Lemma solve_false_unsolvable n b o :
  valid_board b -> solveBoard n b = Some o -> result o = false ->
  ~ exists s, completes b s.
Proof.
  intros Hv E Hr [s Hs]. apply completes_solution in Hs.
  destruct Hs as [Hs He].
  destruct (solve_correct n b o Hv E) as (_ & _ & _ & Hf).
  exact (Hf Hr s Hs He).
Qed.

(** ** numPossibilities *)

(** X1: for every value a [uint16_t] can hold, [numPossibilities]
    returns the number of its set bits; the halving loop is done within
    sixteen rounds. *)
Theorem X1_numPossibilities_popcount bm index :
  (0 <= nth index (squares bm) 0 < 65536)%Z ->
  numPossibilities bm index = popcount16 (nth index (squares bm) 0%Z) /\
  numPossibilities bm index <= 16.
Proof.
  intros Hv. unfold numPossibilities. rewrite countBits_popcount16 by exact Hv.
  split; [reflexivity|]. unfold popcount16.
  apply Nat.le_trans with (length (seq 0 16)); [apply filter_length_le|].
  rewrite length_seq. apply Nat.le_refl.
Qed.

Lemma X1_witness :
  (0 <= nth 0 (squares (newBoardMap emptyBoard)) 0 < 65536)%Z /\
  numPossibilities (newBoardMap emptyBoard) 0 = 9.
Proof.
  assert (Hv : (0 <= nth 0 (squares (newBoardMap emptyBoard)) 0 < 65536)%Z).
  { split; [apply Z.leb_le|apply Z.ltb_lt]; by_computation. }
  split; [exact Hv|].
  rewrite (proj1 (X1_numPossibilities_popcount (newBoardMap emptyBoard) 0 Hv)).
  by_computation.
Defined.

(** ** toChar and the constructor's encoding *)

(** X2: [toChar] inverts the constructor's encoding [1 << (c - '1')] of
    the symbols ['1']-['9'], and answers ['.'] for every other mask,
    the empty mask and masks of several bits included. *)
Theorem X2_toChar_roundtrip m k :
  k < 9 ->
  toChar (charBit (symbol k)) = symbol k /\
  charBit (symbol k) = bit k /\
  (toChar m <> dot ->
     charBit (toChar m) = m /\ exists k', k' < 9 /\ m = bit k') /\
  ((forall k', k' < 9 -> m <> bit k') -> toChar m = dot) /\
  toChar 0 = dot.
Proof.
  intros Hk. rewrite charBit_symbol by exact Hk.
  split; [now apply toChar_bit|]. split; [reflexivity|]. split; [|split].
  - intros Hd. destruct (toChar_spec m Hd) as (k' & Hk' & Hm & Hc).
    split; [|eauto]. rewrite Hc, Hm. now apply charBit_symbol.
  - intros Hno. destruct (ascii_dec (toChar m) dot) as [E|E]; [exact E|].
    destruct (toChar_spec m E) as (k' & Hk' & Hm & _).
    now destruct (Hno k' Hk').
  - reflexivity.
Qed.

Lemma X2_witness :
  4 < 9 /\ toChar (charBit (symbol 4)) = symbol 4.
Proof.
  assert (H : 4 < 9) by lia.
  split; [exact H|]. exact (proj1 (X2_toChar_roundtrip 0%Z 4 H)).
Defined.

(** ** Index arithmetic *)

(** X3: for a square index below 81 the row, column and block indices
    are below 9; row and column determine the square; two squares share
    a block exactly when their rows and their columns fall in the same
    thirds; and the square's row, column and block have nine squares
    each. *)
Theorem X3_index_geometry i :
  i < 81 ->
  rowIndex i < 9 /\ columnIndex i < 9 /\ blockIndex i < 9 /\
  i = 9 * rowIndex i + columnIndex i /\
  (forall j, rowIndex j = rowIndex i -> columnIndex j = columnIndex i ->
             j = i) /\
  (forall j, j < 81 ->
     (blockIndex j = blockIndex i <->
      rowIndex j / 3 = rowIndex i / 3 /\
      columnIndex j / 3 = columnIndex i / 3)) /\
  length (groupCells rowIndex (rowIndex i)) = 9 /\
  length (groupCells columnIndex (columnIndex i)) = 9 /\
  length (groupCells blockIndex (blockIndex i)) = 9.
Proof.
  intros Hi.
  pose proof (rowIndex_lt i Hi) as Hr. pose proof (columnIndex_lt i) as Hc.
  pose proof (blockIndex_lt i Hi) as Hb.
  split; [exact Hr|]. split; [exact Hc|]. split; [exact Hb|].
  split; [unfold rowIndex, columnIndex; apply Nat.div_mod_eq|].
  split; [intros j H1 H2; now apply index_inj|]. split.
  - intros j Hj. unfold blockIndex.
    pose proof (rowIndex_lt j Hj) as Hrj. pose proof (columnIndex_lt j) as Hcj.
    assert (columnIndex i / 3 < 3) by (apply Nat.Div0.div_lt_upper_bound; lia).
    assert (columnIndex j / 3 < 3) by (apply Nat.Div0.div_lt_upper_bound; lia).
    lia.
  - destruct (length_groupCells _ Hr) as (L1 & _ & _).
    destruct (length_groupCells _ Hc) as (_ & L2 & _).
    destruct (length_groupCells _ Hb) as (_ & _ & L3).
    split; [exact L1|]. split; [exact L2|exact L3].
Qed.

Lemma X3_witness : 40 < 81 /\ blockIndex 40 < 9.
Proof.
  assert (H : 40 < 81) by lia.
  split; [exact H|]. exact (proj1 (proj2 (proj2 (X3_index_geometry 40 H)))).
Defined.

(** ** removePossibilities *)

(** X4: [removePossibilities] clears in [squares[index]] exactly the
    bits set in [flags] and touches nothing else; the result lies
    between 0 and the old value, so that storing the promoted [int]
    back into the [uint16_t] loses nothing. *)
Theorem X4_removePossibilities bm index flags :
  index < length (squares bm) ->
  (0 <= nth index (squares bm) 0 < 65536)%Z ->
  let bm' := removePossibilities bm index flags in
  (forall j, (0 <= j)%Z ->
     Z.testbit (nth index (squares bm') 0%Z) j =
     Z.testbit (nth index (squares bm) 0%Z) j && negb (Z.testbit flags j)) /\
  (0 <= nth index (squares bm') 0 <= nth index (squares bm) 0)%Z /\
  u16 (nth index (squares bm') 0%Z) = nth index (squares bm') 0%Z /\
  (forall i, i <> index ->
     nth i (squares bm') 0%Z = nth i (squares bm) 0%Z) /\
  board bm' = board bm /\ unsolved bm' = unsolved bm /\
  rows bm' = rows bm /\ columns bm' = columns bm /\ blocks bm' = blocks bm.
Proof.
  intros Hlen Hv bm'. unfold bm', removePossibilities, set_square.
  cbn [board unsolved squares rows columns blocks].
  rewrite nth_upd_eq by exact Hlen.
  set (a := nth index (squares bm) 0%Z) in *.
  assert (Hsum : (Z.land a flags + Z.land a (Z.lnot flags) = a)%Z).
  { rewrite Z.add_nocarry_lxor.
    - apply Z.bits_inj'. intros j Hj.
      rewrite Z.lxor_spec, !Z.land_spec, Z.lnot_spec by exact Hj.
      destruct (Z.testbit a j), (Z.testbit flags j); reflexivity.
    - apply Z.bits_inj'. intros j Hj.
      rewrite !Z.land_spec, Z.lnot_spec, Z.bits_0 by exact Hj.
      destruct (Z.testbit a j), (Z.testbit flags j); reflexivity. }
  assert (H1 : (0 <= Z.land a flags)%Z) by (apply Z.land_nonneg; lia).
  assert (H2 : (0 <= Z.land a (Z.lnot flags))%Z)
    by (apply Z.land_nonneg; lia).
  split; [|split; [|split; [|split]]].
  - intros j Hj. now rewrite Z.land_spec, Z.lnot_spec.
  - lia.
  - unfold u16. apply Z.mod_small. lia.
  - intros i Hne. apply nth_upd_neq. congruence.
  - repeat split.
Qed.

Lemma X4_witness :
  0 < length (squares (newBoardMap emptyBoard)) /\
  (0 <= nth 0 (squares (newBoardMap emptyBoard)) 0 < 65536)%Z /\
  board (removePossibilities (newBoardMap emptyBoard) 0 5)
  = board (newBoardMap emptyBoard).
Proof.
  assert (Hl : 0 < length (squares (newBoardMap emptyBoard))).
  { apply Nat.ltb_lt. by_computation. }
  assert (Hv : (0 <= nth 0 (squares (newBoardMap emptyBoard)) 0 < 65536)%Z).
  { split; [apply Z.leb_le|apply Z.ltb_lt]; by_computation. }
  split; [exact Hl|]. split; [exact Hv|].
  exact (proj1 (proj2 (proj2 (proj2 (proj2
    (X4_removePossibilities (newBoardMap emptyBoard) 0 5 Hl Hv)))))).
Defined.

(** ** Invariants of the states of a run *)

Lemma reachable_Inv b bm :
  propagating b bm \/ searching b bm -> Inv [] bm.
Proof.
  intros [H|H].
  - now destruct (propagating_facts _ _ H).
  - now destruct (searching_facts _ _ H).
Qed.

Lemma searching_guess b bm gi :
  searching b bm -> unsolved bm <> [] -> selectGuess bm = Some gi ->
  exists g0, firstGuess bm gi = S g0 /\ g0 < 9 /\ gi < 81 /\
             valid_board (boardCopy bm gi (S g0)).
Proof.
  intros Hs Hne Hsel. destruct (searching_facts _ _ Hs) as (HI & HS & _).
  pose proof (first_minimum_In _ _
                (selectGuess_first_minimum _ _ HI HS Hne Hsel)) as Hin.
  assert (Hgi : gi < 81) by (eapply inv_bound; eauto).
  pose proof (selectGuess_nonzero _ _ HI HS Hne Hsel) as Hnz.
  destruct (firstGuess_spec bm gi HI Hgi Hnz) as (g0 & Eg & Hg0 & _).
  exists g0. split; [exact Eg|]. split; [exact Hg0|]. split; [exact Hgi|].
  now apply boardCopy_valid.
Qed.

Lemma searching_Complete b bm s :
  searching b bm -> solution s -> extends b s -> Complete [] bm s.
Proof.
  intros Hs Hsol He.
  induction Hs as [bm st bm' Hp E|bm gi n sub Hs IH Hne Hsel Hsub Hres].
  - destruct (searching_enter_facts _ _ _ _ Hp E) as [-> _].
    destruct (propagating_facts _ _ Hp) as (_ & _ & _ & HC & _). auto.
  - destruct (searching_guess _ _ _ Hs Hne Hsel) as (g0 & Eg & Hg0 & Hgi & Hv).
    rewrite Eg in *.
    destruct (Complete_guess _ _ _ _ s Hs Hne Hsel Eg Hsol IH) as [H|H];
      [|exact H].
    exfalso.
    destruct (solve_correct n _ sub Hv Hsub) as (_ & _ & _ & Hf).
    exact (Hf Hres s Hsol H).
Qed.

(** ** The constructor *)

(** X5: on a valid board the constructor keeps the board, lists in
    [unsolved] exactly the empty squares, in ascending order, gives an
    empty square all nine candidates and a clue the single bit of its
    symbol, and sets in each row, column and block mask exactly the
    symbols of the clues of that group. *)
Theorem X5_constructor b :
  valid_board b ->
  board (newBoardMap b) = b /\
  ascending (unsolved (newBoardMap b)) /\
  (forall i, In i (unsolved (newBoardMap b)) <-> i < 81 /\ cell b i = dot) /\
  (forall i, i < 81 ->
     nth i (squares (newBoardMap b)) 0%Z =
     if Ascii.eqb (cell b i) dot then 511%Z else charBit (cell b i)) /\
  (forall g k, g < 9 -> k < 9 ->
     (has (nth g (rows (newBoardMap b)) 0%Z) k = true <->
      exists i, i < 81 /\ rowIndex i = g /\ cell b i = symbol k) /\
     (has (nth g (columns (newBoardMap b)) 0%Z) k = true <->
      exists i, i < 81 /\ columnIndex i = g /\ cell b i = symbol k) /\
     (has (nth g (blocks (newBoardMap b)) 0%Z) k = true <->
      exists i, i < 81 /\ blockIndex i = g /\ cell b i = symbol k)).
Proof.
  intros Hv. pose proof (newBoardMap_inv b Hv) as HI.
  pose proof (newBoardMap_board b Hv) as Hb.
  split; [exact Hb|]. split; [eapply inv_asc; eauto|]. split; [|split].
  - intros i. split.
    + intros Hi. assert (Hi81 : i < 81) by (eapply inv_bound; eauto).
      split; [exact Hi81|]. rewrite <- Hb at 1.
      apply (inv_dot _ _ _ HI); auto.
    + intros [Hi Hd]. rewrite <- Hb in Hd at 1.
      apply (inv_dot _ _ _ HI) in Hd; auto. apply Hd.
  - intros i Hi. destruct (Ascii.eqb_spec (cell b i) dot) as [E|E].
    + now apply newBoardMap_511.
    + rewrite <- Hb in E at 1.
      destruct (inv_sym _ _ _ HI i Hi E) as (k & Hk & Hs & Hq).
      rewrite Hb in Hs. rewrite Hq, Hs. symmetry. now apply charBit_symbol.
  - intros g k Hg Hk.
    destruct (inv_rows _ _ _ HI) as [_ Sr].
    destruct (inv_columns _ _ _ HI) as [_ Sc].
    destruct (inv_blocks _ _ _ HI) as [_ Sb].
    rewrite Hb in Sr, Sc, Sb.
    split; [apply (Sr g Hg); exact Hk|].
    split; [apply (Sc g Hg); exact Hk|apply (Sb g Hg); exact Hk].
Qed.

Lemma X5_witness :
  valid_board hardPuzzle /\ board (newBoardMap hardPuzzle) = hardPuzzle.
Proof.
  assert (Hv : valid_board hardPuzzle) by (apply valid_by_check; by_computation).
  split; [exact Hv|]. exact (proj1 (X5_constructor hardPuzzle Hv)).
Defined.

(** X6: in every state of a run (between passes and at the head of the
    search loop) the group masks hold exactly what the board shows: the
    bit of a symbol is set in a row, column or block mask if and only
    if some square of that group holds the symbol; so the bit of every
    solved square is set in the masks of its three groups, and no mask
    has a bit beyond the ninth. *)
Theorem X6_group_masks b bm :
  propagating b bm \/ searching b bm ->
  (forall g k, g < 9 -> k < 9 ->
     (has (nth g (rows bm) 0%Z) k = true <->
      exists i, i < 81 /\ rowIndex i = g /\ cell (board bm) i = symbol k) /\
     (has (nth g (columns bm) 0%Z) k = true <->
      exists i, i < 81 /\ columnIndex i = g /\
                cell (board bm) i = symbol k) /\
     (has (nth g (blocks bm) 0%Z) k = true <->
      exists i, i < 81 /\ blockIndex i = g /\
                cell (board bm) i = symbol k)) /\
  (forall i k, i < 81 -> k < 9 -> cell (board bm) i = symbol k ->
     has (nth (rowIndex i) (rows bm) 0%Z) k = true /\
     has (nth (columnIndex i) (columns bm) 0%Z) k = true /\
     has (nth (blockIndex i) (blocks bm) 0%Z) k = true) /\
  (forall g, g < 9 ->
     (0 <= nth g (rows bm) 0 < 512)%Z /\
     (0 <= nth g (columns bm) 0 < 512)%Z /\
     (0 <= nth g (blocks bm) 0 < 512)%Z).
Proof.
  intros Hr. pose proof (reachable_Inv _ _ Hr) as HI.
  destruct (inv_rows _ _ _ HI) as [_ Sr].
  destruct (inv_columns _ _ _ HI) as [_ Sc].
  destruct (inv_blocks _ _ _ HI) as [_ Sb].
  split; [|split].
  - intros g k Hg Hk.
    split; [apply (Sr g Hg); exact Hk|].
    split; [apply (Sc g Hg); exact Hk|apply (Sb g Hg); exact Hk].
  - intros i k Hi Hk Hs.
    split; [|split].
    + apply (Sr _ (rowIndex_lt i Hi)); [exact Hk|]. exists i. auto.
    + apply (Sc _ (columnIndex_lt i)); [exact Hk|]. exists i. auto.
    + apply (Sb _ (blockIndex_lt i Hi)); [exact Hk|]. exists i. auto.
  - intros g Hg. split; [apply (Sr g Hg)|].
    split; [apply (Sc g Hg)|apply (Sb g Hg)].
Qed.

Lemma X6_witness :
  (propagating hardPuzzle (newBoardMap hardPuzzle)
   \/ searching hardPuzzle (newBoardMap hardPuzzle)) /\
  (0 <= nth 0 (rows (newBoardMap hardPuzzle)) 0 < 512)%Z.
Proof.
  assert (Hv : valid_board hardPuzzle) by (apply valid_by_check; by_computation).
  assert (Hr : propagating hardPuzzle (newBoardMap hardPuzzle)
               \/ searching hardPuzzle (newBoardMap hardPuzzle))
    by (left; now apply pg_new).
  split; [exact Hr|].
  exact (proj1 (proj2 (proj2 (X6_group_masks hardPuzzle _ Hr)) 0
                  ltac:(lia))).
Defined.

(** X7: in every state of a run the board and the tables agree: all
    indices of [unsolved] are below 81 and ascending, a square is in
    [unsolved] exactly when the board shows ['.'] there, every mask
    has nine bits at most, and the mask of a filled square is the bit of
    the symbol on the board, which [toChar] gives back. *)
Theorem X7_board_table_agree b bm :
  propagating b bm \/ searching b bm ->
  valid_board (board bm) /\ length (squares bm) = 81 /\
  ascending (unsolved bm) /\
  (forall i, In i (unsolved bm) -> i < 81) /\
  (forall i, i < 81 -> (cell (board bm) i = dot <-> In i (unsolved bm))) /\
  (forall i, i < 81 -> (0 <= nth i (squares bm) 0 < 512)%Z) /\
  (forall i, i < 81 -> cell (board bm) i <> dot ->
     nth i (squares bm) 0%Z = charBit (cell (board bm) i) /\
     toChar (nth i (squares bm) 0%Z) = cell (board bm) i).
Proof.
  intros Hr. pose proof (reachable_Inv _ _ Hr) as HI.
  split; [eapply Inv_valid; eauto|]. split; [eapply inv_len; eauto|].
  split; [eapply inv_asc; eauto|]. split; [eapply inv_bound; eauto|].
  split; [|split].
  - intros i Hi. rewrite (inv_dot _ _ _ HI i Hi). intuition.
  - intros i Hi. apply (inv_mask _ _ _ HI i Hi).
  - intros i Hi Hd. destruct (inv_sym _ _ _ HI i Hi Hd) as (k & Hk & Hs & Hq).
    rewrite Hs, Hq. split.
    + symmetry. now apply charBit_symbol.
    + now apply toChar_bit.
Qed.

Lemma X7_witness :
  (propagating hardPuzzle (newBoardMap hardPuzzle)
   \/ searching hardPuzzle (newBoardMap hardPuzzle)) /\
  length (squares (newBoardMap hardPuzzle)) = 81.
Proof.
  assert (Hv : valid_board hardPuzzle) by (apply valid_by_check; by_computation).
  assert (Hr : propagating hardPuzzle (newBoardMap hardPuzzle)
               \/ searching hardPuzzle (newBoardMap hardPuzzle))
    by (left; now apply pg_new).
  split; [exact Hr|].
  exact (proj1 (proj2 (X7_board_table_agree hardPuzzle _ Hr))).
Defined.

(** X8: neither propagation nor the retraction of a failed guess ever
    discards what a completion of the given board needs: in every state
    of a run, every square written so far holds the symbol it has in
    every completion, and the symbol a completion puts on an unsolved
    square is still among that square's candidates. *)
Theorem X8_completions_kept b bm s :
  propagating b bm \/ searching b bm -> completes b s ->
  (forall i, i < 81 -> cell (board bm) i <> dot ->
             cell s i = cell (board bm) i) /\
  (forall i, In i (unsolved bm) ->
     exists k, k < 9 /\ cell s i = symbol k /\
               has (nth i (squares bm) 0%Z) k = true).
Proof.
  intros Hr Hs. apply completes_solution in Hs. destruct Hs as [Hsol He].
  pose proof (reachable_Inv _ _ Hr) as HI.
  assert (HC : Complete [] bm s).
  { destruct Hr as [Hp|Hs].
    - destruct (propagating_facts _ _ Hp) as (_ & _ & _ & HC & _). auto.
    - now apply (searching_Complete b). }
  destruct HC as [Hext Hc]. split; [exact Hext|].
  intros i Hi. assert (Hi81 : i < 81) by (eapply inv_bound; eauto).
  destruct (solution_symbol s i Hsol Hi81) as (k & Hk & Hsk).
  exists k. split; [exact Hk|]. split; [exact Hsk|].
  apply Hc; auto.
Qed.

Lemma X8_witness :
  (propagating easyPuzzle (newBoardMap easyPuzzle)
   \/ searching easyPuzzle (newBoardMap easyPuzzle)) /\
  completes easyPuzzle (board (final (outcomeOf 20 easyPuzzle))) /\
  (forall i, i < 81 -> cell (board (newBoardMap easyPuzzle)) i <> dot ->
     cell (board (final (outcomeOf 20 easyPuzzle))) i
     = cell (board (newBoardMap easyPuzzle)) i).
Proof.
  assert (Hv : valid_board easyPuzzle) by (apply valid_by_check; by_computation).
  assert (Hr : propagating easyPuzzle (newBoardMap easyPuzzle)
               \/ searching easyPuzzle (newBoardMap easyPuzzle))
    by (left; now apply pg_new).
  assert (Hc : completes easyPuzzle (board (final (outcomeOf 20 easyPuzzle)))).
  { assert (Hcs : Consistent easyPuzzle)
      by (apply consistentb_spec; by_computation).
    assert (E : solveBoard 20 easyPuzzle = Some (outcomeOf 20 easyPuzzle))
      by by_computation.
    assert (Ht : result (outcomeOf 20 easyPuzzle) = true) by by_computation.
    exact (solve_true_completes 20 _ _ Hv Hcs E Ht). }
  split; [exact Hr|]. split; [exact Hc|].
  exact (proj1 (X8_completions_kept easyPuzzle _ _ Hr Hc)).
Defined.

(** ** solve *)

Lemma no_members_nil (l : list nat) : (forall x, ~ In x l) -> l = [].
Proof.
  destruct l as [|x l]; [reflexivity|]. intros H.
  now destruct (H x (or_introl eq_refl)).
Qed.

(** X9: on a valid board without empty square [solve] returns true at
    once: it makes no guess and leaves the board and the masks as the
    constructor set them, whether or not the board obeys the Sudoku
    constraints. *)
Theorem X9_full_board_accepted n b :
  valid_board b -> nodots b -> 2 <= n ->
  exists o, solveBoard n b = Some o /\ result o = true /\
            guesses o = [] /\ board (final o) = b /\
            squares (final o) = squares (newBoardMap b).
Proof.
  intros Hv Hnd Hn. pose proof (newBoardMap_inv b Hv) as HI.
  assert (Hu : unsolved (newBoardMap b) = []).
  { apply no_members_nil. intros x Hx.
    assert (Hx81 : x < 81) by (eapply inv_bound; eauto).
    apply (Hnd x Hx81). rewrite <- (newBoardMap_board b Hv) at 1.
    apply (inv_dot _ _ _ HI); auto. }
  destruct n as [|[|f]]; try lia.
  unfold solveBoard. cbn [solve propagate]. change USet.empty with (@nil nat).
  destruct (reduceOptions [] (newBoardMap b)) as [[u s] bm1] eqn:E.
  destruct (reduceOptions_count _ _ _ _ HI E) as (Hc & _ & H0).
  rewrite Hu in Hc. cbn [filter length] in Hc. subst u.
  destruct (H0 eq_refl) as [-> _].
  rewrite (reduceOptions_static _ _ _ _ _ E).
  cbn [Nat.ltb Nat.leb search]. rewrite Hu. cbn [USet.is_empty].
  eexists. split; [reflexivity|]. cbn [result guesses final].
  split; [reflexivity|]. split; [reflexivity|].
  split; [now apply newBoardMap_board|reflexivity].
Qed.

Lemma X9_witness :
  valid_board allOnes /\ nodots allOnes /\ 2 <= 2 /\
  exists o, solveBoard 2 allOnes = Some o /\ result o = true /\
            guesses o = [] /\ board (final o) = allOnes /\
            squares (final o) = squares (newBoardMap allOnes).
Proof.
  assert (Hv : valid_board allOnes) by (apply valid_by_check; by_computation).
  assert (Hnd : nodots allOnes).
  { intros i Hi.
    assert (E : forallb (fun i => negb (Ascii.eqb (cell allOnes i) dot))
                        (seq 0 81) = true) by by_computation.
    rewrite forallb_forall in E.
    assert (Hin : In i (seq 0 81)) by (apply in_seq; lia).
    specialize (E i Hin). apply negb_true_iff in E.
    now apply Ascii.eqb_neq. }
  split; [exact Hv|]. split; [exact Hnd|]. split; [apply Nat.le_refl|].
  exact (X9_full_board_accepted 2 allOnes Hv Hnd (Nat.le_refl 2)).
Defined.

(** X10: every guess of a run on a valid board is within bounds and
    legal on the board it is made on. The guess is the selection of the
    code at the head of the search loop of a call of this run (on the
    given board or on a copy made for an earlier guess of the run); the
    square index is below 81, the symbol is between 1 and 9, so that
    ['0' + guess] is a symbol; on the board of that state the square is
    empty and the symbol occurs nowhere in the square's row, column or
    block. *)
Theorem X10_guesses_legal n b o gi g :
  valid_board b -> solveBoard n b = Some o -> In (gi, g) (guesses o) ->
  gi < 81 /\ 1 <= g <= 9 /\ guessChar g = symbol (g - 1) /\
  exists b' bm,
    attempted b b' /\ searching b' bm /\
    selectGuess bm = Some gi /\ firstGuess bm gi = g /\
    cell (board bm) gi = dot /\
    valid_board (boardCopy bm gi g) /\
    forall j, j < 81 -> cell (board bm) j = symbol (g - 1) ->
      rowIndex j <> rowIndex gi /\ columnIndex j <> columnIndex gi /\
      blockIndex j <> blockIndex gi.
Proof.
  intros Hv E Hin.
  destruct (solve_guesses_made n b o Hv E gi g Hin)
    as (b' & bm & Ha & Hs & Hne & Hsel & Hg).
  destruct (searching_guess _ _ _ Hs Hne Hsel)
    as (g0 & Eg & Hg0 & Hgi & Hvc).
  destruct (guess_facts _ _ _ _ Hs Hne Hsel Eg)
    as (_ & _ & _ & Hd & _ & _ & Hfree).
  rewrite Eg in Hg. subst g.
  replace (S g0 - 1) with g0 by lia.
  split; [exact Hgi|]. split; [lia|].
  split; [exact (guessChar_symbol g0)|].
  exists b', bm. split; [exact Ha|]. split; [exact Hs|].
  split; [exact Hsel|]. split; [exact Eg|]. split; [exact Hd|].
  split; [exact Hvc|exact Hfree].
Qed.

Lemma X10_witness :
  valid_board hardPuzzle /\
  solveBoard 20 hardPuzzle = Some (outcomeOf 20 hardPuzzle) /\
  In (0, 3) (guesses (outcomeOf 20 hardPuzzle)) /\
  0 < 81 /\ 1 <= 3 <= 9.
Proof.
  assert (Hv : valid_board hardPuzzle) by (apply valid_by_check; by_computation).
  assert (E : solveBoard 20 hardPuzzle = Some (outcomeOf 20 hardPuzzle))
    by by_computation.
  assert (Hin : In (0, 3) (guesses (outcomeOf 20 hardPuzzle))).
  { replace (guesses (outcomeOf 20 hardPuzzle)) with [(0, 3); (0, 5)]
      by by_computation.
    now left. }
  split; [exact Hv|]. split; [exact E|]. split; [exact Hin|].
  destruct (X10_guesses_legal 20 hardPuzzle _ 0 3 Hv E Hin) as (H1 & H2 & _).
  split; [exact H1|exact H2].
Defined.

(** X11: on a valid board that has a completion [solve] returns true
    and the bound board holds a completion; when the completion is
    unique, the bound board is that completion. *)
Theorem X11_solvable_is_solved n b s :
  valid_board b -> completes b s -> 812 <= n ->
  exists o, solveBoard n b = Some o /\ result o = true /\
            completes b (board (final o)) /\
            ((forall s', completes b s' ->
                forall i, i < 81 -> cell s' i = cell s i) ->
             forall i, i < 81 -> cell (board (final o)) i = cell s i).
Proof.
  intros Hv Hs Hn. destruct (solve_terminates b n Hv Hn) as [o E].
  exists o. split; [exact E|].
  assert (Hr : result o = true).
  { destruct (result o) eqn:Hr; [reflexivity|]. exfalso.
    apply (solve_false_unsolvable n b o Hv E Hr). now exists s. }
  pose proof (solve_true_completes n b o Hv (completes_Consistent b s Hs) E Hr)
    as Hc.
  split; [exact Hr|]. split; [exact Hc|].
  intros Huniq. exact (Huniq _ Hc).
Qed.

Lemma X11_witness :
  valid_board easyPuzzle /\
  completes easyPuzzle (board (final (outcomeOf 20 easyPuzzle))) /\
  812 <= 812 /\
  exists o, solveBoard 812 easyPuzzle = Some o /\ result o = true.
Proof.
  assert (Hv : valid_board easyPuzzle) by (apply valid_by_check; by_computation).
  assert (Hcs : Consistent easyPuzzle)
    by (apply consistentb_spec; by_computation).
  assert (E : solveBoard 20 easyPuzzle = Some (outcomeOf 20 easyPuzzle))
    by by_computation.
  assert (Ht : result (outcomeOf 20 easyPuzzle) = true) by by_computation.
  pose proof (solve_true_completes 20 _ _ Hv Hcs E Ht) as Hc.
  split; [exact Hv|]. split; [exact Hc|]. split; [apply Nat.le_refl|].
  destruct (X11_solvable_is_solved 812 easyPuzzle _ Hv Hc (Nat.le_refl 812))
    as (o & Eo & Hr & _).
  exists o. split; [exact Eo|exact Hr].
Defined.

(** ** reduceOptions *)

(** X12: the value a pass returns is at most the number of unsolved
    squares, hence at most 81, and never wraps in its [uint8_t]; a pass
    that returns zero leaves the whole instance as it was, every
    unsolved square then being free of the symbols of its row, column
    and block; a pass that returns more removes at least one candidate;
    and no pass touches the mask of a square outside [unsolved]. *)
Theorem X12_pass_counter b bm updated st bm' :
  propagating b bm -> reduceOptions [] bm = (updated, st, bm') ->
  updated <= length (unsolved bm) /\ length (unsolved bm) <= 81 /\
  (updated = 0 ->
     bm' = bm /\
     forall i k, In i (unsolved bm) ->
       has (nth i (squares bm) 0%Z) k = true ->
       has (nth (rowIndex i) (rows bm) 0%Z) k = false /\
       has (nth (columnIndex i) (columns bm) 0%Z) k = false /\
       has (nth (blockIndex i) (blocks bm) 0%Z) k = false) /\
  (0 < updated -> totalBits bm' < totalBits bm) /\
  (forall i, ~ In i (unsolved bm) ->
     nth i (squares bm') 0%Z = nth i (squares bm) 0%Z).
Proof.
  intros Hp E. destruct (propagating_facts _ _ Hp) as (HI & _).
  destruct (reduceOptions_count _ _ _ _ HI E) as (Hc & Hun & H0).
  split; [rewrite Hc; apply filter_length_le|].
  split; [eapply Inv_length_unsolved; eauto|]. split; [|split].
  - intros Hz. destruct (H0 Hz) as [Hb HS]. split; [exact Hb|].
    intros i k Hi Hh. now apply Stable_has.
  - intros Hpos. eapply reduceOptions_decreases; eauto.
  - exact Hun.
Qed.

Lemma X12_witness :
  propagating easyPuzzle (newBoardMap easyPuzzle) /\
  reduceOptions [] (newBoardMap easyPuzzle) =
    (fst (fst (reduceOptions [] (newBoardMap easyPuzzle))),
     snd (fst (reduceOptions [] (newBoardMap easyPuzzle))),
     snd (reduceOptions [] (newBoardMap easyPuzzle))) /\
  length (unsolved (newBoardMap easyPuzzle)) <= 81.
Proof.
  assert (Hv : valid_board easyPuzzle) by (apply valid_by_check; by_computation).
  assert (Hp : propagating easyPuzzle (newBoardMap easyPuzzle))
    by now apply pg_new.
  assert (E : reduceOptions [] (newBoardMap easyPuzzle) =
    (fst (fst (reduceOptions [] (newBoardMap easyPuzzle))),
     snd (fst (reduceOptions [] (newBoardMap easyPuzzle))),
     snd (reduceOptions [] (newBoardMap easyPuzzle)))).
  { destruct (reduceOptions [] (newBoardMap easyPuzzle)) as [[u s] m].
    reflexivity. }
  split; [exact Hp|]. split; [exact E|].
  exact (proj1 (proj2 (X12_pass_counter easyPuzzle _ _ _ _ Hp E))).
Defined.

(** ** The loader *)

(** The characters formatted extraction does not skip. *)
Definition nonspace (input : list ascii) : list ascii :=
  filter (fun c => negb (isspace c)) input.

Lemma skipws_spec l :
  nonspace (skipws l) = nonspace l /\
  match skipws l with [] => True | c :: _ => isspace c = false end.
Proof.
  induction l as [|c l IH]; cbn [skipws]; [split; [reflexivity|exact I]|].
  destruct (isspace c) eqn:E.
  - destruct IH as [H1 H2]. split; [|exact H2].
    rewrite H1. unfold nonspace. cbn [filter]. now rewrite E.
  - split; [reflexivity|exact E].
Qed.

Lemma readChar_spec l :
  fst (readChar l) = hd dot (nonspace l) /\
  nonspace (snd (readChar l)) = tl (nonspace l).
Proof.
  unfold readChar. destruct (skipws_spec l) as [H1 H2]. rewrite <- H1.
  destruct (skipws l) as [|c rest]; [split; reflexivity|].
  unfold nonspace. cbn [filter fst snd]. rewrite H2. split; reflexivity.
Qed.

Lemma nth_tl {A} (l : list A) j d : nth j (tl l) d = nth (S j) l d.
Proof. destruct l; [now destruct j|reflexivity]. Qed.

Lemma nth_skipn_add {A} n (l : list A) j d :
  nth j (skipn n l) d = nth (n + j) l d.
Proof.
  revert l; induction n as [|n IH]; intros l; [reflexivity|].
  destruct l as [|x l]; [now destruct j|]. apply IH.
Qed.

Lemma skipn_tl {A} n (l : list A) : skipn n (tl l) = skipn (S n) l.
Proof. destruct l; [now destruct n|reflexivity]. Qed.

Lemma readRow_spec n l :
  length (fst (readRow n l)) = n /\
  (forall j, j < n -> nth j (fst (readRow n l)) dot = nth j (nonspace l) dot)
  /\ nonspace (snd (readRow n l)) = skipn n (nonspace l).
Proof.
  revert l; induction n as [|n IH]; intros l; cbn [readRow].
  - split; [reflexivity|]. split; [intros j Hj; lia|reflexivity].
  - destruct (readChar_spec l) as [Hc Hr].
    destruct (readChar l) as [c rest]. cbn [fst snd] in Hc, Hr.
    destruct (IH rest) as (H1 & H2 & H3).
    destruct (readRow n rest) as [row rest']. cbn [fst snd] in *.
    split; [cbn [length]; now rewrite H1|]. split.
    + intros [|j] Hj.
      * rewrite Hc. now destruct (nonspace l).
      * cbn [nth]. rewrite H2 by lia. rewrite Hr. apply nth_tl.
    + rewrite H3, Hr. apply skipn_tl.
Qed.

Lemma readGame_spec n l :
  length (fst (readGame n l)) = n /\
  forall y, y < n ->
    length (nth y (fst (readGame n l)) []) = 9 /\
    forall x, x < 9 ->
      nth x (nth y (fst (readGame n l)) []) dot
      = nth (9 * y + x) (nonspace l) dot.
Proof.
  revert l; induction n as [|n IH]; intros l; cbn [readGame].
  - split; [reflexivity|]. intros y Hy. lia.
  - destruct (readRow_spec 9 l) as (R1 & R2 & R3).
    destruct (readRow 9 l) as [row rest]. cbn [fst snd] in R1, R2, R3.
    destruct (IH rest) as (G1 & G2).
    destruct (readGame n rest) as [game rest']. cbn [fst snd] in *.
    split; [cbn [length]; now rewrite G1|].
    intros [|y] Hy; cbn [nth].
    + split; [exact R1|]. intros x Hx. rewrite R2 by exact Hx.
      f_equal.
    + destruct (G2 y ltac:(lia)) as [L N]. split; [exact L|].
      intros x Hx. rewrite N by exact Hx. rewrite R3, nth_skipn_add.
      f_equal. lia.
Qed.

(** X13: whatever the input, the loader of [main] builds a board of
    nine rows of nine squares; its squares are, in order, the first 81
    characters of the input that are not white space, and ['.'] from
    the point where the input runs out. *)
Theorem X13_loadGame input i :
  i < 81 ->
  wf_board (loadGame input) /\
  cell (loadGame input) i = nth i (nonspace input) dot /\
  (length (nonspace input) <= i -> cell (loadGame input) i = dot).
Proof.
  intros Hi. unfold loadGame.
  destruct (readGame_spec 9 input) as (G1 & G2).
  assert (Hc : cell (fst (readGame 9 input)) i = nth i (nonspace input) dot).
  { unfold cell, getCell.
    destruct (G2 (rowIndex i) (rowIndex_lt i Hi)) as [_ N].
    rewrite (N (columnIndex i) (columnIndex_lt i)). f_equal.
    unfold rowIndex, columnIndex. symmetry. apply Nat.div_mod_eq. }
  split; [|split].
  - split; [exact G1|]. intros y Hy. apply (G2 y Hy).
  - exact Hc.
  - intros Hlen. rewrite Hc. now apply nth_overflow.
Qed.

Lemma X13_witness :
  80 < 81 /\ wf_board (loadGame []) /\ cell (loadGame []) 80 = dot.
Proof.
  assert (H : 80 < 81) by lia.
  destruct (X13_loadGame [] 80 H) as (Hw & Hc & _).
  split; [exact H|]. split; [exact Hw|]. rewrite Hc. reflexivity.
Defined.

(** ** solveSudoku *)

(** How a call of [solveSudoku] ends: it returns, leaving the caller's
    board as [solve] left it, or it writes a message to [cerr] and
    calls [exit]. *)
Inductive Ending : Type :=
| Returned (b : Board)
| Exited (status : Z) (err : String.string).

Module Stderr.
Import String.

(** ["No solution found!\n"] *)
Definition noSolutionMessage : string :=
  append "No solution found!" (String (ascii_of_nat 10) EmptyString).

End Stderr.

Import Stderr.

Definition solveSudoku (fuel : nat) (b : Board) : option Ending :=
  match solveBoard fuel b with
  | None => None
  | Some o =>
      if result o then Some (Returned (board (final o)))
      else Some (Exited (-1) noSolutionMessage)
  end.

(** X14: on a valid board [solveSudoku] ends; when the board has a
    completion it returns with a completion in the caller's board and
    never calls [exit]; when it exits, with status -1, the board has no
    completion. *)
Theorem X14_solveSudoku n b :
  valid_board b -> 812 <= n ->
  (exists e, solveSudoku n b = Some e) /\
  ((exists s, completes b s) ->
   exists b', solveSudoku n b = Some (Returned b') /\ completes b b') /\
  (forall status err,
     solveSudoku n b = Some (Exited status err) ->
     status = (-1)%Z /\ err = noSolutionMessage /\
     ~ exists s, completes b s).
Proof.
  intros Hv Hn. unfold solveSudoku.
  destruct (solve_terminates b n Hv Hn) as [o E]. rewrite E.
  split; [|split].
  - destruct (result o); eauto.
  - intros [s Hs].
    assert (Hr : result o = true).
    { destruct (result o) eqn:Hr; [reflexivity|]. exfalso.
      apply (solve_false_unsolvable n b o Hv E Hr). now exists s. }
    rewrite Hr. exists (board (final o)). split; [reflexivity|].
    exact (solve_true_completes n b o Hv (completes_Consistent b s Hs) E Hr).
  - intros status err. destruct (result o) eqn:Hr; [discriminate|].
    intros H. injection H as <- <-. split; [reflexivity|].
    split; [reflexivity|]. exact (solve_false_unsolvable n b o Hv E Hr).
Qed.

Lemma X14_witness :
  valid_board deadBoard /\ 812 <= 812 /\
  exists e, solveSudoku 812 deadBoard = Some e.
Proof.
  assert (Hv : valid_board deadBoard) by (apply valid_by_check; by_computation).
  split; [exact Hv|]. split; [apply Nat.le_refl|].
  exact (proj1 (X14_solveSudoku 812 deadBoard Hv (Nat.le_refl 812))).
Defined.

(** ** A board with one empty square *)

Lemma ascending_single l i :
  ascending l -> (forall x, In x l <-> x = i) -> l = [i].
Proof.
  intros Ha Hm. destruct l as [|a l].
  - now destruct (proj2 (Hm i) eq_refl).
  - assert (a = i) by (apply Hm; now left). subst a.
    f_equal. apply no_members_nil. intros x Hx.
    assert (x = i) by (apply Hm; now right). subst x.
    destruct Ha as [Hlt _]. specialize (Hlt i Hx). lia.
Qed.

Lemma reduceOptions_nil bm :
  unsolved bm = [] -> reduceOptions [] bm = (0, [], bm).
Proof.
  intros H. rewrite reduceOptions_eq. cbv zeta. rewrite H.
  cbn [fold_left p_bm p_solved p_reduced]. rewrite H.
  cbn [fold_left]. unfold USet.empty. f_equal.
  destruct bm. cbn in H. subst. reflexivity.
Qed.

Lemma bit_neq_511 k : k < 9 -> bit k <> 511%Z.
Proof. revert k. apply nat_lt9_cases; discriminate. Qed.

(** X15: a valid board with a single empty square, whose row, column
    and block together show every symbol but one, is solved by
    propagation alone: [solve] returns true without a guess, the missing
    symbol is written to the empty square and nothing else changes. *)
Theorem X15_single_empty_square n b i k :
  valid_board b -> i < 81 -> k < 9 -> cell b i = dot ->
  (forall j, j < 81 -> j <> i -> cell b j <> dot) ->
  (forall k', k' < 9 ->
     (k' <> k <->
      exists j, j < 81 /\ cell b j = symbol k' /\
                (rowIndex j = rowIndex i \/ columnIndex j = columnIndex i
                 \/ blockIndex j = blockIndex i))) ->
  3 <= n ->
  exists o, solveBoard n b = Some o /\ result o = true /\
            guesses o = [] /\
            board (final o)
            = setCell b (rowIndex i) (columnIndex i) (symbol k).
Proof.
  intros Hv Hi Hk Hd Hfull Hmiss Hn.
  pose proof (newBoardMap_inv b Hv) as HI.
  pose proof (newBoardMap_board b Hv) as Hb.
  set (bm0 := newBoardMap b) in *.
  assert (Hu : unsolved bm0 = [i]).
  { apply ascending_single; [eapply inv_asc; eauto|]. intros x. split.
    - intros Hx. assert (Hx81 : x < 81) by (eapply inv_bound; eauto).
      destruct (Nat.eq_dec x i) as [|Hne]; [assumption|]. exfalso.
      apply (Hfull x Hx81 Hne). rewrite <- Hb.
      apply (inv_dot _ _ _ HI); auto.
    - intros ->. rewrite <- Hb in Hd.
      apply (inv_dot _ _ _ HI) in Hd; auto. apply Hd. }
  assert (Hsq : nth i (squares bm0) 0%Z = 511%Z)
    by (apply newBoardMap_511; auto).
  destruct (inv_rows _ _ _ HI) as [_ Sr].
  destruct (inv_columns _ _ _ HI) as [_ Sc].
  destruct (inv_blocks _ _ _ HI) as [_ Sb].
  rewrite Hb in Sr, Sc, Sb.
  assert (Hred : reducedMask bm0 i = bit k).
  { apply mask_ext.
    - apply reducedMask_is_mask. rewrite Hsq. apply is_mask_511.
    - now apply is_mask_bit.
    - intros k' Hk'. rewrite has_reducedMask, Hsq, has_511, has_bit by auto.
      destruct (Sr _ (rowIndex_lt i Hi)) as [_ Hr].
      destruct (Sc _ (columnIndex_lt i)) as [_ Hc].
      destruct (Sb _ (blockIndex_lt i Hi)) as [_ Hbk].
      specialize (Hr k' Hk'). specialize (Hc k' Hk').
      specialize (Hbk k' Hk').
      destruct (Nat.eqb_spec k k') as [<-|Hne].
      + assert (Hnone : ~ exists j, j < 81 /\ cell b j = symbol k /\
                  (rowIndex j = rowIndex i \/ columnIndex j = columnIndex i
                   \/ blockIndex j = blockIndex i)).
        { intros Hex. apply (Hmiss k Hk) in Hex. now apply Hex. }
        assert (E1 : has (nth (rowIndex i) (rows bm0) 0%Z) k = false).
        { apply not_true_is_false. intros E. apply Hnone. apply Hr in E.
          destruct E as (j & Hj & Hg & Hs). exists j. auto. }
        assert (E2 : has (nth (columnIndex i) (columns bm0) 0%Z) k = false).
        { apply not_true_is_false. intros E. apply Hnone. apply Hc in E.
          destruct E as (j & Hj & Hg & Hs). exists j. auto. }
        assert (E3 : has (nth (blockIndex i) (blocks bm0) 0%Z) k = false).
        { apply not_true_is_false. intros E. apply Hnone. apply Hbk in E.
          destruct E as (j & Hj & Hg & Hs). exists j. auto. }
        rewrite E1, E2, E3. reflexivity.
      + assert (Hex : exists j, j < 81 /\ cell b j = symbol k' /\
                  (rowIndex j = rowIndex i \/ columnIndex j = columnIndex i
                   \/ blockIndex j = blockIndex i)).
        { apply (Hmiss k' Hk'). congruence. }
        destruct Hex as (j & Hj & Hs & [Hg|[Hg|Hg]]).
        * assert (X : has (nth (rowIndex i) (rows bm0) 0%Z) k' = true)
            by (apply Hr; exists j; auto).
          rewrite X. reflexivity.
        * assert (X : has (nth (columnIndex i) (columns bm0) 0%Z) k' = true)
            by (apply Hc; exists j; auto).
          rewrite X. cbn [negb]. now rewrite !andb_false_r.
        * assert (X : has (nth (blockIndex i) (blocks bm0) 0%Z) k' = true)
            by (apply Hbk; exists j; auto).
          rewrite X. cbn [negb]. now rewrite !andb_false_r. }
  assert (Hlen : i < length (squares (p_bm (mkPass bm0 [] 0)))).
  { cbn [p_bm]. now rewrite (inv_len _ _ _ HI). }
  assert (Ecell : reduceCell (mkPass bm0 [] 0) i
                  = mkPass (commit bm0 i k) [i] 1).
  { destruct (reduceCell_cases _ i Hlen)
      as [[E0 _]|[(_ & Hdt & _)|(_ & k' & Hk' & Hb' & Er)]];
      cbn [p_bm p_solved p_reduced] in *.
    - rewrite Hred, Hsq in E0. now apply bit_neq_511 in E0.
    - rewrite Hred, toChar_bit in Hdt by auto.
      now apply symbol_neq_dot in Hdt.
    - assert (k' = k).
      { rewrite Hred in Hb'. apply (f_equal (fun m => has m k)) in Hb'.
        rewrite !has_bit, Nat.eqb_refl in Hb'. symmetry in Hb'.
        now apply Nat.eqb_eq in Hb'. }
      subst k'. exact Er. }
  assert (E1 : reduceOptions [] bm0
               = (1, [], set_unsolved (commit bm0 i k) [])).
  { rewrite reduceOptions_eq. cbv zeta. rewrite Hu. cbn [fold_left].
    rewrite Ecell. cbn [p_bm p_solved p_reduced unsolved commit fold_left].
    rewrite Hu. cbn [USet.erase]. now rewrite Nat.eqb_refl. }
  assert (E2 : reduceOptions [] (set_unsolved (commit bm0 i k) [])
               = (0, [], set_unsolved (commit bm0 i k) []))
    by now apply reduceOptions_nil.
  destruct n as [|[|[|f]]]; try lia.
  unfold solveBoard. fold bm0. cbn [solve propagate].
  change USet.empty with (@nil nat). rewrite E1.
  cbn [Nat.ltb Nat.leb]. rewrite E2. cbn [Nat.ltb Nat.leb search].
  cbn [unsolved set_unsolved USet.is_empty].
  eexists. split; [reflexivity|]. cbn [result guesses final board commit].
  split; [reflexivity|]. split; [reflexivity|].
  exact (f_equal (fun x => setCell x (rowIndex i) (columnIndex i) (symbol k))
                 Hb).
Qed.

Lemma X15_witness :
  exists o, solveBoard 3 clashBoard = Some o /\ result o = true /\
            guesses o = [] /\
            board (final o)
            = setCell clashBoard (rowIndex 78) (columnIndex 78) (symbol 0).
Proof.
  assert (Hv : valid_board clashBoard) by (apply valid_by_check; by_computation).
  assert (Hi : 78 < 81) by lia.
  assert (Hk : 0 < 9) by lia.
  assert (Hd : cell clashBoard 78 = dot) by by_computation.
  assert (Hfull : forall j, j < 81 -> j <> 78 -> cell clashBoard j <> dot).
  { intros j Hj Hne.
    assert (E : forallb (fun j => (j =? 78)
                           || negb (Ascii.eqb (cell clashBoard j) dot))
                        (seq 0 81) = true) by by_computation.
    rewrite forallb_forall in E.
    assert (Hin : In j (seq 0 81)) by (apply in_seq; lia).
    specialize (E j Hin). apply orb_true_iff in E. destruct E as [E|E].
    - apply Nat.eqb_eq in E. congruence.
    - apply negb_true_iff in E. now apply Ascii.eqb_neq. }
  assert (Hmiss : forall k', k' < 9 ->
     (k' <> 0 <->
      exists j, j < 81 /\ cell clashBoard j = symbol k' /\
                (rowIndex j = rowIndex 78 \/ columnIndex j = columnIndex 78
                 \/ blockIndex j = blockIndex 78))).
  { intros k' Hk'. split.
    - intros Hne.
      assert (E : forallb (fun k' => (k' =? 0) ||
                   existsb (fun j => Ascii.eqb (cell clashBoard j) (symbol k')
                                     && ((rowIndex j =? rowIndex 78)
                                         || (columnIndex j =? columnIndex 78)
                                         || (blockIndex j =? blockIndex 78)))
                           (seq 0 81)) (seq 0 9) = true) by by_computation.
      rewrite forallb_forall in E.
      assert (Hin : In k' (seq 0 9)) by (apply in_seq; lia).
      specialize (E k' Hin). apply orb_true_iff in E. destruct E as [E|E].
      + apply Nat.eqb_eq in E. congruence.
      + apply existsb_exists in E. destruct E as (j & Hj & E).
        apply in_seq in Hj. apply andb_true_iff in E. destruct E as [E1 E2].
        apply Ascii.eqb_eq in E1.
        exists j. split; [lia|]. split; [exact E1|].
        apply orb_true_iff in E2. destruct E2 as [E2|E2].
        * apply orb_true_iff in E2. destruct E2 as [E2|E2].
          -- left. now apply Nat.eqb_eq.
          -- right. left. now apply Nat.eqb_eq.
        * right. right. now apply Nat.eqb_eq.
    - intros (j & Hj & Hs & Hg) ->.
      assert (E : forallb (fun j =>
                   negb (Ascii.eqb (cell clashBoard j) (symbol 0))
                   || negb ((rowIndex j =? rowIndex 78)
                            || (columnIndex j =? columnIndex 78)
                            || (blockIndex j =? blockIndex 78)))
                  (seq 0 81) = true) by by_computation.
      rewrite forallb_forall in E.
      assert (Hin : In j (seq 0 81)) by (apply in_seq; lia).
      specialize (E j Hin). rewrite Hs, Ascii.eqb_refl in E. cbn [negb orb] in E.
      apply negb_true_iff in E.
      destruct Hg as [Hg|[Hg|Hg]]; rewrite Hg, Nat.eqb_refl in E;
        cbn [orb] in E; rewrite ?orb_true_r in E; discriminate. }
  exact (X15_single_empty_square 3 clashBoard 78 0 Hv Hi Hk Hd Hfull Hmiss
           (Nat.le_refl 3)).
Defined.
